(** * ASCII battle game server: a shallow embedding of [server.c]

    The server keeps three globals, [players], [player_count] and
    [obstacles], and touches them only while [state_lock] is held.  The
    embedding follows that granularity: every critical section of the C
    file is one function on the record [Game], returning the new globals
    together with the system calls it issued ([send], [close]) as a list
    of events.  The outcome of each [send] inside
    [broadcast_state_locked] and the values returned by [rand] are inputs
    of the functions that use them.  A run of the server is a schedule
    of such steps ([exec], [reachable]), one per lock acquisition; the
    reads the C file makes outside the lock (lines 107 and 152-153) are
    steps of their own.

    C [int]s are unbounded [Z] here: signed overflow is undefined in C,
    and health and coordinates stay within [0, MAX_HP] and the grid on
    every reachable world ([reachable_in_range] below).

    Contents: the C string functions of the parser; the data model; the
    critical sections of [client_handler] and [main]; the threads and
    their schedule; the properties; their proofs, with the statements
    C1 to C10 and worked instances; further properties of the parser,
    the state text, the slots, the counter and the handler threads
    (X1 to X23). *)

From Stdlib Require Import ZArith Lia Ascii String Sorted.
From stdpp Require Import base tactics option numbers list strings pretty gmap.

Local Open Scope Z_scope.

(** ** Constants ([#define]s, lines 20-23) *)

Definition GRID_SIZE : Z := 5.
Definition MAX_PLAYERS : nat := 4.
Definition MAX_HP : Z := 100.
Definition DAMAGE : Z := 20.

(** ** C string functions used by the command parser

    A Rocq [string] stands for the characters of a C string before its
    terminating NUL; [hd_char] reads the NUL when the string is over. *)

Module CStr.

Definition hd_char (s : string) : ascii :=
  match s with String c _ => c | EmptyString => Ascii.zero end.

Definition tl_str (s : string) : string :=
  match s with String _ t => t | EmptyString => EmptyString end.

Definition code (c : ascii) : Z := Z.of_N (N_of_ascii c).

(** [tolower] and [toupper] in the C locale. *)
Definition tolower (c : ascii) : ascii :=
  if (65 <=? code c) && (code c <=? 90)
  then ascii_of_N (N_of_ascii c + 32) else c.

Definition toupper (c : ascii) : ascii :=
  if (97 <=? code c) && (code c <=? 122)
  then ascii_of_N (N_of_ascii c - 32) else c.

(** [isspace] in the C locale: space, and the controls \t \n \v \f \r. *)
Definition isspace (c : ascii) : bool :=
  (code c =? 32) || ((9 <=? code c) && (code c <=? 13)).

(** [strcmp]: difference of the first characters that differ. *)
Fixpoint strcmp (s1 s2 : string) : Z :=
  let d := code (hd_char s1) - code (hd_char s2) in
  match s1 with
  | EmptyString => d
  | String _ t1 => if d =? 0 then strcmp t1 (tl_str s2) else d
  end.

(** [strcasecmp]: as [strcmp] on the lower-cased characters. *)
Fixpoint strcasecmp (s1 s2 : string) : Z :=
  let d := code (tolower (hd_char s1)) - code (tolower (hd_char s2)) in
  match s1 with
  | EmptyString => d
  | String _ t1 => if d =? 0 then strcasecmp t1 (tl_str s2) else d
  end.

(** [strncasecmp]: at most [n] characters are compared. *)
Fixpoint strncasecmp (s1 s2 : string) (n : nat) : Z :=
  match n with
  | O => 0
  | S n' =>
    let d := code (tolower (hd_char s1)) - code (tolower (hd_char s2)) in
    match s1 with
    | EmptyString => d
    | String _ t1 => if d =? 0 then strncasecmp t1 (tl_str s2) n' else d
    end
  end.

(** The pointer [buffer + k]. *)
Fixpoint advance (k : nat) (s : string) : string :=
  match k with
  | O => s
  | S k' => advance k' (tl_str s)
  end.

Fixpoint skip_space (s : string) : string :=
  match s with
  | String c t => if isspace c then skip_space t else s
  | EmptyString => EmptyString
  end.

(** The characters stored by a [%<width>s] conversion: up to [width]
    characters, stopping at white space or at the end of the input. *)
Fixpoint scan_word (width : nat) (s : string) : string :=
  match width, s with
  | S w, String c t => if isspace c then EmptyString else String c (scan_word w t)
  | _, _ => EmptyString
  end.

(** [sscanf(s, "%15s", out)]: [Some word] when the call returns 1, [None]
    when the input ends before any character is converted. *)
Definition sscanf_s15 (s : string) : option string :=
  match scan_word 15 (skip_space s) with
  | EmptyString => None
  | w => Some w
  end.

Fixpoint map_str (f : ascii -> ascii) (s : string) : string :=
  match s with
  | String c t => String (f c) (map_str f t)
  | EmptyString => EmptyString
  end.

(** What the handler sees of the bytes it received: the buffer was zeroed
    and is cut again at the first CR or LF ([strpbrk], lines 137-138), so
    the command is the text before the first NUL, CR or LF. *)
Definition line_end (c : ascii) : bool :=
  (code c =? 0) || (code c =? 10) || (code c =? 13).

Fixpoint trim_line (s : string) : string :=
  match s with
  | String c t => if line_end c then EmptyString else String c (trim_line t)
  | EmptyString => EmptyString
  end.

End CStr.

(** ** Data model (lines 27-38) *)

(** [active] is an [int] in C that only ever holds 0 or 1 and is only
    tested for truth. *)
Record Player := mkPlayer {
  symbol : ascii;
  row : Z;
  col : Z;
  hp : Z;
  socket_fd : Z;
  active : bool
}.

Record Game := mkGame {
  players : list Player;
  player_count : Z;
  obstacles : list (list Z)
}.

Definition with_pos (r c : Z) (p : Player) : Player :=
  mkPlayer (symbol p) r c (hp p) (socket_fd p) (active p).
Definition with_row (r : Z) (p : Player) : Player :=
  mkPlayer (symbol p) r (col p) (hp p) (socket_fd p) (active p).
Definition with_col (c : Z) (p : Player) : Player :=
  mkPlayer (symbol p) (row p) c (hp p) (socket_fd p) (active p).
Definition with_hp (h : Z) (p : Player) : Player :=
  mkPlayer (symbol p) (row p) (col p) h (socket_fd p) (active p).
Definition with_fd (fd : Z) (p : Player) : Player :=
  mkPlayer (symbol p) (row p) (col p) (hp p) fd (active p).
Definition with_active (a : bool) (p : Player) : Player :=
  mkPlayer (symbol p) (row p) (col p) (hp p) (socket_fd p) a.

(** The slot as [main] initialises it (lines 291-297). *)
Definition init_player (i : nat) : Player :=
  mkPlayer (ascii_of_nat (65 + i)) 0 0 0 (-1) false.

(** [players[i]]; every index the code uses is below [MAX_PLAYERS]. *)
Definition slot (g : Game) (i : nat) : Player :=
  default (init_player i) (players g !! i).

(** [players[i] = f(players[i])]. *)
Definition upd_slot (i : nat) (f : Player -> Player) (g : Game) : Game :=
  mkGame (<[i := f (slot g i)]> (players g)) (player_count g) (obstacles g).

Definition add_count (d : Z) (g : Game) : Game :=
  mkGame (players g) (player_count g + d) (obstacles g).

(** [obstacles[r][c]], read only after a bounds check or with
    [r], [c] drawn modulo [GRID_SIZE]. *)
Definition obstacle_at (obs : list (list Z)) (r c : Z) : Z :=
  default 0 (obs !! Z.to_nat r ≫= fun line => line !! Z.to_nat c).

(** ** System calls issued by the server *)

(** A message is one of the fixed texts, or the state text that
    [broadcast_state_locked] renders (lines 47-78) from the roster and
    the grid it is called on; it is kept as the data it is rendered
    from, and [bytes_of] below gives the text. *)
Inductive message :=
  | Text (s : string)
  | StateMsg (snapshot : list Player) (grid : list (list Z)).

(** [EvBroadcast] marks one call of [broadcast_state_locked]. *)
Inductive event :=
  | EvSend (fd : Z) (m : message)
  | EvClose (fd : Z)
  | EvBroadcast (snapshot : list Player).

Definition nl : string := String (ascii_of_nat 10) EmptyString.

Definition msg_usage : string := "Usage: MOVE <UP|DOWN|LEFT|RIGHT>" ++ nl.
Definition msg_invalid_direction : string :=
  "Invalid direction. Use UP, DOWN, LEFT, or RIGHT." ++ nl.
Definition msg_out_of_bounds : string := "Move blocked: out of bounds." ++ nl.
Definition msg_obstacle : string := "Move blocked: obstacle in the way." ++ nl.
Definition msg_occupied : string :=
  "Move blocked: another player is in that cell." ++ nl.
Definition msg_no_targets : string := "No targets adjacent to attack." ++ nl.
Definition msg_unknown : string :=
  "Unknown command. Available commands: MOVE, ATTACK, QUIT." ++ nl.
Definition msg_server_full : string := "Server full. Try again later." ++ nl.
Definition msg_no_slot : string := "Server error: no slot available." ++ nl.
Definition msg_welcome (c : ascii) : string :=
  "Welcome to the game! You are player " ++ String c "." ++ nl.

(** ** Loops over the player slots *)

(** [for (q = 0; q < MAX_PLAYERS; ++q) body], threading the loop state
    and collecting the events of the iterations in order. *)
Fixpoint for_each {S : Type} (body : nat -> S -> S * list event)
    (qs : list nat) (s : S) : S * list event :=
  match qs with
  | [] => (s, [])
  | q :: qs' =>
    let '(s1, o1) := body q s in
    let '(s2, o2) := for_each body qs' s1 in
    (s2, o1 ++ o2)
  end.

Definition slots : list nat := seq 0 MAX_PLAYERS.

(** ** [broadcast_state_locked] (lines 46-101) *)

(** The character shown for cell [(r, c)] (lines 53-63): the symbol of
    the first occupied slot standing there, else [X] on an obstacle and
    a dot elsewhere. *)
Definition cell_char (ps : list Player) (grid : list (list Z)) (r c : Z)
    : ascii :=
  let cell := if obstacle_at grid r c =? 1 then "X"%char else "."%char in
  match find (fun pl => active pl && (row pl =? r) && (col pl =? c)) ps with
  | Some pl => symbol pl
  | None => cell
  end.

Definition grid_row_text (ps : list Player) (grid : list (list Z)) (r : Z)
    : string :=
  foldr (fun c rest => String (cell_char ps grid r c) (String " " rest))
    nl (seqZ 0 GRID_SIZE).

(** The line of an occupied slot (lines 72-77); [%d] prints a decimal
    with a minus sign for negatives, as [pretty] does. *)
Definition player_line (pl : Player) : string :=
  String (symbol pl)
    (String.concat ""
       [": HP="; pretty (hp pl); " at ("; pretty (row pl); ",";
        pretty (col pl); ")"; nl]).

(** The text built in [state_msg] (lines 47-78).  It stays below the
    512 bytes of the buffer whatever the [int]s are (at most 47 bytes
    per player line), so [snprintf] never truncates it. *)
Definition state_text (ps : list Player) (grid : list (list Z)) : string :=
  String.concat ""
    ([String.append "Grid:" nl]
     ++ map (grid_row_text ps grid) (seqZ 0 GRID_SIZE)
     ++ [String.append "Players:" nl]
     ++ map player_line (List.filter active ps)).

(** The bytes of a message. *)
Definition bytes_of (m : message) : string :=
  match m with
  | Text s => s
  | StateMsg ps grid => state_text ps grid
  end.

(** What lines 92-95 do to a slot whose [send] failed; QUIT (241-244),
    a failed [recv] (124-127) and a failed [pthread_create] (396-399)
    run the same four statements. *)
Definition remove_player (p : nat) (g : Game) : Game :=
  add_count (-1) (upd_slot p (with_active false) (upd_slot p (with_fd (-1)) g)).

(** One iteration of the delivery loop (lines 82-100); [fails p] tells
    whether the [send] to slot [p] returns a negative value. *)
Definition deliver (fails : nat -> bool) (m : message) (p : nat) (g : Game)
    : Game * list event :=
  if negb (active (slot g p)) then (g, [])
  else
    let sock := socket_fd (slot g p) in
    if sock <? 0 then (g, [])
    else if fails p then (remove_player p g, [EvSend sock m; EvClose sock])
    else (g, [EvSend sock m]).

Definition broadcast_state_locked (fails : nat -> bool) (g : Game)
    : Game * list event :=
  let m := StateMsg (players g) (obstacles g) in
  let '(g', out) := for_each (deliver fails m) slots g in
  (g', EvBroadcast (players g) :: out).

(** ** [client_handler] (lines 105-268) *)

(** The scan of lines 183-189, and again of line 384: is some active slot
    other than [i] at cell [(r, c)]? *)
Definition occupied_by_other (g : Game) (i : nat) (r c : Z) : bool :=
  existsb (fun q => active (slot g q) && negb (q =? i)%nat
                    && (row (slot g q) =? r) && (col (slot g q) =? c)) slots.

(** The [strcmp] chain of lines 154-166 on the upper-cased direction. *)
Definition move_target (direction : string) (newR newC : Z) : option (Z * Z) :=
  if CStr.strcmp direction "UP" =? 0 then Some (newR - 1, newC)
  else if CStr.strcmp direction "DOWN" =? 0 then Some (newR + 1, newC)
  else if CStr.strcmp direction "LEFT" =? 0 then Some (newR, newC - 1)
  else if CStr.strcmp direction "RIGHT" =? 0 then Some (newR, newC + 1)
  else None.

(** The critical section of MOVE (lines 168-201). *)
Definition move_locked (g : Game) (i : nat) (sockfd newR newC : Z)
    (fails : nat -> bool) : Game * list event :=
  if (newR <? 0) || (newR >=? GRID_SIZE) || (newC <? 0) || (newC >=? GRID_SIZE)
  then (g, [EvSend sockfd (Text msg_out_of_bounds)])
  else if obstacle_at (obstacles g) newR newC =? 1
  then (g, [EvSend sockfd (Text msg_obstacle)])
  else if occupied_by_other g i newR newC
  then (g, [EvSend sockfd (Text msg_occupied)])
  else broadcast_state_locked fails
         (upd_slot i (with_col newC) (upd_slot i (with_row newR) g)).

(** The adjacency test of line 213. *)
Definition adjacent (dr dc : Z) : bool :=
  ((Z.abs dr =? 1) && (dc =? 0)) || ((Z.abs dc =? 1) && (dr =? 0)).

(** One iteration of the target scan (lines 209-226); the loop state is
    the globals and the local [hit]. *)
Definition attack_target (i : nat) (attackerR attackerC : Z) (q : nat)
    (s : Game * bool) : (Game * bool) * list event :=
  let '(g, hit) := s in
  if active (slot g q) && negb (q =? i)%nat then
    let dr := row (slot g q) - attackerR in
    let dc := col (slot g q) - attackerC in
    if adjacent dr dc then
      let g1 := upd_slot q (fun p => with_hp (hp p - DAMAGE) p) g in
      if hp (slot g1 q) <=? 0 then
        let g2 := upd_slot q (with_hp 0) g1 in
        ((remove_player q g2, true), [EvClose (socket_fd (slot g2 q))])
      else ((g1, true), [])
    else (s, [])
  else (s, []).

(** The critical section of ATTACK (lines 203-236). *)
Definition attack_locked (g : Game) (i : nat) (sockfd : Z)
    (fails : nat -> bool) : Game * list event :=
  let attackerR := row (slot g i) in
  let attackerC := col (slot g i) in
  let '((g1, hit), closed) :=
    for_each (attack_target i attackerR attackerC) slots (g, false) in
  if negb hit then (g1, closed ++ [EvSend sockfd (Text msg_no_targets)])
  else
    let '(g2, out) := broadcast_state_locked fails g1 in
    (g2, closed ++ out).

(** The critical section of QUIT (lines 239-247). *)
Definition quit_locked (g : Game) (i : nat) (fails : nat -> bool)
    : Game * list event :=
  let '(g', out) := broadcast_state_locked fails (remove_player i g) in
  (g', EvClose (socket_fd (slot g i)) :: out).

(** [recv] returned 0 or less (lines 118-133). *)
Definition recv_failed (g : Game) (i : nat) (fails : nat -> bool)
    : Game * list event :=
  if active (slot g i) then
    let '(g', out) := broadcast_state_locked fails (remove_player i g) in
    (g', EvClose (socket_fd (slot g i)) :: out)
  else (g, []).

(** After the loop (lines 257-264). *)
Definition thread_cleanup (g : Game) (i : nat) (sockfd : Z)
    : Game * list event :=
  ((if active (slot g i)
    then add_count (-1) (upd_slot i (with_active false) g) else g),
   [EvClose sockfd]).

(** The classification made by the [if]/[else if] chain of lines 141-253
    on the trimmed buffer. *)
Inductive command :=
  | MoveNoDirection
  | Move (direction : string)
  | Attack
  | Quit
  | Unknown.

Definition parse_command (buffer : string) : command :=
  if CStr.strncasecmp buffer "MOVE" 4 =? 0 then
    match CStr.sscanf_s15 (CStr.advance 4 buffer) with
    | None => MoveNoDirection
    | Some direction => Move (CStr.map_str CStr.toupper direction)
    end
  else if CStr.strcasecmp buffer "ATTACK" =? 0 then Attack
  else if CStr.strcasecmp buffer "QUIT" =? 0 then Quit
  else Unknown.

(** One turn of the command loop on the bytes [received] (lines 134-253),
    with the critical section run at once.  The boolean tells whether the
    loop goes on ([true]) or is left by [break] ([false]).  ATTACK, QUIT
    and the replies run wholly under the lock or without it, as here.
    For a MOVE the C code reads the position at lines 152-153, before
    the lock of line 168: the MOVE branch below is the turn when no
    other thread takes the lock in between, and a run of the server
    ([exec]) takes the two steps apart ([move_request], then
    [move_locked] on the target stored in [AtMoveLock]). *)
Definition handle_line (g : Game) (i : nat) (sockfd : Z) (received : string)
    (fails : nat -> bool) : Game * list event * bool :=
  match parse_command (CStr.trim_line received) with
  | MoveNoDirection => (g, [EvSend sockfd (Text msg_usage)], true)
  | Move direction =>
    match move_target direction (row (slot g i)) (col (slot g i)) with
    | None => (g, [EvSend sockfd (Text msg_invalid_direction)], true)
    | Some (newR, newC) => (move_locked g i sockfd newR newC fails, true)
    end
  | Attack => (attack_locked g i sockfd fails, true)
  | Quit => (quit_locked g i fails, false)
  | Unknown => (g, [EvSend sockfd (Text msg_unknown)], true)
  end.

(** ** [main] (lines 287-309 and 343-404) *)

Definition RAND_MAX : Z := 2147483647.

(** A value [rand] may return. *)
Definition rand_ok (d : Z) : Prop := 0 <= d <= RAND_MAX.

Definition empty_grid : list (list Z) :=
  replicate (Z.to_nat GRID_SIZE) (replicate (Z.to_nat GRID_SIZE) 0).

(** [obstacles[r][c] = 1]. *)
Definition set_obstacle (obs : list (list Z)) (r c : Z) : list (list Z) :=
  <[Z.to_nat r := <[Z.to_nat c := 1]> (default [] (obs !! Z.to_nat r))]> obs.

(** The placement loop of lines 301-309 from counter value [k];
    [draws] are the values the coming calls of [rand] return, and the
    result is [None] when they are used up with the loop still running.
    On a collision the counter is decremented and the loop header
    increments it again. *)
Fixpoint place_obstacles (obs : list (list Z)) (k obstacle_count : Z)
    (draws : list Z) : option (list (list Z)) :=
  if k <? obstacle_count then
    match draws with
    | d1 :: d2 :: rest =>
      let r := Z.rem d1 GRID_SIZE in
      let c := Z.rem d2 GRID_SIZE in
      if obstacle_at obs r c =? 1
      then place_obstacles obs (k - 1 + 1) obstacle_count rest
      else place_obstacles (set_obstacle obs r c) (k + 1) obstacle_count rest
    | _ => None
    end
  else Some obs.

(** The globals when the accept loop is entered (lines 291-309). *)
Definition main_init (draws : list Z) : option Game :=
  match draws with
  | d :: rest =>
    let obstacle_count := 3 + Z.rem d 3 in
    obs ← place_obstacles empty_grid 0 obstacle_count rest;
    Some (mkGame (init_player <$> slots) 0 obs)
  | [] => None
  end.

(** The scan of lines 360-366. *)
Definition find_free_slot (g : Game) : option nat :=
  find (fun i => negb (active (slot g i))) slots.

(** The [do ... while] of lines 380-384 for slot [idx]: each turn stores
    a fresh pair of draws in the slot and tests it. *)
Fixpoint spawn_position (idx : nat) (g : Game) (draws : list Z)
    : option Game :=
  match draws with
  | d1 :: d2 :: rest =>
    let g1 := upd_slot idx (with_col (Z.rem d2 GRID_SIZE))
                (upd_slot idx (with_row (Z.rem d1 GRID_SIZE)) g) in
    let r := row (slot g1 idx) in
    let c := col (slot g1 idx) in
    if (obstacle_at (obstacles g1) r c =? 1) || occupied_by_other g1 idx r c
    then spawn_position idx g1 rest
    else Some g1
  | _ => None
  end.

(** One turn of the accept loop up to the [pthread_create] call
    (lines 350-389) for the accepted descriptor [client_fd].  The last
    component is the slot handed to the new thread, if any.  [None] when
    the draws are used up inside the placement loop. *)
Definition accept_client (g : Game) (client_fd : Z) (draws : list Z)
    (fails : nat -> bool) : option (Game * list event * option nat) :=
  if player_count g >=? Z.of_nat MAX_PLAYERS
  then Some (g, [EvSend client_fd (Text msg_server_full); EvClose client_fd], None)
  else
    match find_free_slot g with
    | None => Some (g, [EvSend client_fd (Text msg_no_slot); EvClose client_fd], None)
    | Some idx =>
      let g1 := upd_slot idx (with_hp MAX_HP)
                  (upd_slot idx (with_fd client_fd)
                     (upd_slot idx (with_active true) g)) in
      g2 ← spawn_position idx g1 draws;
      Some (broadcast_state_locked fails (add_count 1 g2), Some idx)
    end.

(** [pthread_create] failed (lines 395-400). *)
Definition spawn_failed (g : Game) (idx : nat) : Game * list event :=
  (remove_player idx g, [EvClose (socket_fd (slot g idx))]).

(** ** The threads

    The globals change only inside critical sections, so a run of the
    server is a sequence of the functions above, one per lock
    acquisition, interleaved in any order the scheduler allows.  A
    handler thread is at the top of its loop ([AtRecv]), between reading
    its position and taking the lock for a MOVE ([AtMoveLock], lines
    152-168: the target is computed before the lock is taken), or past
    the loop before its final critical section ([AtCleanup]). *)

Inductive pc :=
  | AtStart
  | AtRecv
  | AtMoveLock (newR newC : Z)
  | AtCleanup.

Record Thread := mkThread {
  player_index : nat;
  sockfd : Z;
  at_pc : pc
}.

(** [spawning] is the slot for which [main] is about to call
    [pthread_create] (between lines 389 and 392). *)
Record World := mkWorld {
  game : Game;
  threads : list Thread;
  spawning : option nat
}.

(** The target of a well-formed MOVE, computed from the slot's position
    at the time the line is read. *)
Definition move_request (g : Game) (i : nat) (received : string)
    : option (Z * Z) :=
  match parse_command (CStr.trim_line received) with
  | Move direction => move_target direction (row (slot g i)) (col (slot g i))
  | _ => None
  end.

(** What the scheduler and the outside world may do next: a connection
    is accepted, [pthread_create] returns, thread number [k] starts, its
    [recv] returns bytes or fails, it gets the lock for its MOVE, or it
    runs its final critical section.  [fails] tells which [send]s of
    the broadcast fail, if one is made. *)
Inductive action :=
  | Accept (client_fd : Z) (draws : list Z) (fails : nat -> bool)
  | Spawned
  | SpawnFailed
  | Start (k : nat)
  | Recv (k : nat) (received : string) (fails : nat -> bool)
  | RecvFailed (k : nat) (fails : nat -> bool)
  | MoveLocked (k : nat) (fails : nat -> bool)
  | Cleanup (k : nat).

Definition rand_okb (d : Z) : bool := (0 <=? d) && (d <=? RAND_MAX).

(** One action on a world: the new world and the system calls made, or
    [None] when the action cannot happen there. *)
Definition exec (w : World) (a : action) : option (World * list event) :=
  match a with
  | Accept client_fd draws fails =>
    match spawning w with
    | Some _ => None
    | None =>
      if (0 <=? client_fd) && forallb rand_okb draws then
        match accept_client (game w) client_fd draws fails with
        | Some (g', out, idx) => Some (mkWorld g' (threads w) idx, out)
        | None => None
        end
      else None
    end
  | Spawned =>
    match spawning w with
    | Some idx =>
      Some (mkWorld (game w) (threads w ++ [mkThread idx (-1) AtStart]) None, [])
    | None => None
    end
  | SpawnFailed =>
    match spawning w with
    | Some idx =>
      let '(g', out) := spawn_failed (game w) idx in
      Some (mkWorld g' (threads w) None, out)
    | None => None
    end
  | Start k =>
    match threads w !! k with
    | Some (mkThread i _ AtStart) =>
      let p := slot (game w) i in
      Some (mkWorld (game w)
              (<[k := mkThread i (socket_fd p) AtRecv]> (threads w))
              (spawning w),
            [EvSend (socket_fd p) (Text (msg_welcome (symbol p)))])
    | _ => None
    end
  | Recv k received fails =>
    match threads w !! k with
    | Some (mkThread i fd AtRecv) =>
      match move_request (game w) i received with
      | Some (newR, newC) =>
        Some (mkWorld (game w)
                (<[k := mkThread i fd (AtMoveLock newR newC)]> (threads w))
                (spawning w),
              [])
      | None =>
        let '(g', out, continue) := handle_line (game w) i fd received fails in
        Some (mkWorld g'
                (<[k := mkThread i fd (if continue then AtRecv else AtCleanup)]>
                   (threads w))
                (spawning w),
              out)
      end
    | _ => None
    end
  | RecvFailed k fails =>
    match threads w !! k with
    | Some (mkThread i fd AtRecv) =>
      let '(g', out) := recv_failed (game w) i fails in
      Some (mkWorld g' (<[k := mkThread i fd AtCleanup]> (threads w))
              (spawning w),
            out)
    | _ => None
    end
  | MoveLocked k fails =>
    match threads w !! k with
    | Some (mkThread i fd (AtMoveLock newR newC)) =>
      let '(g', out) := move_locked (game w) i fd newR newC fails in
      Some (mkWorld g' (<[k := mkThread i fd AtRecv]> (threads w))
              (spawning w),
            out)
    | _ => None
    end
  | Cleanup k =>
    match threads w !! k with
    | Some (mkThread i fd AtCleanup) =>
      let '(g', out) := thread_cleanup (game w) i fd in
      Some (mkWorld g' (delete k (threads w)) (spawning w), out)
    | _ => None
    end
  end.

(** The worlds a run of the server goes through, from the first turn of
    the accept loop on. *)
Inductive reachable : World -> Prop :=
  | reach_init draws g :
      forallb rand_okb draws = true ->
      main_init draws = Some g ->
      reachable (mkWorld g [] None)
  | reach_step w a w' out :
      reachable w -> exec w a = Some (w', out) -> reachable w'.

(** A schedule run from a world. *)
Fixpoint run (w : World) (schedule : list action) : option World :=
  match schedule with
  | [] => Some w
  | a :: rest =>
    match exec w a with
    | Some (w', _) => run w' rest
    | None => None
    end
  end.

(** The world reached from start-up with the draws [draws] for the
    obstacles, under a schedule. *)
Definition boot (draws : list Z) (schedule : list action) : option World :=
  if forallb rand_okb draws then
    match main_init draws with
    | Some g => run (mkWorld g [] None) schedule
    | None => None
    end
  else None.

(** ** Properties of the globals *)

(** [players] is an array of [MAX_PLAYERS] slots. *)
Definition well_formed (g : Game) : Prop :=
  length (players g) = MAX_PLAYERS.

Definition in_bounds (r c : Z) : Prop :=
  0 <= r < GRID_SIZE /\ 0 <= c < GRID_SIZE.

(** No two occupied slots share a cell, and every occupied slot stands on
    a cell of the grid that is not an obstacle. *)
Definition positions_ok (g : Game) : Prop :=
  (forall i, active (slot g i) = true ->
     in_bounds (row (slot g i)) (col (slot g i)) /\
     obstacle_at (obstacles g) (row (slot g i)) (col (slot g i)) <> 1) /\
  (forall i j, active (slot g i) = true -> active (slot g j) = true ->
     row (slot g i) = row (slot g j) -> col (slot g i) = col (slot g j) ->
     i = j).

Definition sound (g : Game) : Prop := well_formed g /\ positions_ok g.

(** [g'] keeps the grid of [g], and every slot occupied in [g'] was
    occupied in [g] at the same cell. *)
Definition fades (g g' : Game) : Prop :=
  obstacles g' = obstacles g /\
  length (players g') = length (players g) /\
  forall q, active (slot g' q) = true ->
    active (slot g q) = true /\
    row (slot g' q) = row (slot g q) /\ col (slot g' q) = col (slot g q).

(** The number of slots whose [active] flag is set. *)
Definition occupied_count (g : Game) : Z :=
  Z.of_nat (length (List.filter active (players g))).

Definition count_consistent (g : Game) : Prop :=
  player_count g = occupied_count g.

(** *** Broadcast *)

(** The [send] to slot [p] is attempted (the slot is occupied and holds a
    descriptor) and fails. *)
Definition send_fails (fails : nat -> bool) (p : nat) (pl : Player) : bool :=
  active pl && (0 <=? socket_fd pl) && fails p.

(** A slot after its removal: flag cleared, descriptor forgotten. *)
Definition freed (pl : Player) : Player :=
  with_active false (with_fd (-1) pl).

(** The system calls of the delivery loop for slot [p]. *)
Definition delivery (fails : nat -> bool) (m : message) (p : nat)
    (pl : Player) : list event :=
  if active pl && (0 <=? socket_fd pl)
  then EvSend (socket_fd pl) m ::
       (if fails p then [EvClose (socket_fd pl)] else [])
  else [].

(** [free(slot)] in the words of the specification (section 4.2):
    release the transport handle, set occupied to false and the
    transport to none, and decrement the occupied count only if the slot
    was occupied. *)
Definition Roster_free (p : nat) (g : Game) : Game :=
  add_count (if active (slot g p) then -1 else 0) (upd_slot p freed g).

Definition free_each (ps : list nat) (g : Game) : Game :=
  foldl (fun g p => Roster_free p g) g ps.

Definition is_broadcast (e : event) : bool :=
  match e with EvBroadcast _ => true | _ => false end.

(** How many times [broadcast_state_locked] was called. *)
Definition broadcasts (out : list event) : nat :=
  length (List.filter is_broadcast out).

(** *** MOVE *)

(** The four directions of the grammar, their keywords and the target
    cell each one names, as the specification lists them. *)
Inductive direction := UP | DOWN | LEFT | RIGHT.

Definition direction_name (d : direction) : string :=
  match d with
  | UP => "UP" | DOWN => "DOWN" | LEFT => "LEFT" | RIGHT => "RIGHT"
  end.

Definition target_cell (d : direction) (r c : Z) : Z * Z :=
  match d with
  | UP => (r - 1, c)
  | DOWN => (r + 1, c)
  | LEFT => (r, c - 1)
  | RIGHT => (r, c + 1)
  end.

(** Some occupied slot other than [i] stands on cell [(r, c)]. *)
Definition cell_taken (g : Game) (i : nat) (r c : Z) : Prop :=
  exists q, q <> i /\ active (slot g q) = true /\
            row (slot g q) = r /\ col (slot g q) = c.

(** The roster with slot [i] put on cell [(r, c)]. *)
Definition placed (g : Game) (i : nat) (r c : Z) : Game :=
  upd_slot i (with_pos r c) g.

(** *** ATTACK *)

Definition manhattan (p a : Player) : Z :=
  Z.abs (row p - row a) + Z.abs (col p - col a).

(** Slot [q] is another occupied slot at Manhattan distance exactly 1
    from slot [i]. *)
Definition is_target (g : Game) (i q : nat) : bool :=
  active (slot g q) && negb (q =? i)%nat
  && (manhattan (slot g q) (slot g i) =? 1).

(** The hit brings the health to zero or below. *)
Definition dies (p : Player) : bool := hp p - DAMAGE <=? 0.

(** A slot after it was hit: [DAMAGE] less health, and when that is zero
    or below, health zero and the slot freed. *)
Definition struck (p : Player) : Player :=
  if dies p then freed (with_hp 0 p) else with_hp (hp p - DAMAGE) p.

(** The target scan on the globals alone. *)
Definition attack_one (i : nat) (attackerR attackerC : Z) (q : nat) (g : Game)
    : Game * list event :=
  ((attack_target i attackerR attackerC q (g, false)).1.1,
   (attack_target i attackerR attackerC q (g, false)).2).

(** The test of lines 209-213 on the content of slot [q]. *)
Definition targeted (i : nat) (attackerR attackerC : Z) (q : nat)
    (pl : Player) : bool :=
  active pl && negb (q =? i)%nat
  && adjacent (row pl - attackerR) (col pl - attackerC).

(** The scan of lines 208-227 run over the slots in the order [qs]. *)
Definition attack_scan (g : Game) (i : nat) (qs : list nat)
    : (Game * bool) * list event :=
  for_each (attack_target i (row (slot g i)) (col (slot g i))) qs (g, false).

(** *** Join *)

(** Cell [(r, c)] is neither an obstacle nor held by an occupied slot
    other than [idx]: the exit test of the placement loop. *)
Definition admissible (g : Game) (idx : nat) (r c : Z) : bool :=
  negb (obstacle_at (obstacles g) r c =? 1)
  && negb (occupied_by_other g idx r c).

(** Read two at a time and reduced modulo [GRID_SIZE], the draws come
    upon an admissible cell. *)
Fixpoint reaches_admissible (g : Game) (idx : nat) (draws : list Z) : bool :=
  match draws with
  | d1 :: d2 :: rest =>
    admissible g idx (Z.rem d1 GRID_SIZE) (Z.rem d2 GRID_SIZE)
    || reaches_admissible g idx rest
  | _ => false
  end.

(** The slot as the join fills it in before the placement loop. *)
Definition occupied_by (client_fd : Z) (p : Player) : Player :=
  with_hp MAX_HP (with_fd client_fd (with_active true p)).

(** The globals once slot [idx] is taken by [client_fd] on cell
    [(r, c)], before the broadcast that announces it. *)
Definition joined (g : Game) (idx : nat) (client_fd r c : Z) : Game :=
  add_count 1 (upd_slot idx (fun p => with_pos r c (occupied_by client_fd p)) g).

(** *** Command texts *)

Fixpoint first_chars (n : nat) (s : string) : string :=
  match n, s with
  | S n', String c t => String c (first_chars n' t)
  | _, _ => EmptyString
  end.

Definition lower (s : string) : string := CStr.map_str CStr.tolower s.

(** Equality of texts up to the case of letters. *)
Definition same_text (s t : string) : Prop := lower s = lower t.

(** The first four characters spell MOVE, in any case. *)
Definition starts_with_move (s : string) : Prop :=
  same_text (first_chars 4 s) "MOVE".

(** No NUL character inside the text. *)
Fixpoint nul_free (s : string) : Prop :=
  match s with
  | String c t => c <> Ascii.zero /\ nul_free t
  | EmptyString => True
  end.

(** A line as the framing delivers it: cut at the first NUL, CR or LF. *)
Definition trimmed (line : string) : Prop := CStr.trim_line line = line.

(** The keyword MOVE followed by an argument word. *)
Definition move_with_argument (line : string) : Prop :=
  starts_with_move line /\ CStr.sscanf_s15 (CStr.advance 4 line) <> None.

(** A command of the grammar: MOVE with an argument, ATTACK or QUIT, the
    keywords in any case. *)
Definition grammar_command (line : string) : Prop :=
  move_with_argument line \/ same_text line "ATTACK" \/ same_text line "QUIT".

(** The statement that every trimmed line outside the grammar is
    answered by the unknown-command text alone. *)
Definition unknown_reply_to_all_others : Prop :=
  forall g i sockfd line fails,
    trimmed line -> ~ grammar_command line ->
    handle_line g i sockfd line fails
      = (g, [EvSend sockfd (Text msg_unknown)], true).

(** *** A run of the server *)

Definition no_failure : nat -> bool := fun _ => false.

(** Start-up draws: three obstacles, on (0,0), (1,1) and (2,2). *)
Definition demo_draws : list Z := [0; 0; 0; 1; 1; 2; 2].

(** The globals after start-up on these draws. *)
Definition demo_game : Game :=
  mkGame (init_player <$> slots) 0
    [[1; 0; 0; 0; 0]; [0; 1; 0; 0; 0]; [0; 0; 1; 0; 0];
     [0; 0; 0; 0; 0]; [0; 0; 0; 0; 0]].

(** Two clients join, on (3,3) and (3,4), and the first attacks five
    times: the second slot is freed by the fifth hit while its thread
    still waits for input. *)
Definition duel : list action :=
  [Accept 4 [3; 3] no_failure; Spawned; Start 0;
   Accept 5 [3; 4] no_failure; Spawned; Start 1;
   Recv 0 "ATTACK" no_failure; Recv 0 "ATTACK" no_failure;
   Recv 0 "ATTACK" no_failure; Recv 0 "ATTACK" no_failure;
   Recv 0 "ATTACK" no_failure].

(** The thread of the freed slot then gets the lock for a QUIT it had
    received. *)
Definition late_quit : list action := duel ++ [Recv 1 "QUIT" no_failure].

(** Four clients join, the second is killed and its thread runs a late
    QUIT, then a fifth client takes the freed slot. *)
Definition full_house : list action :=
  [Accept 4 [3; 3] no_failure; Spawned; Start 0;
   Accept 5 [3; 4] no_failure; Spawned; Start 1;
   Accept 6 [0; 4] no_failure; Spawned; Start 2;
   Accept 7 [4; 0] no_failure; Spawned; Start 3;
   Recv 0 "ATTACK" no_failure; Recv 0 "ATTACK" no_failure;
   Recv 0 "ATTACK" no_failure; Recv 0 "ATTACK" no_failure;
   Recv 0 "ATTACK" no_failure;
   Recv 1 "QUIT" no_failure;
   Accept 8 [4; 4] no_failure; Spawned; Start 4].

(** *** The join as the claim states it, for a reading [count] of
    [countOccupied()] *)
Definition join_as_stated (count : Game -> Z) : Prop :=
  forall g client_fd draws fails,
    well_formed g -> 0 <= client_fd -> Forall rand_ok draws ->
    (count g = Z.of_nat MAX_PLAYERS ->
     accept_client g client_fd draws fails
       = Some (g, [EvSend client_fd (Text msg_server_full); EvClose client_fd],
               None)) /\
    (count g < Z.of_nat MAX_PLAYERS ->
     forall result, accept_client g client_fd draws fails = Some result ->
     exists idx r c,
       find_free_slot g = Some idx /\ in_bounds r c /\
       admissible g idx r c = true /\
       result = (broadcast_state_locked fails (joined g idx client_fd r c),
                 Some idx)).

(** *** Rejection sampling *)

(** The 25 cells of the grid. *)
Definition cells : list (Z * Z) :=
  list_prod (seqZ 0 GRID_SIZE) (seqZ 0 GRID_SIZE).

Definition is_obstacle_cell (obs : list (list Z)) (rc : Z * Z) : bool :=
  obstacle_at obs rc.1 rc.2 =? 1.

Definition obstacle_count (obs : list (list Z)) : nat :=
  length (List.filter (is_obstacle_cell obs) cells).

(** The cells on which the placement loop for slot [idx] would stop. *)
Definition admissible_cells (g : Game) (idx : nat) : list (Z * Z) :=
  List.filter (fun rc => admissible g idx rc.1 rc.2) cells.

(** The occupied slots other than [idx]. *)
Definition others (g : Game) (idx : nat) : list nat :=
  List.filter (fun q => active (slot g q) && negb (q =? idx)%nat) slots.

(** A grid of [GRID_SIZE] rows of [GRID_SIZE] entries. *)
Definition grid_ok (obs : list (list Z)) : Prop :=
  length obs = Z.to_nat GRID_SIZE /\
  Forall (fun line => length line = Z.to_nat GRID_SIZE) obs.

(** How many of the draws, read two at a time, hit a cell that is not
    yet an obstacle, each such hit turning the cell into one (the count
    the placement loop keeps in [k]). *)
Fixpoint fresh_cells (obs : list (list Z)) (draws : list Z) : nat :=
  match draws with
  | d1 :: d2 :: rest =>
    let r := Z.rem d1 GRID_SIZE in
    let c := Z.rem d2 GRID_SIZE in
    if obstacle_at obs r c =? 1 then fresh_cells obs rest
    else S (fresh_cells (set_obstacle obs r c) rest)
  | _ => 0%nat
  end.

(** The cells the draws name, read two at a time. *)
Fixpoint named_cells (draws : list Z) : list (Z * Z) :=
  match draws with
  | d1 :: d2 :: rest =>
    (Z.rem d1 GRID_SIZE, Z.rem d2 GRID_SIZE) :: named_cells rest
  | _ => []
  end.

(** How many distinct cells the draws name. *)
Definition distinct_cells (draws : list Z) : nat :=
  size (list_to_set (named_cells draws) : gset (Z * Z)).

(** The obstacle cells of a grid, as a set. *)
Definition obstacle_set (obs : list (list Z)) : gset (Z * Z) :=
  list_to_set (List.filter (is_obstacle_cell obs) cells).

(** The first [n] values of a source of random numbers. *)
Definition first_draws (rand : nat -> Z) (n : nat) : list Z :=
  rand <$> seq 0 n.

(** The two loops return on every sequence of values whatever, one
    that repeats a single value for ever included. *)
Definition init_always_terminates : Prop :=
  forall rand : nat -> Z, (forall n, rand_ok (rand n)) ->
    exists n, is_Some (main_init (first_draws rand n)).

Definition spawn_always_terminates : Prop :=
  forall (rand : nat -> Z) (g : Game) (idx : nat),
    (forall n, rand_ok (rand n)) ->
    well_formed g -> (idx < MAX_PLAYERS)%nat ->
    (obstacle_count (obstacles g) <= 5)%nat ->
    (length (others g idx) <= 3)%nat ->
    exists n, is_Some (spawn_position idx g (first_draws rand n)).

(** The world after the run [duel], and the globals after its two
    joins: slot 0 on (3,3), slot 1 on (3,4), both at full health. *)
Definition duel_world : World :=
  Eval vm_compute in
    default (mkWorld demo_game [] None) (boot demo_draws duel).

Definition arena : Game :=
  Eval vm_compute in
    default demo_game (game <$> boot demo_draws (take 6 duel)).

(** *** Where the counter goes wrong *)

(** The steps that decrement the counter for a slot that is already
    free: a QUIT handled by a thread whose slot was freed meanwhile, and
    the clean-up after a failed [pthread_create] for a slot that was
    freed meanwhile. *)
Definition late_leave (w : World) (a : action) : Prop :=
  match a with
  | Recv k received _ =>
    exists t, threads w !! k = Some t /\ at_pc t = AtRecv /\
              parse_command (CStr.trim_line received) = Quit /\
              active (slot (game w) (player_index t)) = false
  | SpawnFailed =>
    exists idx, spawning w = Some idx /\ active (slot (game w) idx) = false
  | _ => False
  end.

(** *** Ranges *)

(** Every slot, occupied or not, holds a health between 0 and [MAX_HP]
    and a cell of the grid; the grid has between 3 and 5 obstacles. *)
Definition in_range (g : Game) : Prop :=
  (forall q, 0 <= hp (slot g q) <= MAX_HP /\
             in_bounds (row (slot g q)) (col (slot g q))) /\
  grid_ok (obstacles g) /\
  (3 <= obstacle_count (obstacles g) <= 5)%nat.

(** The worlds reached without a late leave. *)
Inductive reachable_tidy : World -> Prop :=
  | tidy_init draws g :
      forallb rand_okb draws = true ->
      main_init draws = Some g ->
      reachable_tidy (mkWorld g [] None)
  | tidy_step w a w' out :
      reachable_tidy w -> ~ late_leave w a ->
      exec w a = Some (w', out) -> reachable_tidy w'.

(** Four clients have joined, on (3,3), (3,4), (0,4) and (4,0). *)
Definition crowd : Game :=
  Eval vm_compute in
    default demo_game
      (game <$> boot demo_draws
         [Accept 4 [3; 3] no_failure; Spawned; Start 0;
          Accept 5 [3; 4] no_failure; Spawned; Start 1;
          Accept 6 [0; 4] no_failure; Spawned; Start 2;
          Accept 7 [4; 0] no_failure; Spawned; Start 3]).

(** ** Further properties: definitions *)

(** Every character of the text passes the test [p]. *)
Fixpoint all_chars (p : ascii -> bool) (s : string) : bool :=
  match s with
  | String c t => p c && all_chars p t
  | EmptyString => true
  end.

Definition not_space (c : ascii) : bool := negb (CStr.isspace c).

Definition upper (s : string) : string := CStr.map_str CStr.toupper s.

(** *** What a step does to a slot

    The ways in which the code writes to a slot: a MOVE puts it on a
    cell of the grid (lines 195-196); a removal clears the flag and
    forgets the descriptor (92-94, 124-126, 241-243, 396-398); the final
    clean-up clears the flag alone (260); a hit lowers the health of an
    occupied slot and removes it at zero (215-221); a join fills a free
    slot (376-382). *)
Inductive slot_change : Player -> Player -> Prop :=
  | change_moved p r c : in_bounds r c -> slot_change p (with_pos r c p)
  | change_removed p : slot_change p (freed p)
  | change_cleared p : slot_change p (with_active false p)
  | change_hit p : active p = true -> slot_change p (struck p)
  | change_taken p fd r c :
      active p = false -> 0 <= fd -> in_bounds r c ->
      slot_change p (with_pos r c (occupied_by fd p)).

(** [g'] has the grid of [g], and each of its slots comes from the slot
    of [g] by such changes. *)
Definition evolves (g g' : Game) : Prop :=
  obstacles g' = obstacles g /\
  length (players g') = length (players g) /\
  forall q, rtc slot_change (slot g q) (slot g' q).

(** How far the counter lies below the number of occupied flags. *)
Definition count_lag (g : Game) : Z := occupied_count g - player_count g.

(** The thread of slot 1, freed in [duel_world], handles a QUIT: the
    world and the system calls of that step. *)
Definition after_late_quit : World :=
  Eval vm_compute in
    default duel_world (fst <$> exec duel_world (Recv 1 "QUIT" no_failure)).

Definition late_quit_calls : list event :=
  Eval vm_compute in
    default [] (snd <$> exec duel_world (Recv 1 "QUIT" no_failure)).

(** The direction that undoes a move. *)
Definition opposite (d : direction) : direction :=
  match d with
  | UP => DOWN | DOWN => UP | LEFT => RIGHT | RIGHT => LEFT
  end.

(** The values of a 32-bit [int]. *)
Definition int_range (z : Z) : Prop := - 2 ^ 31 <= z < 2 ^ 31.

Definition ints_in_range (p : Player) : Prop :=
  int_range (hp p) /\ int_range (row p) /\ int_range (col p).

(** A schedule run from a world, with the system calls made on the
    way. *)
Fixpoint run_calls (w : World) (schedule : list action)
    : option (World * list event) :=
  match schedule with
  | [] => Some (w, [])
  | a :: rest =>
    match exec w a with
    | Some (w1, out1) =>
      match run_calls w1 rest with
      | Some (w2, out2) => Some (w2, out1 ++ out2)
      | None => None
      end
    | None => None
    end
  end.

(** A first client, with descriptor 4, joins [demo_game] on (3,3): the
    world and the system calls of that step. *)
Definition first_join : World :=
  Eval vm_compute in
    default (mkWorld demo_game [] None)
      (fst <$> exec (mkWorld demo_game [] None) (Accept 4 [3; 3] no_failure)).

Definition first_join_calls : list event :=
  Eval vm_compute in
    default []
      (snd <$> exec (mkWorld demo_game [] None) (Accept 4 [3; 3] no_failure)).

(** The first cell named by the draws on which the placement loop for
    slot [idx] stops. *)
Definition first_admissible (g : Game) (idx : nat) (draws : list Z)
    : option (Z * Z) :=
  find (fun rc => admissible g idx rc.1 rc.2) (named_cells draws).

(** The world once [main] has created the handler thread of that first
    client, before the thread has run. *)
Definition first_spawned : World :=
  Eval vm_compute in default first_join (fst <$> exec first_join Spawned).

(** ** The port argument of [main] (lines 272-280 and 327) *)

Definition is_digit (c : ascii) : bool :=
  (48 <=? CStr.code c) && (CStr.code c <=? 57).

(** The decimal digits at the head of a text, read after [acc]. *)
Fixpoint digits_value (acc : Z) (s : string) : Z :=
  match s with
  | String c t =>
    if is_digit c then digits_value (10 * acc + (CStr.code c - 48)) t else acc
  | EmptyString => acc
  end.

(** [atoi]: white space is skipped, then an optional sign and the
    decimal digits that follow are read; 0 when there is none.  The
    value is an unbounded [Z] here: beyond the range of [int] the C
    function is undefined. *)
Definition atoi (s : string) : Z :=
  match CStr.skip_space s with
  | String c t =>
    if CStr.code c =? 45 then - digits_value 0 t
    else if CStr.code c =? 43 then digits_value 0 t
    else digits_value 0 (String c t)
  | EmptyString => 0
  end.

(** How [main] gets to its accept loop: it leaves with the usage text
    unless [argc] is 2, with [Invalid port number.] unless
    [atoi(argv[1])] is positive, and else asks [bind] for the port
    number [htons] is given, [port] converted to 16 bits ([socket],
    [bind] and [listen] may still fail, lines 315-339). *)
Inductive startup :=
  | UsageError
  | InvalidPort
  | Listening (port : Z).

Definition main_arguments (argv : list string) : startup :=
  match argv with
  | [_; arg] =>
    let port := atoi arg in
    if port <=? 0 then InvalidPort else Listening (port mod 65536)
  | _ => UsageError
  end.

(** *** A MOVE whose target was read before the lock

    Clients A and B hold slots 0 and 1, on (3,3) and (3,4).  B's thread
    reads MOVE UP and computes the target (2,4) from its slot (lines
    152-161).  Before it gets the lock, A's MOVE LEFT is committed and
    the [send] of the state to B fails, which frees slot 1; then a new
    client is accepted into slot 1 and placed on (0,4), and [main]
    creates its thread. *)
Definition stale_move : list action :=
  [Accept 4 [3; 3] no_failure; Spawned; Start 0;
   Accept 5 [3; 4] no_failure; Spawned; Start 1;
   Recv 1 "MOVE UP" no_failure;
   Recv 0 "MOVE LEFT" no_failure;
   MoveLocked 0 (fun p => Nat.eqb p 1);
   Accept 6 [0; 4] no_failure; Spawned].

Definition stale_world : World :=
  Eval vm_compute in
    default (mkWorld demo_game [] None) (boot demo_draws stale_move).

(** B's thread then gets the lock: the world and the system calls of
    that step. *)
Definition after_stale_move : World :=
  Eval vm_compute in
    default stale_world (fst <$> exec stale_world (MoveLocked 1 no_failure)).

Definition stale_move_calls : list event :=
  Eval vm_compute in
    default [] (snd <$> exec stale_world (MoveLocked 1 no_failure)).

(** *** Streams of draws

    The cell named by the [k]-th pair of values that [rand] returns
    from its call number [a] on. *)
Definition pair_cell (rand : nat -> Z) (a k : nat) : Z * Z :=
  (Z.rem (rand (a + 2 * k)%nat) GRID_SIZE,
   Z.rem (rand (a + 2 * k + 1)%nat) GRID_SIZE).

(** From call number [a] on, every cell of the grid is named by some
    pair of draws. *)
Definition names_every_cell (rand : nat -> Z) (a : nat) : Prop :=
  forall r c, in_bounds r c -> exists k, pair_cell rand a k = (r, c).

(** A stream that goes through the grid row by row, again and again. *)
Definition sweep (n : nat) : Z :=
  Z.of_nat (if Nat.even n then (n / 2 / 5) mod 5 else (n / 2) mod 5).

(** ** Basic facts on slots *)

Lemma slot_lookup (g : Game) (i : nat) :
  (i < length (players g))%nat -> players g !! i = Some (slot g i).
Proof.
  intros Hi. unfold slot.
  destruct (lookup_lt_is_Some_2 (players g) i Hi) as [p Hp].
  by rewrite Hp.
Qed.

Lemma slot_upd_slot (g : Game) (i q : nat) (f : Player -> Player) :
  slot (upd_slot i f g) q =
  if decide (q = i /\ (i < length (players g))%nat) then f (slot g i)
  else slot g q.
Proof.
  unfold slot at 1. simpl. case_decide as H.
  - destruct H as [-> Hi]. by rewrite list_lookup_insert_eq.
  - destruct (decide (q = i)) as [->|Hne].
    + rewrite list_insert_ge by lia. reflexivity.
    + rewrite list_lookup_insert_ne by done. reflexivity.
Qed.

Lemma slot_upd_slot_eq (g : Game) (i : nat) (f : Player -> Player) :
  (i < length (players g))%nat -> slot (upd_slot i f g) i = f (slot g i).
Proof. intros Hi. rewrite slot_upd_slot. case_decide; [done | tauto]. Qed.

Lemma slot_upd_slot_ne (g : Game) (i q : nat) (f : Player -> Player) :
  q <> i -> slot (upd_slot i f g) q = slot g q.
Proof. intros Hne. rewrite slot_upd_slot. case_decide; [tauto | done]. Qed.

Lemma length_upd_slot (g : Game) (i : nat) (f : Player -> Player) :
  length (players (upd_slot i f g)) = length (players g).
Proof. apply length_insert. Qed.

Lemma slot_add_count (g : Game) (d : Z) (q : nat) :
  slot (add_count d g) q = slot g q.
Proof. reflexivity. Qed.

Lemma slot_out_of_range (g : Game) (q : nat) :
  (length (players g) <= q)%nat -> active (slot g q) = false.
Proof.
  intros Hq. unfold slot. by rewrite lookup_ge_None_2.
Qed.

(** Two states with the same slots, counter and grid are equal. *)
Lemma game_ext (g g' : Game) :
  length (players g) = length (players g') ->
  (forall q, (q < length (players g))%nat -> slot g q = slot g' q) ->
  player_count g = player_count g' ->
  obstacles g = obstacles g' ->
  g = g'.
Proof.
  destruct g as [ps n obs], g' as [ps' n' obs']. simpl.
  intros Hlen Hslot -> ->. f_equal.
  apply list_eq. intros q.
  destruct (decide (q < length ps)%nat) as [Hq|Hq].
  - specialize (Hslot q Hq).
    pose proof (slot_lookup (mkGame ps n' obs') q Hq) as H1.
    pose proof (slot_lookup (mkGame ps' n' obs') q) as H2.
    simpl in H1, H2. rewrite H1, H2 by lia.
    f_equal. exact Hslot.
  - rewrite !lookup_ge_None_2; [done | lia | lia].
Qed.

(** ** [fades]: what removals do to the roster *)

Lemma fades_refl (g : Game) : fades g g.
Proof. by repeat split. Qed.

Lemma fades_trans (g1 g2 g3 : Game) : fades g1 g2 -> fades g2 g3 -> fades g1 g3.
Proof.
  intros (Ho1 & Hl1 & H1) (Ho2 & Hl2 & H2). repeat split; try congruence.
  - destruct (H2 q H) as (Ha & _). by destruct (H1 q Ha).
  - destruct (H2 q H) as (Ha & Hr & _). destruct (H1 q Ha) as (_ & Hr' & _).
    congruence.
  - destruct (H2 q H) as (Ha & _ & Hc). destruct (H1 q Ha) as (_ & _ & Hc').
    congruence.
Qed.

Lemma fades_positions_ok (g g' : Game) :
  positions_ok g -> fades g g' -> positions_ok g'.
Proof.
  intros [Hcell Hdist] (Hobs & _ & Hf). split.
  - intros i Hi. destruct (Hf i Hi) as (Ha & Hr & Hc).
    rewrite Hobs, Hr, Hc. by apply Hcell.
  - intros i j Hi Hj Hr Hc.
    destruct (Hf i Hi) as (Hai & Hri & Hci).
    destruct (Hf j Hj) as (Haj & Hrj & Hcj).
    apply Hdist; congruence.
Qed.

(** An update that never sets [active] and, where the slot stays
    active, keeps its cell. *)
Lemma fades_upd_slot (g : Game) (i : nat) (f : Player -> Player) :
  (forall p, active (f p) = true ->
     active p = true /\ row (f p) = row p /\ col (f p) = col p) ->
  fades g (upd_slot i f g).
Proof.
  intros Hf. split; [done|]. split; [apply length_upd_slot|].
  intros q. rewrite slot_upd_slot. case_decide as H; [|done].
  destruct H as [-> _]. apply Hf.
Qed.

Lemma fades_add_count (g : Game) (d : Z) : fades g (add_count d g).
Proof. by repeat split. Qed.

Lemma fades_remove_player (g : Game) (p : nat) : fades g (remove_player p g).
Proof.
  unfold remove_player.
  eapply fades_trans; [|apply fades_add_count].
  eapply fades_trans; apply fades_upd_slot; by intros [].
Qed.

(** ** Loops whose turn [q] reads and writes slot [q] only

    Both loops of the server that change the roster (the delivery loop
    and the target scan) have this shape: turn [q] replaces slot [q] by a
    function of its old content, possibly decrements the counter, and
    issues system calls that depend on that old content only. *)

Lemma existsb_ext_in {A : Type} (f g : A -> bool) (l : list A) :
  (forall x, In x l -> f x = g x) -> existsb f l = existsb g l.
Proof.
  induction l as [|x l IH]; simpl; intros H; [done|].
  rewrite (H x) by auto. rewrite IH; [done|]. intros y Hy. apply H. auto.
Qed.

Section Slotwise.
Variable body : nat -> Game -> Game * list event.
Variable f : nat -> Player -> Player.
Variable drops : nat -> Player -> bool.
Variable ev : nat -> Player -> list event.

Hypothesis body_spec : forall q g,
  (q < length (players g))%nat ->
  body q g =
    (add_count (if drops q (slot g q) then -1 else 0) (upd_slot q (f q) g),
     ev q (slot g q)).

Lemma body_slot q g q' :
  (q < length (players g))%nat -> q' <> q ->
  slot (body q g).1 q' = slot g q'.
Proof.
  intros Hq Hne. rewrite body_spec by done. simpl.
  rewrite slot_add_count. by apply slot_upd_slot_ne.
Qed.

Lemma body_length q g :
  (q < length (players g))%nat ->
  length (players (body q g).1) = length (players g).
Proof. intros Hq. rewrite body_spec by done. apply length_insert. Qed.

Lemma for_each_slotwise qs g :
  NoDup qs ->
  (forall q, q ∈ qs -> (q < length (players g))%nat) ->
  length (players (for_each body qs g).1) = length (players g) /\
  obstacles (for_each body qs g).1 = obstacles g /\
  (forall q, slot (for_each body qs g).1 q =
             if decide (q ∈ qs) then f q (slot g q) else slot g q) /\
  player_count (for_each body qs g).1 =
    player_count g
    - Z.of_nat (length (List.filter (fun q => drops q (slot g q)) qs)) /\
  (for_each body qs g).2 = concat (List.map (fun q => ev q (slot g q)) qs).
Proof.
  intros Hnd. revert g.
  induction Hnd as [|q qs Hq Hnd IH]; intros g Hlt.
  - simpl. repeat split; try done. lia.
  - assert (Hqlt : (q < length (players g))%nat) by (apply Hlt; left).
    assert (Hsame : forall q', q' ∈ qs -> slot (body q g).1 q' = slot g q').
    { intros q' Hq'. apply body_slot; [done|]. by intros ->. }
    destruct (IH (body q g).1) as (Hlen & Hobs & Hslot & Hcnt & Hev).
    { intros q' Hq'. rewrite body_length by done. apply Hlt. by right. }
    simpl. destruct (body q g) as [g1 o1] eqn:Hb. simpl in *.
    destruct (for_each body qs g1) as [g2 o2] eqn:Hloop. simpl in *.
    pose proof (body_spec q g Hqlt) as Hspec. rewrite Hb in Hspec.
    injection Hspec as Hg1 Ho1.
    split; [|split; [|split; [|split]]].
    + rewrite Hlen, Hg1. apply length_insert.
    + rewrite Hobs, Hg1. reflexivity.
    + intros q'. rewrite Hslot.
      destruct (decide (q' = q)) as [->|Hne].
      * rewrite decide_False by done.
        rewrite decide_True by left.
        rewrite Hg1, slot_add_count. by apply slot_upd_slot_eq.
      * destruct (decide (q' ∈ qs)) as [Hin|Hin].
        -- rewrite decide_True by (by right). by rewrite Hsame.
        -- rewrite decide_False by (by intros [?|?]%elem_of_cons).
           rewrite Hg1, slot_add_count. by apply slot_upd_slot_ne.
    + rewrite Hcnt.
      rewrite (List.filter_ext_in (fun q0 => drops q0 (slot g1 q0))
                 (fun q0 => drops q0 (slot g q0))).
      2:{ intros q' Hq'%list_elem_of_In. by rewrite Hsame. }
      rewrite Hg1. simpl. destruct (drops q (slot g q)); simpl length; lia.
    + rewrite Hev, Ho1. f_equal. f_equal.
      apply List.map_ext_in. intros q' Hq'%list_elem_of_In. by rewrite Hsame.
Qed.

(** The same loop carrying a flag that a turn may raise. *)
Variable flag : nat -> Player -> bool.
Variable body2 : nat -> Game * bool -> (Game * bool) * list event.

Hypothesis body2_spec : forall q g h,
  body2 q (g, h) = (((body q g).1, h || flag q (slot g q)), (body q g).2).

Lemma for_each_flag qs g h :
  NoDup qs ->
  (forall q, q ∈ qs -> (q < length (players g))%nat) ->
  for_each body2 qs (g, h) =
    (((for_each body qs g).1,
      h || existsb (fun q => flag q (slot g q)) qs),
     (for_each body qs g).2).
Proof.
  intros Hnd. revert g h.
  induction Hnd as [|q qs Hq Hnd IH]; intros g h Hlt.
  - simpl. by rewrite orb_false_r.
  - assert (Hqlt : (q < length (players g))%nat) by (apply Hlt; left).
    simpl. rewrite body2_spec. destruct (body q g) as [g1 o1] eqn:Hb. simpl.
    rewrite IH.
    2:{ intros q' Hq'. replace g1 with (body q g).1 by (by rewrite Hb).
        rewrite body_length by done. apply Hlt. by right. }
    destruct (for_each body qs g1) as [g2 o2]. simpl.
    rewrite (existsb_ext_in (fun q0 => flag q0 (slot g1 q0))
               (fun q0 => flag q0 (slot g q0))).
    2:{ intros q' Hq'%list_elem_of_In.
        replace g1 with (body q g).1 by (by rewrite Hb).
        rewrite body_slot; [done|done|]. by intros ->. }
    by rewrite orb_assoc.
Qed.
End Slotwise.

Lemma upd_slot_ext (g : Game) (i : nat) (f h : Player -> Player) :
  f (slot g i) = h (slot g i) -> upd_slot i f g = upd_slot i h g.
Proof. intros H. unfold upd_slot. by rewrite H. Qed.

Lemma upd_slot_same (g : Game) (i : nat) (f : Player -> Player) :
  (i < length (players g))%nat -> f (slot g i) = slot g i -> upd_slot i f g = g.
Proof.
  intros Hi Hf. unfold upd_slot. rewrite Hf.
  rewrite list_insert_id by (by apply slot_lookup). by destruct g.
Qed.

Lemma upd_slot_twice (g : Game) (i : nat) (f h : Player -> Player) :
  (i < length (players g))%nat ->
  upd_slot i f (upd_slot i h g) = upd_slot i (fun p => f (h p)) g.
Proof.
  intros Hi. unfold upd_slot at 1. rewrite slot_upd_slot_eq by done.
  unfold upd_slot. simpl. by rewrite list_insert_insert_eq.
Qed.

Lemma add_count_zero (g : Game) : add_count 0 g = g.
Proof. destruct g. unfold add_count. simpl. by rewrite Z.add_0_r. Qed.

Lemma remove_player_spec (g : Game) (p : nat) :
  (p < length (players g))%nat ->
  remove_player p g = add_count (-1) (upd_slot p freed g).
Proof.
  intros Hp. unfold remove_player. by rewrite upd_slot_twice.
Qed.

Lemma for_each_fst {S : Type} (body : nat -> S -> S * list event) qs s :
  (for_each body qs s).1 = foldl (fun s q => (body q s).1) s qs.
Proof.
  revert s. induction qs as [|q qs IH]; intros s; [done|].
  simpl. destruct (body q s) as [s1 o1] eqn:Hb. simpl.
  rewrite <- IH. by destruct (for_each body qs s1).
Qed.

Lemma NoDup_slots : NoDup slots.
Proof. apply NoDup_seq. Qed.

Lemma elem_of_slots (q : nat) : q ∈ slots <-> (q < MAX_PLAYERS)%nat.
Proof. unfold slots. rewrite elem_of_seq. lia. Qed.

(** *** The delivery loop *)

Lemma deliver_spec fails m q g :
  (q < length (players g))%nat ->
  deliver fails m q g =
    (add_count (if send_fails fails q (slot g q) then -1 else 0)
       (upd_slot q (fun pl => if send_fails fails q pl then freed pl else pl) g),
     delivery fails m q (slot g q)).
Proof.
  intros Hq. unfold deliver, send_fails, delivery.
  destruct (active (slot g q)) eqn:Ha; simpl.
  2:{ rewrite add_count_zero, upd_slot_same; [done|done|]. by rewrite Ha. }
  destruct (Z.ltb_spec (socket_fd (slot g q)) 0) as [Hfd|Hfd].
  - rewrite (proj2 (Z.leb_gt _ _)) by done. simpl.
    rewrite add_count_zero, upd_slot_same; [done|done|].
    rewrite Ha. simpl. by rewrite (proj2 (Z.leb_gt _ _)).
  - rewrite (proj2 (Z.leb_le _ _)) by done. simpl.
    destruct (fails q) eqn:Hf.
    + rewrite remove_player_spec by done. f_equal. f_equal.
      apply upd_slot_ext. rewrite Ha.
      by rewrite (proj2 (Z.leb_le _ _)).
    + rewrite add_count_zero, upd_slot_same; [done|done|].
      rewrite Ha. simpl. by rewrite andb_false_r.
Qed.

Lemma broadcast_spec fails g :
  well_formed g ->
  let g' := (broadcast_state_locked fails g).1 in
  length (players g') = length (players g) /\
  obstacles g' = obstacles g /\
  (forall p, slot g' p =
     if send_fails fails p (slot g p) then freed (slot g p) else slot g p) /\
  player_count g' =
    player_count g
    - Z.of_nat (length (List.filter (fun p => send_fails fails p (slot g p)) slots)) /\
  (broadcast_state_locked fails g).2 =
    EvBroadcast (players g) ::
    concat (List.map
              (fun p => delivery fails (StateMsg (players g) (obstacles g)) p (slot g p))
              slots).
Proof.
  intros Hwf. unfold broadcast_state_locked.
  destruct (for_each_slotwise
              (deliver fails (StateMsg (players g) (obstacles g)))
              (fun q pl => if send_fails fails q pl then freed pl else pl)
              (send_fails fails)
              (delivery fails (StateMsg (players g) (obstacles g)))
              (deliver_spec fails _) slots g NoDup_slots)
    as (Hlen & Hobs & Hslot & Hcnt & Hev).
  { intros q Hq%elem_of_slots. by rewrite Hwf. }
  destruct (for_each _ slots g) as [g1 o1]. simpl in *.
  repeat split; try done.
  - intros p. rewrite Hslot. case_decide as Hin; [done|].
    assert (active (slot g p) = false) as Ha.
    { apply slot_out_of_range. rewrite Hwf.
      rewrite elem_of_slots in Hin. lia. }
    unfold send_fails. by rewrite Ha.
  - by rewrite Hev.
Qed.

Lemma broadcast_fades fails g :
  well_formed g -> fades g (broadcast_state_locked fails g).1.
Proof.
  intros Hwf. destruct (broadcast_spec fails g Hwf) as (Hlen & Hobs & Hslot & _).
  repeat split; try done; revert H; rewrite Hslot;
    destruct (send_fails fails q (slot g q)); simpl; done.
Qed.

Lemma broadcast_well_formed fails g :
  well_formed g -> well_formed (broadcast_state_locked fails g).1.
Proof.
  intros Hwf. destruct (broadcast_spec fails g Hwf) as (Hlen & _).
  unfold well_formed in *. congruence.
Qed.

(** *** MOVE *)

Lemma occupied_by_other_spec g i r c :
  well_formed g ->
  occupied_by_other g i r c = true <-> cell_taken g i r c.
Proof.
  intros Hwf. unfold occupied_by_other, cell_taken.
  rewrite existsb_exists. split.
  - intros (q & _ & Hq).
    apply andb_prop in Hq as [Hq Hc]. apply andb_prop in Hq as [Hq Hr].
    apply andb_prop in Hq as [Ha Hne].
    exists q. repeat split; try done.
    + intros ->. by rewrite Nat.eqb_refl in Hne.
    + by apply Z.eqb_eq.
    + by apply Z.eqb_eq.
  - intros (q & Hne & Ha & Hr & Hc). exists q. split.
    + apply list_elem_of_In, elem_of_slots.
      destruct (decide (q < MAX_PLAYERS)%nat) as [|Hge]; [done|].
      rewrite slot_out_of_range in Ha; [done|]. rewrite Hwf. lia.
    + rewrite Ha, (proj2 (Z.eqb_eq _ _) Hr), (proj2 (Z.eqb_eq _ _) Hc).
      by rewrite (proj2 (Nat.eqb_neq _ _) Hne).
Qed.

Lemma occupied_by_other_false g i r c :
  well_formed g ->
  occupied_by_other g i r c = false <-> ~ cell_taken g i r c.
Proof.
  intros Hwf. rewrite <- occupied_by_other_spec by done.
  by destruct (occupied_by_other g i r c).
Qed.

Lemma out_of_bounds_test (r c : Z) :
  (r <? 0) || (r >=? GRID_SIZE) || (c <? 0) || (c >=? GRID_SIZE) = false
  <-> in_bounds r c.
Proof.
  unfold in_bounds, GRID_SIZE. rewrite !orb_false_iff.
  rewrite !Z.ltb_ge, !Z.geb_leb, !Z.leb_gt. lia.
Qed.

Lemma placed_spec g i r c :
  upd_slot i (with_col c) (upd_slot i (with_row r) g) = placed g i r c.
Proof.
  unfold placed. destruct (decide (i < length (players g))%nat) as [Hi|Hi].
  - by rewrite upd_slot_twice.
  - unfold upd_slot. simpl.
    by rewrite !list_insert_ge by (rewrite ?length_insert; lia).
Qed.

Lemma well_formed_upd_slot g i f : well_formed g -> well_formed (upd_slot i f g).
Proof. unfold well_formed. by rewrite length_upd_slot. Qed.

Lemma well_formed_placed g i r c : well_formed g -> well_formed (placed g i r c).
Proof. apply well_formed_upd_slot. Qed.

(** Rewriting a slot so that it stands on a free cell of the grid keeps
    the positions sound, whether the slot ends up occupied or not. *)
Lemma upd_slot_positions_ok g i f :
  positions_ok g ->
  in_bounds (row (f (slot g i))) (col (f (slot g i))) ->
  obstacle_at (obstacles g) (row (f (slot g i))) (col (f (slot g i))) <> 1 ->
  ~ cell_taken g i (row (f (slot g i))) (col (f (slot g i))) ->
  positions_ok (upd_slot i f g).
Proof.
  intros [Hcell Hdist] Hb Hobs Hfree. split.
  - intros q. rewrite slot_upd_slot. case_decide as H; [|apply Hcell].
    by destruct H as [-> _].
  - intros q1 q2. rewrite !slot_upd_slot.
    case_decide as H1; case_decide as H2; simpl.
    + destruct H1, H2. congruence.
    + destruct H1 as [-> _]. intros _ Ha Hr Hc.
      destruct (decide (i = q2)) as [|Hne]; [done|].
      exfalso. apply Hfree. by exists q2.
    + destruct H2 as [-> _]. intros Ha _ Hr Hc.
      destruct (decide (q1 = i)) as [|Hne]; [done|].
      exfalso. apply Hfree. by exists q1.
    + apply Hdist.
Qed.

Lemma placed_positions_ok g i r c :
  positions_ok g -> in_bounds r c ->
  obstacle_at (obstacles g) r c <> 1 -> ~ cell_taken g i r c ->
  positions_ok (placed g i r c).
Proof. intros. by apply upd_slot_positions_ok. Qed.

Lemma move_locked_cases g i sockfd newR newC fails :
  well_formed g ->
  (~ in_bounds newR newC /\
   move_locked g i sockfd newR newC fails
     = (g, [EvSend sockfd (Text msg_out_of_bounds)])) \/
  (in_bounds newR newC /\ obstacle_at (obstacles g) newR newC = 1 /\
   move_locked g i sockfd newR newC fails
     = (g, [EvSend sockfd (Text msg_obstacle)])) \/
  (in_bounds newR newC /\ obstacle_at (obstacles g) newR newC <> 1 /\
   cell_taken g i newR newC /\
   move_locked g i sockfd newR newC fails
     = (g, [EvSend sockfd (Text msg_occupied)])) \/
  (in_bounds newR newC /\ obstacle_at (obstacles g) newR newC <> 1 /\
   ~ cell_taken g i newR newC /\
   move_locked g i sockfd newR newC fails
     = broadcast_state_locked fails (placed g i newR newC)).
Proof.
  intros Hwf. unfold move_locked.
  destruct ((newR <? 0) || (newR >=? GRID_SIZE) || (newC <? 0)
            || (newC >=? GRID_SIZE)) eqn:Hb.
  { left. split; [|done]. intros Hin%out_of_bounds_test. congruence. }
  apply out_of_bounds_test in Hb. right.
  destruct (Z.eqb_spec (obstacle_at (obstacles g) newR newC) 1) as [Ho|Ho].
  { by left. }
  right. destruct (occupied_by_other g i newR newC) eqn:Hocc.
  - left. by apply occupied_by_other_spec in Hocc.
  - right. apply occupied_by_other_false in Hocc; [|done].
    by rewrite placed_spec.
Qed.

Lemma move_locked_well_formed g i sockfd newR newC fails :
  well_formed g -> well_formed (move_locked g i sockfd newR newC fails).1.
Proof.
  intros Hwf.
  destruct (move_locked_cases g i sockfd newR newC fails Hwf)
    as [(_ & ->)|[(_ & _ & ->)|[(_ & _ & _ & ->)|(_ & _ & _ & ->)]]]; try done.
  by apply broadcast_well_formed, well_formed_placed.
Qed.

Lemma move_locked_positions_ok g i sockfd newR newC fails :
  well_formed g -> positions_ok g ->
  positions_ok (move_locked g i sockfd newR newC fails).1.
Proof.
  intros Hwf Hok.
  destruct (move_locked_cases g i sockfd newR newC fails Hwf)
    as [(_ & ->)|[(_ & _ & ->)|[(_ & _ & _ & ->)|(Hb & Ho & Hfree & ->)]]];
    try done.
  eapply fades_positions_ok.
  - by apply placed_positions_ok.
  - by apply broadcast_fades, well_formed_placed.
Qed.

(** *** ATTACK *)

Lemma adjacent_manhattan (dr dc : Z) :
  adjacent dr dc = (Z.abs dr + Z.abs dc =? 1).
Proof.
  unfold adjacent.
  destruct (Z.eqb_spec (Z.abs dr + Z.abs dc) 1) as [H|H].
  - apply orb_true_iff.
    destruct (Z.eqb_spec dc 0) as [Hc|Hc].
    + left. rewrite andb_true_r. apply Z.eqb_eq. lia.
    + right. apply andb_true_iff. split; apply Z.eqb_eq; lia.
  - apply orb_false_iff. split; apply andb_false_iff.
    + destruct (Z.eqb_spec dc 0); [left; apply Z.eqb_neq; lia | by right].
    + destruct (Z.eqb_spec dr 0); [left; apply Z.eqb_neq; lia | by right].
Qed.

Lemma targeted_is_target g i q :
  targeted i (row (slot g i)) (col (slot g i)) q (slot g q) = is_target g i q.
Proof. unfold targeted, is_target, manhattan. by rewrite adjacent_manhattan. Qed.

Lemma attack_target_flag i aR aC q g h :
  attack_target i aR aC q (g, h) =
    (((attack_one i aR aC q g).1, h || targeted i aR aC q (slot g q)),
     (attack_one i aR aC q g).2).
Proof.
  unfold attack_one, attack_target, targeted.
  destruct (active (slot g q) && negb (q =? i)%nat); simpl;
    [|by rewrite orb_false_r].
  destruct (adjacent _ _); simpl; [|by rewrite orb_false_r].
  rewrite orb_true_r.
  by destruct (hp (slot (upd_slot q _ g) q) <=? 0).
Qed.

Lemma attack_one_spec i aR aC q g :
  (q < length (players g))%nat ->
  attack_one i aR aC q g =
    (add_count
       (if targeted i aR aC q (slot g q) && dies (slot g q) then -1 else 0)
       (upd_slot q (fun pl => if targeted i aR aC q pl then struck pl else pl) g),
     if targeted i aR aC q (slot g q) && dies (slot g q)
     then [EvClose (socket_fd (slot g q))] else []).
Proof.
  intros Hq. unfold attack_one, attack_target, targeted.
  destruct (active (slot g q) && negb (q =? i)%nat) eqn:Ha; cbn [andb fst snd].
  2:{ rewrite add_count_zero, upd_slot_same; [done|done|]. by rewrite Ha. }
  destruct (adjacent _ _) eqn:Hadj; cbn [andb fst snd].
  2:{ rewrite add_count_zero, upd_slot_same; [done|done|].
      by rewrite Ha, Hadj. }
  rewrite slot_upd_slot_eq by done. unfold dies. cbn [hp with_hp].
  destruct (hp (slot g q) - DAMAGE <=? 0) eqn:Hd; cbn [andb fst snd].
  - rewrite remove_player_spec by (by rewrite !length_upd_slot).
    rewrite !upd_slot_twice by (by rewrite ?length_upd_slot).
    rewrite slot_upd_slot_eq by done. cbn [socket_fd with_hp].
    f_equal. f_equal. apply upd_slot_ext.
    rewrite Ha, Hadj. unfold struck, dies. by rewrite Hd.
  - rewrite add_count_zero. f_equal. apply upd_slot_ext.
    rewrite Ha, Hadj. unfold struck, dies. by rewrite Hd.
Qed.

Lemma filter_filter_and {A : Type} (f h : A -> bool) (l : list A) :
  List.filter f (List.filter h l) = List.filter (fun x => h x && f x) l.
Proof.
  induction l as [|x l IH]; [done|]. simpl.
  destruct (h x); simpl; [|done]. destruct (f x); by rewrite IH.
Qed.

Lemma concat_map_if {A B : Type} (b : A -> bool) (e : A -> B) (l : list A) :
  concat (List.map (fun x => if b x then [e x] else []) l)
  = List.map e (List.filter b l).
Proof.
  induction l as [|x l IH]; [done|]. simpl.
  destruct (b x); simpl; by rewrite IH.
Qed.

Lemma existsb_filter_nil {A : Type} (b : A -> bool) (l : list A) :
  existsb b l = false <-> List.filter b l = [].
Proof.
  induction l as [|x l IH]; [done|]. simpl.
  destruct (b x); simpl; [by split|done].
Qed.

(** The scan in any duplicate-free order [qs]: each slot of [qs] that is a
    target is struck once, the others are left alone. *)
Lemma attack_scan_spec g i qs :
  NoDup qs ->
  (forall q, q ∈ qs -> (q < length (players g))%nat) ->
  let targets := List.filter (is_target g i) qs in
  let g1 := (attack_scan g i qs).1.1 in
  length (players g1) = length (players g) /\
  obstacles g1 = obstacles g /\
  (forall q, slot g1 q =
     if decide (q ∈ qs) then
       (if is_target g i q then struck (slot g q) else slot g q)
     else slot g q) /\
  player_count g1 =
    player_count g
    - Z.of_nat (length (List.filter (fun q => dies (slot g q)) targets)) /\
  (attack_scan g i qs).1.2 = existsb (is_target g i) qs /\
  (attack_scan g i qs).2 =
    List.map (fun q => EvClose (socket_fd (slot g q)))
      (List.filter (fun q => dies (slot g q)) targets).
Proof.
  intros Hnd Hlt. simpl. unfold attack_scan.
  set (aR := row (slot g i)). set (aC := col (slot g i)).
  pose (f := fun q pl => if targeted i aR aC q pl then struck pl else pl).
  pose (drops := fun q pl => targeted i aR aC q pl && dies pl).
  pose (ev := fun q pl => if targeted i aR aC q pl && dies pl
                          then [EvClose (socket_fd pl)] else []).
  rewrite (for_each_flag (attack_one i aR aC) f drops ev
             (attack_one_spec i aR aC)
             (targeted i aR aC) (attack_target i aR aC)
             (attack_target_flag i aR aC) qs g false Hnd Hlt).
  destruct (for_each_slotwise (attack_one i aR aC) f drops ev
              (attack_one_spec i aR aC) qs g Hnd Hlt)
    as (Hlen & Hobs & Hslot & Hcnt & Hev).
  subst f drops ev.
  simpl. split; [done|]. split; [done|].
  assert (Ht : forall q, targeted i aR aC q (slot g q) = is_target g i q)
    by (intros q; apply targeted_is_target).
  split; [|split; [|split]].
  - intros q. rewrite Hslot. by rewrite Ht.
  - rewrite Hcnt, filter_filter_and. do 3 f_equal.
    apply List.filter_ext. intros q. by rewrite Ht.
  - apply existsb_ext_in. intros q _. apply Ht.
  - rewrite Hev, concat_map_if, filter_filter_and. f_equal.
    apply List.filter_ext. intros q. by rewrite Ht.
Qed.

Lemma attack_locked_scan g i sockfd fails :
  attack_locked g i sockfd fails =
    let '((g1, hit), closed) := attack_scan g i slots in
    if negb hit then (g1, closed ++ [EvSend sockfd (Text msg_no_targets)])
    else
      let '(g2, out) := broadcast_state_locked fails g1 in
      (g2, closed ++ out).
Proof. reflexivity. Qed.

Lemma slots_in_range g :
  well_formed g -> forall q, q ∈ slots -> (q < length (players g))%nat.
Proof. intros Hwf q Hq%elem_of_slots. by rewrite Hwf. Qed.

Lemma is_target_out_of_range g i q :
  well_formed g -> q ∉ slots -> is_target g i q = false.
Proof.
  intros Hwf Hq. unfold is_target. rewrite slot_out_of_range; [done|].
  rewrite Hwf. rewrite elem_of_slots in Hq. lia.
Qed.

Lemma struck_fades (p : Player) :
  active (struck p) = true ->
  active p = true /\ row (struck p) = row p /\ col (struck p) = col p.
Proof. unfold struck. by destruct (dies p), p. Qed.

Lemma attack_scan_fades g i :
  well_formed g -> fades g (attack_scan g i slots).1.1.
Proof.
  intros Hwf.
  destruct (attack_scan_spec g i slots NoDup_slots (slots_in_range g Hwf))
    as (Hlen & Hobs & Hslot & _).
  split; [done|]. split; [done|]. intros q. rewrite Hslot.
  case_decide; [|done]. destruct (is_target g i q); [|done].
  apply struck_fades.
Qed.

Lemma attack_locked_fades g i sockfd fails :
  well_formed g -> fades g (attack_locked g i sockfd fails).1.
Proof.
  intros Hwf. rewrite attack_locked_scan.
  pose proof (attack_scan_fades g i Hwf) as Hf.
  destruct (attack_scan g i slots) as [[g1 hit] closed]. simpl in Hf.
  destruct hit; simpl; [|done].
  assert (well_formed g1) as Hwf1.
  { destruct Hf as (_ & Hl & _). unfold well_formed in *. congruence. }
  pose proof (broadcast_fades fails g1 Hwf1) as Hb.
  destruct (broadcast_state_locked fails g1) as [g2 out]. simpl in *.
  by eapply fades_trans.
Qed.

Lemma fades_well_formed g g' : fades g g' -> well_formed g -> well_formed g'.
Proof. intros (_ & Hl & _). unfold well_formed. congruence. Qed.

Lemma quit_locked_fades g i fails :
  well_formed g -> fades g (quit_locked g i fails).1.
Proof.
  intros Hwf. unfold quit_locked.
  pose proof (fades_remove_player g i) as Hr.
  pose proof (broadcast_fades fails (remove_player i g)
                (fades_well_formed _ _ Hr Hwf)) as Hb.
  destruct (broadcast_state_locked fails (remove_player i g)) as [g' out].
  simpl in *. by eapply fades_trans.
Qed.

Lemma recv_failed_fades g i fails :
  well_formed g -> fades g (recv_failed g i fails).1.
Proof.
  intros Hwf. unfold recv_failed.
  destruct (active (slot g i)); [by apply quit_locked_fades | apply fades_refl].
Qed.

Lemma thread_cleanup_fades g i sockfd : fades g (thread_cleanup g i sockfd).1.
Proof.
  unfold thread_cleanup. simpl. destruct (active (slot g i)); [|apply fades_refl].
  eapply fades_trans; [|apply fades_add_count].
  apply fades_upd_slot. by intros [].
Qed.

Lemma spawn_failed_fades g idx : fades g (spawn_failed g idx).1.
Proof. apply fades_remove_player. Qed.

(** *** Join *)

Lemma pairs_ind (P : list Z -> Prop) :
  P [] -> (forall d, P [d]) ->
  (forall d1 d2 rest, P rest -> P (d1 :: d2 :: rest)) ->
  forall l, P l.
Proof.
  intros H0 H1 H2 l.
  enough (P l /\ forall d, P (d :: l)) by tauto.
  induction l as [|x l [IH1 IH2]]; [by split|].
  split; [apply IH2|]. intros d. by apply H2.
Qed.

Lemma find_seq_spec (f : nat -> bool) (a n x : nat) :
  find f (seq a n) = Some x ->
  (a <= x < a + n)%nat /\ f x = true /\
  forall y, (a <= y < x)%nat -> f y = false.
Proof.
  revert a. induction n as [|n IH]; intros a; simpl; [done|].
  destruct (f a) eqn:Hfa.
  - intros [= <-]. split; [lia|]. split; [done|]. intros y Hy. lia.
  - intros Hx. destruct (IH _ Hx) as (Hr & Hfx & Hmin).
    split; [lia|]. split; [done|]. intros y Hy.
    destruct (decide (y = a)) as [->|Hne]; [done|]. apply Hmin. lia.
Qed.

Lemma find_seq_none (f : nat -> bool) (a n : nat) :
  find f (seq a n) = None -> forall y, (a <= y < a + n)%nat -> f y = false.
Proof.
  revert a. induction n as [|n IH]; intros a; simpl; [lia|].
  destruct (f a) eqn:Hfa; [done|]. intros Hx y Hy.
  destruct (decide (y = a)) as [->|Hne]; [done|]. apply (IH _ Hx). lia.
Qed.

Lemma find_free_slot_spec g idx :
  find_free_slot g = Some idx ->
  (idx < MAX_PLAYERS)%nat /\ active (slot g idx) = false /\
  forall j, (j < idx)%nat -> active (slot g j) = true.
Proof.
  intros H%find_seq_spec. destruct H as (Hr & Hf & Hmin).
  split; [lia|]. split; [by apply negb_true_iff|].
  intros j Hj. apply negb_false_iff, Hmin. lia.
Qed.

Lemma find_free_slot_none g :
  find_free_slot g = None ->
  forall j, (j < MAX_PLAYERS)%nat -> active (slot g j) = true.
Proof.
  intros H j Hj. apply negb_false_iff.
  apply (find_seq_none _ _ _ H). lia.
Qed.

Lemma occupied_by_other_upd g i f r c :
  occupied_by_other (upd_slot i f g) i r c = occupied_by_other g i r c.
Proof.
  unfold occupied_by_other. apply existsb_ext_in. intros q _.
  destruct (Nat.eqb_spec q i) as [->|Hne].
  - by rewrite !andb_false_r.
  - by rewrite slot_upd_slot_ne.
Qed.

Lemma cell_taken_upd g i f r c :
  cell_taken (upd_slot i f g) i r c <-> cell_taken g i r c.
Proof.
  unfold cell_taken. split; intros (q & Hne & H); exists q; split; try done.
  - by rewrite slot_upd_slot_ne in H.
  - by rewrite slot_upd_slot_ne.
Qed.

Lemma admissible_upd g i f r c :
  admissible (upd_slot i f g) i r c = admissible g i r c.
Proof. unfold admissible. by rewrite occupied_by_other_upd. Qed.

Lemma placed_placed g i r1 c1 r c :
  placed (placed g i r1 c1) i r c = placed g i r c.
Proof.
  unfold placed. destruct (decide (i < length (players g))%nat) as [Hi|Hi].
  - rewrite upd_slot_twice by done. by apply upd_slot_ext.
  - unfold upd_slot. simpl.
    by rewrite !list_insert_ge by (rewrite ?length_insert; lia).
Qed.

Lemma length_placed g i r c :
  length (players (placed g i r c)) = length (players g).
Proof. apply length_upd_slot. Qed.

Lemma rem_in_bounds (d1 d2 : Z) :
  rand_ok d1 -> rand_ok d2 ->
  in_bounds (Z.rem d1 GRID_SIZE) (Z.rem d2 GRID_SIZE).
Proof.
  unfold rand_ok, in_bounds, GRID_SIZE. intros H1 H2.
  split; apply Z.rem_bound_pos; lia.
Qed.

(** When the placement loop ends, the slot stands on the last cell
    drawn, which passed the test. *)
Lemma spawn_position_spec idx draws :
  Forall rand_ok draws ->
  forall g g', (idx < length (players g))%nat ->
  spawn_position idx g draws = Some g' ->
  exists r c, in_bounds r c /\ admissible g idx r c = true /\
              g' = placed g idx r c.
Proof.
  induction draws as [| d | d1 d2 rest IH] using pairs_ind;
    intros Hok g g' Hidx; simpl; try done.
  inversion Hok as [|? ? Hd1 Hok1]; subst.
  inversion Hok1 as [|? ? Hd2 Hok2]; subst.
  rewrite placed_spec.
  set (r := Z.rem d1 GRID_SIZE). set (c := Z.rem d2 GRID_SIZE).
  assert (Hr : row (slot (placed g idx r c) idx) = r)
    by (unfold placed; by rewrite slot_upd_slot_eq).
  assert (Hc : col (slot (placed g idx r c) idx) = c)
    by (unfold placed; by rewrite slot_upd_slot_eq).
  rewrite Hr, Hc.
  destruct (_ || _) eqn:Htest.
  - intros Hrec. destruct (IH Hok2 _ _ (eq_ind_r _ Hidx (length_placed _ _ _ _)) Hrec)
      as (r' & c' & Hb & Hadm & ->).
    exists r', c'. split; [done|]. split.
    + unfold placed in Hadm. by rewrite admissible_upd in Hadm.
    + apply placed_placed.
  - intros [= <-].
    exists r, c. split; [by apply rem_in_bounds|]. split; [|done].
    apply orb_false_iff in Htest as [Ho Hocc].
    unfold placed in Hocc. rewrite occupied_by_other_upd in Hocc.
    unfold admissible. simpl in Ho. by rewrite Ho, Hocc.
Qed.

Lemma reaches_admissible_upd g i f draws :
  reaches_admissible (upd_slot i f g) i draws = reaches_admissible g i draws.
Proof.
  induction draws as [| d | d1 d2 rest IH] using pairs_ind; simpl; try done.
  by rewrite admissible_upd, IH.
Qed.

Lemma reaches_admissible_named g idx draws :
  reaches_admissible g idx draws = true
  <-> exists r c, (r, c) ∈ named_cells draws /\ admissible g idx r c = true.
Proof.
  induction draws as [| d | d1 d2 rest IH] using pairs_ind; simpl.
  - split; [done|]. by intros (r & c & ?%elem_of_nil & _).
  - split; [done|]. by intros (r & c & ?%elem_of_nil & _).
  - rewrite orb_true_iff, IH. split.
    + intros [Hadm|(r & c & Hin & Hadm)].
      * eexists _, _. split; [left|done].
      * exists r, c. split; [by right|done].
    + intros (r & c & [[= -> ->]|Hin]%elem_of_cons & Hadm); [by left|].
      right. by exists r, c.
Qed.

(** The placement loop ends within the given draws exactly when they
    come upon an admissible cell. *)
Lemma spawn_position_terminates idx draws :
  forall g, (idx < length (players g))%nat ->
  is_Some (spawn_position idx g draws) <-> reaches_admissible g idx draws = true.
Proof.
  induction draws as [| d | d1 d2 rest IH] using pairs_ind;
    intros g Hidx; simpl; try (split; [by intros [? ?] | done]).
  rewrite placed_spec.
  set (r := Z.rem d1 GRID_SIZE). set (c := Z.rem d2 GRID_SIZE).
  assert (Hr : row (slot (placed g idx r c) idx) = r)
    by (unfold placed; by rewrite slot_upd_slot_eq).
  assert (Hc : col (slot (placed g idx r c) idx) = c)
    by (unfold placed; by rewrite slot_upd_slot_eq).
  rewrite Hr, Hc. unfold admissible at 1.
  change (obstacles (placed g idx r c)) with (obstacles g).
  unfold placed at 1. rewrite occupied_by_other_upd.
  destruct (obstacle_at (obstacles g) r c =? 1); simpl.
  - rewrite IH by (by rewrite length_placed).
    unfold placed. by rewrite reaches_admissible_upd.
  - destruct (occupied_by_other g idx r c); simpl; [|by split; eauto].
    rewrite IH by (by rewrite length_placed).
    unfold placed. by rewrite reaches_admissible_upd.
Qed.

Lemma admissible_spec g idx r c :
  well_formed g ->
  admissible g idx r c = true <->
  obstacle_at (obstacles g) r c <> 1 /\ ~ cell_taken g idx r c.
Proof.
  intros Hwf. unfold admissible.
  rewrite andb_true_iff, !negb_true_iff, Z.eqb_neq.
  by rewrite occupied_by_other_false.
Qed.

Lemma accept_client_cases g client_fd draws fails :
  well_formed g -> Forall rand_ok draws ->
  (Z.of_nat MAX_PLAYERS <= player_count g /\
   accept_client g client_fd draws fails
     = Some (g, [EvSend client_fd (Text msg_server_full); EvClose client_fd],
             None)) \/
  (player_count g < Z.of_nat MAX_PLAYERS /\ find_free_slot g = None /\
   accept_client g client_fd draws fails
     = Some (g, [EvSend client_fd (Text msg_no_slot); EvClose client_fd],
             None)) \/
  (player_count g < Z.of_nat MAX_PLAYERS /\
   exists idx, find_free_slot g = Some idx /\
     ((reaches_admissible g idx draws = false /\
       accept_client g client_fd draws fails = None) \/
      (reaches_admissible g idx draws = true /\
       exists r c, in_bounds r c /\ admissible g idx r c = true /\
         accept_client g client_fd draws fails
           = Some (broadcast_state_locked fails (joined g idx client_fd r c),
                   Some idx)))).
Proof.
  intros Hwf Hok. unfold accept_client.
  destruct (Z.geb_spec (player_count g) (Z.of_nat MAX_PLAYERS)) as [Hfull|Hroom].
  { left. split; [lia|done]. }
  right. destruct (find_free_slot g) as [idx|] eqn:Hfind; [right|left].
  2:{ split; [exact Hroom|]. split; reflexivity. }
  split; [done|]. exists idx. split; [done|].
  destruct (find_free_slot_spec g idx Hfind) as (Hidx & Hfree & _).
  assert (Hlt : (idx < length (players g))%nat) by (by rewrite Hwf).
  rewrite !upd_slot_twice by (rewrite ?length_upd_slot; done).
  set (g1 := upd_slot idx _ g).
  assert (Hlt1 : (idx < length (players g1))%nat)
    by (unfold g1; by rewrite length_upd_slot).
  pose proof (spawn_position_terminates idx draws g1 Hlt1) as Hterm.
  unfold g1 in Hterm at 2. rewrite reaches_admissible_upd in Hterm.
  destruct (spawn_position idx g1 draws) as [g2|] eqn:Hspawn; simpl.
  - right. split; [by apply Hterm|].
    destruct (spawn_position_spec idx draws Hok g1 g2 Hlt1 Hspawn)
      as (r & c & Hb & Hadm & ->).
    exists r, c. split; [done|]. split.
    { unfold g1 in Hadm. by rewrite admissible_upd in Hadm. }
    do 3 f_equal. unfold joined, placed, g1. f_equal.
    by rewrite upd_slot_twice.
  - left. split; [|done].
    destruct (reaches_admissible g idx draws); [|done].
    destruct (proj2 Hterm eq_refl) as [? ?]. done.
Qed.

Lemma joined_well_formed g idx fd r c :
  well_formed g -> well_formed (joined g idx fd r c).
Proof. intros Hwf. unfold joined. by apply well_formed_upd_slot. Qed.

Lemma joined_positions_ok g idx fd r c :
  well_formed g -> positions_ok g ->
  in_bounds r c -> admissible g idx r c = true ->
  positions_ok (joined g idx fd r c).
Proof.
  intros Hwf Hok Hb Hadm. apply admissible_spec in Hadm as [Ho Hfree]; [|done].
  unfold joined.
  eapply fades_positions_ok; [|apply fades_add_count].
  by apply upd_slot_positions_ok.
Qed.

Lemma accept_client_invariant g client_fd draws fails g' out idx :
  well_formed g -> positions_ok g -> Forall rand_ok draws ->
  accept_client g client_fd draws fails = Some (g', out, idx) ->
  well_formed g' /\ positions_ok g'.
Proof.
  intros Hwf Hok Hdraws Hacc.
  destruct (accept_client_cases g client_fd draws fails Hwf Hdraws)
    as [(_ & H)|[(_ & _ & H)|(_ & i & _ & [(_ & H)|(_ & r & c & Hb & Hadm & H)])]];
    rewrite H in Hacc; try done; try (by injection Hacc as <- _ _).
  pose proof (joined_well_formed g i client_fd r c Hwf) as Hwfj.
  pose proof (broadcast_fades fails _ Hwfj) as Hf.
  destruct (broadcast_state_locked fails (joined g i client_fd r c)) as [g2 o2].
  injection Hacc as <- _ _. simpl in Hf. split.
  - by eapply fades_well_formed.
  - eapply fades_positions_ok; [|done]. by apply joined_positions_ok.
Qed.

(** *** The first state *)

Lemma main_init_players draws g :
  main_init draws = Some g ->
  players g = init_player <$> slots /\ player_count g = 0.
Proof.
  unfold main_init. destruct draws as [|d rest]; [done|].
  destruct (place_obstacles _ _ _ _); simpl; [|done]. by intros [= <-].
Qed.

Lemma init_slots_free g :
  players g = init_player <$> slots -> forall i, active (slot g i) = false.
Proof.
  intros Hp i. unfold slot. rewrite Hp.
  by destruct i as [|[|[|[|i]]]].
Qed.

Lemma main_init_invariant draws g :
  main_init draws = Some g -> well_formed g /\ positions_ok g.
Proof.
  intros H. destruct (main_init_players _ _ H) as [Hp _].
  pose proof (init_slots_free g Hp) as Hfree. split.
  - unfold well_formed. by rewrite Hp.
  - split; intros i; rewrite Hfree; done.
Qed.

(** *** The positions are sound in every reachable world *)

Lemma fades_sound g g' : sound g -> fades g g' -> sound g'.
Proof.
  intros [Hwf Hok] Hf. split;
    [by eapply fades_well_formed | by eapply fades_positions_ok].
Qed.

Lemma move_locked_sound g i sockfd newR newC fails :
  sound g -> sound (move_locked g i sockfd newR newC fails).1.
Proof.
  intros [Hwf Hok]. split;
    [by apply move_locked_well_formed | by apply move_locked_positions_ok].
Qed.

Lemma handle_line_sound g i sockfd received fails :
  sound g -> sound (handle_line g i sockfd received fails).1.1.
Proof.
  intros Hs. unfold handle_line.
  destruct (parse_command _) as [|direction| | |]; cbn [fst]; try done.
  - destruct (move_target _ _ _) as [[newR newC]|]; cbn [fst]; [|done].
    by apply move_locked_sound.
  - eapply fades_sound; [exact Hs|]. apply attack_locked_fades. exact (proj1 Hs).
  - eapply fades_sound; [exact Hs|]. apply quit_locked_fades. exact (proj1 Hs).
Qed.

Lemma rand_okb_spec (draws : list Z) :
  forallb rand_okb draws = true -> Forall rand_ok draws.
Proof.
  intros H. apply Forall_forall. intros d Hd%list_elem_of_In.
  rewrite forallb_forall in H. specialize (H d Hd).
  unfold rand_okb in H. unfold rand_ok. lia.
Qed.

Lemma exec_sound w a w' out :
  exec w a = Some (w', out) -> sound (game w) -> sound (game w').
Proof.
  intros Hexec Hs. unfold exec in Hexec.
  destruct a as [fd draws fails| | |k|k received fails|k fails|k fails|k].
  - destruct (spawning w); [done|].
    destruct (_ && _) eqn:Hpre; [|done].
    apply andb_prop in Hpre as [_ Hdraws%rand_okb_spec].
    destruct (accept_client _ _ _ _) as [[[g' o] idx]|] eqn:Hacc; [|done].
    injection Hexec as <- _. simpl. destruct Hs as [Hwf Hok].
    by apply (accept_client_invariant _ _ _ _ _ _ _ Hwf Hok Hdraws Hacc).
  - destruct (spawning w); [|done]. by injection Hexec as <- _.
  - destruct (spawning w) as [idx|]; [|done].
    injection Hexec as <- _. simpl.
    eapply fades_sound; [done|]. apply fades_remove_player.
  - destruct (threads w !! k) as [[i fd []]|]; try done.
    by injection Hexec as <- _.
  - destruct (threads w !! k) as [[i fd []]|]; try done.
    destruct (move_request _ _ _) as [[newR newC]|].
    { by injection Hexec as <- _. }
    pose proof (handle_line_sound (game w) i fd received fails Hs) as Hl.
    destruct (handle_line _ _ _ _ _) as [[g' o] continue].
    by injection Hexec as <- _.
  - destruct (threads w !! k) as [[i fd []]|]; try done.
    pose proof (recv_failed_fades (game w) i fails (proj1 Hs)) as Hf.
    destruct (recv_failed _ _ _) as [g' o]. injection Hexec as <- _.
    by eapply fades_sound.
  - destruct (threads w !! k) as [[i fd []]|]; try done.
    pose proof (move_locked_sound (game w) i fd newR newC fails Hs) as Hm.
    destruct (move_locked _ _ _ _ _ _) as [g' o]. by injection Hexec as <- _.
  - destruct (threads w !! k) as [[i fd []]|]; try done.
    pose proof (thread_cleanup_fades (game w) i fd) as Hf.
    destruct (thread_cleanup _ _ _) as [g' o]. injection Hexec as <- _.
    by eapply fades_sound.
Qed.

Lemma reachable_sound w : reachable w -> sound (game w).
Proof.
  induction 1 as [draws g _ Hinit|w a w' out _ IH Hstep].
  - by apply main_init_invariant in Hinit.
  - by eapply exec_sound.
Qed.

Lemma run_reachable schedule : forall w w',
  reachable w -> run w schedule = Some w' -> reachable w'.
Proof.
  induction schedule as [|a rest IH]; intros w w' Hr; simpl.
  - by intros [= <-].
  - destruct (exec w a) as [[w1 o]|] eqn:Hexec; [|done].
    apply IH. by eapply reach_step.
Qed.

Lemma boot_reachable draws schedule w :
  boot draws schedule = Some w -> reachable w.
Proof.
  unfold boot. destruct (forallb rand_okb draws) eqn:Hd; [|done].
  destruct (main_init draws) as [g|] eqn:Hinit; [|done].
  apply run_reachable. by eapply reach_init.
Qed.

(** C1.  In every world the server can reach, by any interleaving of
    joins, MOVE, ATTACK and QUIT commands, lost connections, thread
    clean-ups and failed sends during a broadcast, no two occupied slots
    stand on the same cell, and every occupied slot stands on a cell of
    the [GRID_SIZE] x [GRID_SIZE] grid that is not an obstacle. *)
Theorem reachable_positions_ok (w : World) :
  reachable w ->
  (forall i j,
     active (slot (game w) i) = true -> active (slot (game w) j) = true ->
     row (slot (game w) i) = row (slot (game w) j) ->
     col (slot (game w) i) = col (slot (game w) j) -> i = j) /\
  (forall i, active (slot (game w) i) = true ->
     0 <= row (slot (game w) i) < GRID_SIZE /\
     0 <= col (slot (game w) i) < GRID_SIZE /\
     obstacle_at (obstacles (game w)) (row (slot (game w) i))
       (col (slot (game w) i)) <> 1).
Proof.
  intros Hr. destruct (reachable_sound w Hr) as [_ [Hcell Hdist]]. split.
  - exact Hdist.
  - intros i Hi. destruct (Hcell i Hi) as [[Hrow Hcol] Ho]. done.
Qed.

(** *** Broadcast and [Roster.free] *)

Lemma broadcasts_app (l1 l2 : list event) :
  broadcasts (l1 ++ l2) = (broadcasts l1 + broadcasts l2)%nat.
Proof. unfold broadcasts. by rewrite List.filter_app, length_app. Qed.

Lemma broadcasts_deliveries fails m (g : Game) (qs : list nat) :
  broadcasts (concat (List.map (fun p => delivery fails m p (slot g p)) qs)) = 0%nat.
Proof.
  induction qs as [|q qs IH]; [done|]. simpl. rewrite broadcasts_app, IH.
  unfold delivery. destruct (_ && _); [|done]. by destruct (fails q).
Qed.

Lemma broadcast_once fails g :
  well_formed g -> broadcasts (broadcast_state_locked fails g).2 = 1%nat.
Proof.
  intros Hwf. destruct (broadcast_spec fails g Hwf) as (_ & _ & _ & _ & ->).
  change (broadcasts (EvBroadcast ?s :: ?l)) with (S (broadcasts l)).
  by rewrite broadcasts_deliveries.
Qed.

Lemma free_each_spec (ps : list nat) (g : Game) :
  NoDup ps -> (forall q, q ∈ ps -> (q < length (players g))%nat) ->
  length (players (free_each ps g)) = length (players g) /\
  obstacles (free_each ps g) = obstacles g /\
  (forall q, slot (free_each ps g) q =
             if decide (q ∈ ps) then freed (slot g q) else slot g q) /\
  player_count (free_each ps g) =
    player_count g
    - Z.of_nat (length (List.filter (fun q => active (slot g q)) ps)).
Proof.
  intros Hnd Hlt.
  destruct (for_each_slotwise (fun q g => (Roster_free q g, []))
              (fun _ => freed) (fun _ pl => active pl) (fun _ _ => [])
              (fun q g _ => eq_refl) ps g Hnd Hlt)
    as (Hlen & Hobs & Hslot & Hcnt & _).
  rewrite for_each_fst in Hlen, Hobs, Hslot, Hcnt. done.
Qed.

(** C8.  A pass of [broadcast_state_locked] leaves the globals as
    [Roster.free] applied to each occupied slot whose [send] failed
    would: that slot's flag is cleared, its descriptor closed and
    forgotten and the counter decremented by one for it, while every
    other slot is untouched.  The pass makes at most one delivery
    attempt per slot, all with the text rendered before the first send,
    and is a single broadcast: removals are not announced by a further
    one.  The function always returns. *)
Theorem broadcast_failure_frees_slot (fails : nat -> bool) (g : Game) :
  well_formed g ->
  let failed := List.filter (fun p => send_fails fails p (slot g p)) slots in
  let m := StateMsg (players g) (obstacles g) in
  let g' := (broadcast_state_locked fails g).1 in
  let out := (broadcast_state_locked fails g).2 in
  g' = free_each failed g /\
  (forall p, slot g' p =
     if send_fails fails p (slot g p) then freed (slot g p) else slot g p) /\
  player_count g' = player_count g - Z.of_nat (length failed) /\
  obstacles g' = obstacles g /\
  out = EvBroadcast (players g) ::
        concat (List.map (fun p => delivery fails m p (slot g p)) slots) /\
  (forall p, p ∈ failed -> EvClose (socket_fd (slot g p)) ∈ out) /\
  broadcasts out = 1%nat.
Proof.
  intros Hwf failed m g' out.
  destruct (broadcast_spec fails g Hwf) as (Hlen & Hobs & Hslot & Hcnt & Hev).
  fold g' out in Hlen, Hobs, Hslot, Hcnt, Hev.
  assert (Hnd : NoDup failed) by apply NoDup_ListNoDup, List.NoDup_filter,
    NoDup_ListNoDup, NoDup_slots.
  assert (Hin : forall q, q ∈ failed <->
                  q ∈ slots /\ send_fails fails q (slot g q) = true).
  { intros q. unfold failed. by rewrite !list_elem_of_In, List.filter_In. }
  assert (Hlt : forall q, q ∈ failed -> (q < length (players g))%nat).
  { intros q [Hq _]%Hin. by apply slots_in_range. }
  destruct (free_each_spec failed g Hnd Hlt) as (Flen & Fobs & Fslot & Fcnt).
  split; [|split; [done|split; [done|split; [done|split; [done|split]]]]].
  - apply game_ext; try congruence.
    + intros q Hq. rewrite Hslot, Fslot.
      destruct (send_fails fails q (slot g q)) eqn:Hsf.
      * rewrite decide_True; [done|]. apply Hin. split; [|done].
        apply elem_of_slots. rewrite Hlen, Hwf in Hq. done.
      * rewrite decide_False; [done|]. intros [_ ?]%Hin. congruence.
    + rewrite Hcnt, Fcnt. do 3 f_equal. unfold failed.
      rewrite filter_filter_and. apply List.filter_ext. intros q.
      unfold send_fails.
      by destruct (active (slot g q)), (0 <=? _), (fails q).
  - intros p [Hp Hsf]%Hin. rewrite Hev. right.
    apply list_elem_of_In, in_concat.
    exists (delivery fails m p (slot g p)). split.
    + apply in_map_iff. exists p. split; [done|]. by apply list_elem_of_In.
    + unfold delivery. unfold send_fails in Hsf.
      apply andb_prop in Hsf as [-> ->]. right. by left.
  - by apply broadcast_once.
Qed.

(** A broadcast changes no position, health or symbol. *)
Lemma broadcast_keeps fails g p :
  well_formed g ->
  let pl := slot (broadcast_state_locked fails g).1 p in
  row pl = row (slot g p) /\ col pl = col (slot g p) /\
  hp pl = hp (slot g p) /\ symbol pl = symbol (slot g p).
Proof.
  intros Hwf. destruct (broadcast_spec fails g Hwf) as (_ & _ & Hslot & _).
  simpl. rewrite Hslot. by destruct (send_fails _ _ _).
Qed.

(** A well-formed MOVE handled in one piece is the locked part run on
    the target read from the slot. *)
Lemma handle_line_move g i sockfd line fails newR newC :
  move_request g i line = Some (newR, newC) ->
  handle_line g i sockfd line fails
    = (move_locked g i sockfd newR newC fails, true).
Proof.
  unfold move_request, handle_line.
  destruct (parse_command _); try done. by intros ->.
Qed.

Lemma move_target_direction (d : direction) (r c : Z) :
  move_target (direction_name d) r c = Some (target_cell d r c).
Proof. by destruct d. Qed.

Lemma target_cell_moves (d : direction) (r c : Z) : target_cell d r c <> (r, c).
Proof. destruct d; simpl; intros [= ?]; lia. Qed.

(** A MOVE handled in one piece, that is, when no other thread takes
    the lock between the read of the position (lines 152-153) and the
    lock of line 168.  The MOVE then aims at the cell next to the acting
    slot in its direction (UP: row-1, DOWN: row+1, LEFT: col-1, RIGHT:
    col+1).  If that cell is off the grid, an obstacle, or held by
    another occupied slot, the globals are unchanged and the only system
    call is the matching message sent to the caller.  Otherwise the
    acting slot is put on that cell, no other slot's position changes,
    and [broadcast_state_locked] is called exactly once.  What happens
    when another thread does take the lock in between is shown under
    C5 below. *)
Theorem move_command (g : Game) (i : nat) (sockfd : Z) (line : string)
    (fails : nat -> bool) (d : direction) :
  well_formed g -> (i < MAX_PLAYERS)%nat ->
  parse_command (CStr.trim_line line) = Move (direction_name d) ->
  let target := target_cell d (row (slot g i)) (col (slot g i)) in
  let r := target.1 in
  let c := target.2 in
  let result := handle_line g i sockfd line fails in
  (~ in_bounds r c ->
   result = (g, [EvSend sockfd (Text msg_out_of_bounds)], true)) /\
  (in_bounds r c -> obstacle_at (obstacles g) r c = 1 ->
   result = (g, [EvSend sockfd (Text msg_obstacle)], true)) /\
  (in_bounds r c -> obstacle_at (obstacles g) r c <> 1 ->
   cell_taken g i r c ->
   result = (g, [EvSend sockfd (Text msg_occupied)], true)) /\
  (in_bounds r c -> obstacle_at (obstacles g) r c <> 1 ->
   ~ cell_taken g i r c ->
   result = (broadcast_state_locked fails (placed g i r c), true) /\
   broadcasts result.1.2 = 1%nat /\
   row (slot result.1.1 i) = r /\ col (slot result.1.1 i) = c /\
   (r, c) <> (row (slot g i), col (slot g i)) /\
   forall q, q <> i ->
     row (slot result.1.1 q) = row (slot g q) /\
     col (slot result.1.1 q) = col (slot g q)).
Proof.
  intros Hwf Hi Hparse target r c result.
  assert (Hres : result = (move_locked g i sockfd r c fails, true)).
  { unfold result, handle_line. rewrite Hparse, move_target_direction.
    fold target. by destruct target. }
  destruct (move_locked_cases g i sockfd r c fails Hwf)
    as [(Hb & Hm)|[(Hb & Ho & Hm)|[(Hb & Ho & Ht & Hm)|(Hb & Ho & Ht & Hm)]]];
    rewrite Hm in Hres; (split; [|split; [|split]]); try done.
  intros _ _ _. split; [done|]. rewrite Hres. cbn [fst snd].
  pose proof (well_formed_placed g i r c Hwf) as Hwfp.
  split; [by apply broadcast_once|].
  assert (Hlt : (i < length (players g))%nat) by (by rewrite Hwf).
  split; [|split; [|split]].
  - destruct (broadcast_keeps fails (placed g i r c) i Hwfp) as (-> & _).
    unfold placed. by rewrite slot_upd_slot_eq.
  - destruct (broadcast_keeps fails (placed g i r c) i Hwfp) as (_ & -> & _).
    unfold placed. by rewrite slot_upd_slot_eq.
  - pose proof (target_cell_moves d (row (slot g i)) (col (slot g i))) as Hne.
    fold target in Hne. by destruct target.
  - intros q Hq.
    destruct (broadcast_keeps fails (placed g i r c) q Hwfp) as (-> & -> & _).
    unfold placed. by rewrite slot_upd_slot_ne.
Qed.

Lemma is_target_spec g i q :
  is_target g i q = true <->
  active (slot g q) = true /\ q <> i /\
  ((Z.abs (row (slot g q) - row (slot g i)) = 1 /\
    col (slot g q) = col (slot g i)) \/
   (Z.abs (col (slot g q) - col (slot g i)) = 1 /\
    row (slot g q) = row (slot g i))).
Proof.
  unfold is_target, manhattan.
  rewrite !andb_true_iff, negb_true_iff, Nat.eqb_neq, Z.eqb_eq.
  split.
  - intros [[Ha Hne] Hd]. split; [done|]. split; [done|]. lia.
  - intros (Ha & Hne & Hd). split; [done|]. lia.
Qed.

(** C4.  ATTACK hits exactly the other occupied slots at Manhattan
    distance 1 from the acting slot (one coordinate differs by exactly
    1, the other is equal).  Each of them loses [DAMAGE] = 20 health;
    where that leaves zero or less, the health is set to 0, the flag is
    cleared, the descriptor is closed and forgotten and the counter is
    decremented, all before the one call of [broadcast_state_locked],
    which renders the roster so obtained.  No other slot changes.  With
    no target, the globals are unchanged and the only system call sends
    'No targets adjacent to attack.' to the caller. *)
Theorem attack_command (g : Game) (i : nat) (sockfd : Z) (line : string)
    (fails : nat -> bool) :
  well_formed g ->
  parse_command (CStr.trim_line line) = Attack ->
  let targets := List.filter (is_target g i) slots in
  let dead := List.filter (fun q => dies (slot g q)) targets in
  let result := handle_line g i sockfd line fails in
  (forall q, q ∈ targets <->
     active (slot g q) = true /\ q <> i /\
     ((Z.abs (row (slot g q) - row (slot g i)) = 1 /\
       col (slot g q) = col (slot g i)) \/
      (Z.abs (col (slot g q) - col (slot g i)) = 1 /\
       row (slot g q) = row (slot g i)))) /\
  (targets = [] ->
   result = (g, [EvSend sockfd (Text msg_no_targets)], true)) /\
  (targets <> [] ->
   exists g1 deliveries,
     (forall q, slot g1 q =
        if decide (q ∈ targets) then struck (slot g q) else slot g q) /\
     player_count g1 = player_count g - Z.of_nat (length dead) /\
     obstacles g1 = obstacles g /\
     broadcast_state_locked fails g1
       = ((broadcast_state_locked fails g1).1,
          EvBroadcast (players g1) :: deliveries) /\
     broadcasts deliveries = 0%nat /\
     result = ((broadcast_state_locked fails g1).1,
               List.map (fun q => EvClose (socket_fd (slot g q))) dead
               ++ EvBroadcast (players g1) :: deliveries,
               true)).
Proof.
  intros Hwf Hparse targets dead result.
  assert (Hin : forall q, q ∈ targets <-> is_target g i q = true).
  { intros q. unfold targets. rewrite list_elem_of_In, List.filter_In.
    split; [by intros [_ ?]|]. intros Ht. split; [|done].
    apply list_elem_of_In. destruct (decide (q ∈ slots)) as [|Hout]; [done|].
    by rewrite is_target_out_of_range in Ht. }
  split; [intros q; by rewrite Hin, is_target_spec|].
  assert (Hres : result = (attack_locked g i sockfd fails, true)).
  { unfold result, handle_line. by rewrite Hparse. }
  rewrite attack_locked_scan in Hres.
  destruct (attack_scan_spec g i slots NoDup_slots (slots_in_range g Hwf))
    as (Hlen & Hobs & Hslot & Hcnt & Hhit & Hev).
  fold targets in Hcnt, Hev. fold dead in Hcnt, Hev.
  destruct (attack_scan g i slots) as [[g1 hit] closed]. cbn [fst snd] in *.
  subst hit closed.
  split.
  - intros Hnone.
    assert (Hex : existsb (is_target g i) slots = false)
      by (by apply existsb_filter_nil).
    rewrite Hex in Hres. cbn [negb] in Hres. rewrite Hres.
    unfold dead. rewrite Hnone. cbn [List.filter List.map app]. do 2 f_equal.
    apply game_ext; try done.
    + intros q Hq. rewrite Hslot. case_decide; [|done].
      destruct (is_target g i q) eqn:Ht; [|done].
      apply Hin in Ht. rewrite Hnone in Ht. by apply elem_of_nil in Ht.
    + rewrite Hcnt. unfold dead. rewrite Hnone. simpl. lia.
  - intros Hsome.
    assert (Hex : existsb (is_target g i) slots = true).
    { destruct (existsb _ _) eqn:Hex; [done|].
      by apply existsb_filter_nil in Hex. }
    rewrite Hex in Hres. cbn [negb] in Hres.
    assert (Hwf1 : well_formed g1) by (unfold well_formed in *; congruence).
    destruct (broadcast_spec fails g1 Hwf1) as (_ & _ & _ & _ & Hout).
    destruct (broadcast_state_locked fails g1) as [g2 out] eqn:Hb.
    cbn [fst snd] in *. subst out. exists g1, (concat (List.map (fun p =>
                   delivery fails (StateMsg (players g1) (obstacles g1)) p
                     (slot g1 p)) slots)).
    rewrite Hb. cbn [fst snd].
    split; [|split; [exact Hcnt|split; [exact Hobs|split; [reflexivity|split]]]].
    + intros q. rewrite Hslot.
      destruct (is_target g i q) eqn:Ht.
      * rewrite (decide_True (P := q ∈ targets)) by (by apply Hin).
        rewrite (decide_True (P := q ∈ slots)); [done|].
        destruct (decide (q ∈ slots)); [done|].
        by rewrite is_target_out_of_range in Ht.
      * rewrite (decide_False (P := q ∈ targets)); [by case_decide|].
        intros ?%Hin. congruence.
    + apply broadcasts_deliveries.
    + by rewrite Hres.
Qed.

(** *** The order of the target scan *)

Lemma filter_Permutation_list {A : Type} (f : A -> bool) (l l' : list A) :
  l ≡ₚ l' -> List.filter f l ≡ₚ List.filter f l'.
Proof.
  induction 1 as [|x l l' _ IH|x y l|l1 l2 l3 _ IH1 _ IH2]; simpl.
  - done.
  - destruct (f x); [by constructor|done].
  - destruct (f x), (f y); try done. apply perm_swap.
  - by etrans.
Qed.

Lemma existsb_Permutation {A : Type} (f : A -> bool) (l l' : list A) :
  l ≡ₚ l' -> existsb f l = existsb f l'.
Proof.
  induction 1 as [|x l l' _ IH|x y l|l1 l2 l3 _ IH1 _ IH2]; simpl.
  - done.
  - by rewrite IH.
  - by destruct (f x), (f y).
  - congruence.
Qed.

Lemma struck_hp (p : Player) : hp (struck p) = Z.max 0 (hp p - DAMAGE).
Proof.
  unfold struck, dies. destruct (Z.leb_spec (hp p - DAMAGE) 0); simpl; lia.
Qed.

(** The scan of lines 208-227 ends with the same globals and the same
    [hit] flag in whatever order it goes through the slots. *)
Lemma attack_scan_slots g i :
  well_formed g ->
  forall q, slot (attack_scan g i slots).1.1 q =
    if is_target g i q then struck (slot g q) else slot g q.
Proof.
  intros Hwf q.
  destruct (attack_scan_spec g i slots NoDup_slots (slots_in_range g Hwf))
    as (_ & _ & Hslot & _).
  rewrite Hslot. case_decide as Hq; [done|].
  by rewrite is_target_out_of_range.
Qed.

Lemma attack_scan_permutation g i qs :
  well_formed g -> qs ≡ₚ slots ->
  (attack_scan g i qs).1 = (attack_scan g i slots).1.
Proof.
  intros Hwf Hperm.
  destruct (attack_scan_spec g i slots NoDup_slots (slots_in_range g Hwf))
    as (Hlen & Hobs & Hslot & Hcnt & Hhit & _).
  assert (Hnd : NoDup qs) by (by rewrite Hperm; apply NoDup_slots).
  assert (Hlt : forall q, q ∈ qs -> (q < length (players g))%nat).
  { intros q Hq. apply slots_in_range; [done|]. by rewrite <- Hperm. }
  destruct (attack_scan_spec g i qs Hnd Hlt)
    as (Hlen' & Hobs' & Hslot' & Hcnt' & Hhit' & _).
  destruct (attack_scan g i qs) as [[g1 h1] o1].
  destruct (attack_scan g i slots) as [[g2 h2] o2]. cbn [fst snd] in *.
  f_equal.
  - apply game_ext; try congruence.
    + intros q _. rewrite Hslot', Hslot.
      destruct (decide (q ∈ qs)) as [Hq|Hq]; rewrite Hperm in Hq.
      * by rewrite decide_True.
      * by rewrite decide_False.
    + rewrite Hcnt', Hcnt. do 2 f_equal.
      by apply Permutation_length, filter_Permutation_list,
        filter_Permutation_list.
  - rewrite Hhit', Hhit. by apply existsb_Permutation.
Qed.

(** C10.  What an ATTACK does to the globals is what the target scan
    gives in any order.  Let [qs] be the slot indices in any order, and
    [scanned] and [hit] the globals and the flag after the loop body of
    lines 209-226 has been run once for each index of [qs] in that
    order.  Then the ATTACK handled by the code ends with [scanned], or
    with what the broadcast makes of it when some slot was hit; in
    [scanned] every target has its health lowered by [DAMAGE] = 20
    once, and is freed with health 0 where that leaves nothing, and
    every other slot is as it was; and the descriptors of the slots
    freed are closed one by one in ascending order of their indices,
    each once, before anything is sent. *)
Theorem attack_scan_order_independent (g : Game) (i : nat) (sockfd : Z)
    (line : string) (fails : nat -> bool) (qs : list nat) :
  well_formed g ->
  parse_command (CStr.trim_line line) = Attack ->
  qs ≡ₚ slots ->
  let scanned := (attack_scan g i qs).1.1 in
  let hit := (attack_scan g i qs).1.2 in
  let dead :=
    List.filter (fun q => is_target g i q && dies (slot g q))
      (seq 0 MAX_PLAYERS) in
  let closes := List.map (fun q => EvClose (socket_fd (slot g q))) dead in
  handle_line g i sockfd line fails
  = (if hit
     then ((broadcast_state_locked fails scanned).1,
           closes ++ (broadcast_state_locked fails scanned).2)
     else (scanned, closes ++ [EvSend sockfd (Text msg_no_targets)]),
     true) /\
  (forall q, slot scanned q =
     if is_target g i q then struck (slot g q) else slot g q) /\
  (forall q, is_target g i q = true ->
     hp (slot scanned q) = Z.max 0 (hp (slot g q) - DAMAGE) /\
     active (slot scanned q) = negb (dies (slot g q))) /\
  (forall q, is_target g i q = false -> slot scanned q = slot g q) /\
  StronglySorted lt dead /\
  (forall q, q ∈ dead <-> is_target g i q = true /\ dies (slot g q) = true).
Proof.
  intros Hwf Hparse Hperm scanned hit dead closes.
  pose proof (attack_scan_permutation g i qs Hwf Hperm) as Hsame.
  pose proof (attack_scan_slots g i Hwf) as Hall.
  destruct (attack_scan_spec g i slots NoDup_slots (slots_in_range g Hwf))
    as (_ & _ & _ & _ & _ & Hclosed).
  assert (Hs : scanned = (attack_scan g i slots).1.1)
    by (unfold scanned; by rewrite Hsame).
  assert (Hh : hit = (attack_scan g i slots).1.2)
    by (unfold hit; by rewrite Hsame).
  rewrite filter_filter_and in Hclosed. fold slots in dead.
  split; [|split; [|split; [|split; [|split]]]].
  - unfold handle_line. rewrite Hparse, attack_locked_scan, Hs, Hh.
    unfold closes, dead.
    destruct (attack_scan g i slots) as [[g1 h1] o1]. cbn [fst snd] in *.
    subst o1. destruct h1; simpl; [|done].
    by destruct (broadcast_state_locked fails g1).
  - intros q. rewrite Hs. apply Hall.
  - intros q Ht. rewrite Hs, Hall, Ht, struck_hp. split; [done|].
    unfold struck. apply is_target_spec in Ht as [Ha _].
    by destruct (dies (slot g q)).
  - intros q Ht. by rewrite Hs, Hall, Ht.
  - unfold dead, slots, MAX_PLAYERS. simpl.
    repeat (match goal with
            | |- context [if ?b then _ else _] => destruct b
            end; simpl);
      repeat (constructor; try lia); repeat (constructor; try done; lia).
  - intros q. unfold dead.
    rewrite list_elem_of_In, filter_In, <- list_elem_of_In, andb_true_iff.
    split; [tauto|]. intros [Ht Hd]. split; [|done].
    destruct (decide (q ∈ slots)) as [Hq|Hq]; [done|].
    by rewrite (is_target_out_of_range g i q Hwf Hq) in Ht.
Qed.

(** *** The C string functions on texts without NUL *)

Lemma code_inj (a b : ascii) : CStr.code a = CStr.code b -> a = b.
Proof.
  unfold CStr.code. intros H%N2Z.inj.
  by rewrite <- (ascii_N_embedding a), <- (ascii_N_embedding b), H.
Qed.

Lemma code_diff_zero (a b : ascii) : CStr.code a - CStr.code b = 0 <-> a = b.
Proof.
  split; [|intros ->; lia]. intros H. apply code_inj. lia.
Qed.

Lemma tolower_nonzero (c : ascii) : c <> Ascii.zero -> CStr.tolower c <> Ascii.zero.
Proof.
  destruct c as [[] [] [] [] [] [] [] []]; intros Hc; vm_compute;
    first [discriminate | intros _; by apply Hc].
Qed.

Lemma toupper_nonzero (c : ascii) : c <> Ascii.zero -> CStr.toupper c <> Ascii.zero.
Proof.
  destruct c as [[] [] [] [] [] [] [] []]; intros Hc; vm_compute;
    first [discriminate | intros _; by apply Hc].
Qed.
Lemma strcasecmp_same_text (s t : string) :
  nul_free s -> nul_free t ->
  CStr.strcasecmp s t = 0 <-> same_text s t.
Proof.
  unfold same_text, lower. revert t.
  induction s as [|a s IH]; intros [|c t] Hs Ht; simpl in *.
  - done.
  - rewrite code_diff_zero. split; [|done].
    intros H. exfalso. by apply (tolower_nonzero c); [apply Ht|].
  - destruct (Z.eqb_spec (CStr.code (CStr.tolower a)
                            - CStr.code (CStr.tolower Ascii.zero)) 0) as [Hd|Hd].
    + apply code_diff_zero in Hd. exfalso.
      by apply (tolower_nonzero a); [apply Hs|].
    + done.
  - destruct Hs as [Ha Hs], Ht as [Hc Ht].
    destruct (Z.eqb_spec (CStr.code (CStr.tolower a) - CStr.code (CStr.tolower c)) 0)
      as [Hd|Hd].
    + apply code_diff_zero in Hd. rewrite IH by done. rewrite Hd.
      split; [by intros ->|]. by intros [= ?].
    + split; [done|]. intros [= H _]. rewrite H in Hd. lia.
Qed.

Lemma strcmp_eq (s t : string) :
  nul_free s -> nul_free t -> CStr.strcmp s t = 0 <-> s = t.
Proof.
  revert t. induction s as [|a s IH]; intros [|c t] Hs Ht; simpl in *.
  - done.
  - rewrite code_diff_zero. split; [|done]. intros H. by destruct Ht as [[] _].
  - destruct (Z.eqb_spec (CStr.code a - CStr.code Ascii.zero) 0) as [Hd|Hd];
      [|done].
    apply code_diff_zero in Hd. by destruct Hs as [[] _].
  - destruct Hs as [Ha Hs], Ht as [Hc Ht].
    destruct (Z.eqb_spec (CStr.code a - CStr.code c) 0) as [Hd|Hd].
    + apply code_diff_zero in Hd. rewrite IH by done. rewrite Hd.
      split; [by intros ->|]. by intros [= ?].
    + split; [done|]. intros [= H _]. rewrite H in Hd. lia.
Qed.

Lemma strncasecmp_first_chars (n : nat) (s t : string) :
  nul_free s -> nul_free t ->
  CStr.strncasecmp s t n = 0 <-> same_text (first_chars n s) (first_chars n t).
Proof.
  unfold same_text, lower. revert s t.
  induction n as [|n IH]; intros s t Hs Ht.
  { by destruct s. }
  destruct s as [|a s], t as [|c t]; simpl in *.
  - done.
  - rewrite code_diff_zero. split; [|done].
    intros H. exfalso. by apply (tolower_nonzero c); [apply Ht|].
  - destruct (Z.eqb_spec (CStr.code (CStr.tolower a)
                            - CStr.code (CStr.tolower Ascii.zero)) 0) as [Hd|Hd];
      [|done].
    apply code_diff_zero in Hd. exfalso.
    by apply (tolower_nonzero a); [apply Hs|].
  - destruct Hs as [Ha Hs], Ht as [Hc Ht].
    destruct (Z.eqb_spec (CStr.code (CStr.tolower a) - CStr.code (CStr.tolower c)) 0)
      as [Hd|Hd].
    + apply code_diff_zero in Hd. rewrite IH by done. rewrite Hd.
      split; [by intros ->|]. by intros [= ?].
    + split; [done|]. intros [= H _]. rewrite H in Hd. lia.
Qed.

Lemma line_end_zero (c : ascii) : CStr.line_end c = false -> c <> Ascii.zero.
Proof. intros H ->. done. Qed.

Lemma trim_line_nul_free (s : string) : nul_free (CStr.trim_line s).
Proof.
  induction s as [|c s IH]; simpl; [done|].
  destruct (CStr.line_end c) eqn:Hc; simpl; [done|].
  split; [by apply line_end_zero|done].
Qed.

Lemma nul_free_tl (s : string) : nul_free s -> nul_free (CStr.tl_str s).
Proof. destruct s; simpl; [done|]. by intros [_ ?]. Qed.

Lemma nul_free_advance (k : nat) (s : string) :
  nul_free s -> nul_free (CStr.advance k s).
Proof.
  revert s. induction k as [|k IH]; intros s Hs; simpl; [done|].
  by apply IH, nul_free_tl.
Qed.

Lemma nul_free_skip_space (s : string) : nul_free s -> nul_free (CStr.skip_space s).
Proof.
  induction s as [|c s IH]; simpl; [done|]. intros [Hc Hs].
  destruct (CStr.isspace c); simpl; auto.
Qed.

Lemma nul_free_scan_word (w : nat) (s : string) :
  nul_free s -> nul_free (CStr.scan_word w s).
Proof.
  revert s. induction w as [|w IH]; intros [|c s]; simpl; try done.
  intros [Hc Hs]. destruct (CStr.isspace c); simpl; auto.
Qed.

Lemma nul_free_toupper (s : string) :
  nul_free s -> nul_free (CStr.map_str CStr.toupper s).
Proof.
  induction s as [|c s IH]; simpl; [done|]. intros [Hc Hs].
  split; [by apply toupper_nonzero|auto].
Qed.

(** *** Lines that are no command *)

Lemma trimmed_nul_free (line : string) : trimmed line -> nul_free line.
Proof. intros <-. apply trim_line_nul_free. Qed.

Lemma move_test (line : string) :
  nul_free line ->
  (CStr.strncasecmp line "MOVE" 4 =? 0) = true <-> starts_with_move line.
Proof.
  intros Hl. rewrite Z.eqb_eq. unfold starts_with_move.
  rewrite (strncasecmp_first_chars 4 line "MOVE"); [done|done|].
  simpl. by repeat split.
Qed.

Lemma keyword_test (line keyword : string) :
  nul_free line -> nul_free keyword ->
  (CStr.strcasecmp line keyword =? 0) = true <-> same_text line keyword.
Proof. intros Hl Hk. by rewrite Z.eqb_eq, strcasecmp_same_text. Qed.

Lemma move_target_names (w : string) (r c : Z) :
  nul_free w -> is_Some (move_target w r c) -> exists d, w = direction_name d.
Proof.
  intros Hw. unfold move_target.
  destruct (Z.eqb_spec (CStr.strcmp w "UP") 0) as [H|_].
  { intros _. exists UP. apply strcmp_eq in H; [done|done|]. simpl. by repeat split. }
  destruct (Z.eqb_spec (CStr.strcmp w "DOWN") 0) as [H|_].
  { intros _. exists DOWN. apply strcmp_eq in H; [done|done|]. simpl. by repeat split. }
  destruct (Z.eqb_spec (CStr.strcmp w "LEFT") 0) as [H|_].
  { intros _. exists LEFT. apply strcmp_eq in H; [done|done|]. simpl. by repeat split. }
  destruct (Z.eqb_spec (CStr.strcmp w "RIGHT") 0) as [H|_].
  { intros _. exists RIGHT. apply strcmp_eq in H; [done|done|]. simpl. by repeat split. }
  by intros [? ?].
Qed.

Lemma sscanf_nul_free (s w : string) :
  nul_free s -> CStr.sscanf_s15 s = Some w -> nul_free w.
Proof.
  intros Hs. unfold CStr.sscanf_s15.
  pose proof (nul_free_scan_word 15 _ (nul_free_skip_space s Hs)) as Hw.
  destruct (CStr.scan_word 15 (CStr.skip_space s)); [done|].
  by intros [= <-].
Qed.

(** C6, as amended.  A trimmed line whose first four characters do not
    spell MOVE and which is neither ATTACK nor QUIT, letter case aside,
    is answered by 'Unknown command. Available commands: MOVE, ATTACK,
    QUIT.' sent to the caller; that is the only system call and the
    globals are unchanged.  A trimmed line that starts with MOVE is
    answered in the same way by the usage text when no word follows,
    and by the invalid-direction text when the word that follows is
    none of the four directions. *)
Theorem unknown_command_reply (g : Game) (i : nat) (sockfd : Z)
    (line : string) (fails : nat -> bool) :
  trimmed line ->
  (~ starts_with_move line -> ~ same_text line "ATTACK" ->
   ~ same_text line "QUIT" ->
   handle_line g i sockfd line fails
     = (g, [EvSend sockfd (Text msg_unknown)], true)) /\
  (starts_with_move line ->
   CStr.sscanf_s15 (CStr.advance 4 line) = None ->
   handle_line g i sockfd line fails
     = (g, [EvSend sockfd (Text msg_usage)], true)) /\
  (starts_with_move line ->
   forall word, CStr.sscanf_s15 (CStr.advance 4 line) = Some word ->
   (forall d, CStr.map_str CStr.toupper word <> direction_name d) ->
   handle_line g i sockfd line fails
     = (g, [EvSend sockfd (Text msg_invalid_direction)], true)).
Proof.
  intros Htrim. pose proof (trimmed_nul_free line Htrim) as Hnf.
  unfold handle_line. rewrite Htrim. unfold parse_command.
  split; [|split].
  - intros Hmove Hattack Hquit.
    destruct (CStr.strncasecmp line "MOVE" 4 =? 0) eqn:H1.
    { by apply move_test in H1. }
    destruct (CStr.strcasecmp line "ATTACK" =? 0) eqn:H2.
    { apply keyword_test in H2; [done|done|]. simpl. by repeat split. }
    destruct (CStr.strcasecmp line "QUIT" =? 0) eqn:H3.
    { apply keyword_test in H3; [done|done|]. simpl. by repeat split. }
    done.
  - intros Hmove%move_test Hscan; [|done]. by rewrite Hmove, Hscan.
  - intros Hmove%move_test word Hscan Hdir; [|done]. rewrite Hmove, Hscan.
    destruct (move_target _ _ _) as [[newR newC]|] eqn:Htarget; [|done].
    exfalso.
    destruct (move_target_names (CStr.map_str CStr.toupper word)
                (row (slot g i)) (col (slot g i))) as [d Hd].
    + apply nul_free_toupper. eapply sscanf_nul_free; [|done].
      by apply nul_free_advance.
    + by rewrite Htarget.
    + by apply (Hdir d).
Qed.

(** C6 as stated does not hold: the line MOVE, with no argument, is no
    command of the grammar, and it is answered by the usage text, not
    by the unknown-command text. *)
Lemma unknown_reply_counterexample : ~ unknown_reply_to_all_others.
Proof.
  intros Hclaim.
  specialize (Hclaim (mkGame (init_player <$> slots) 0 empty_grid) 0%nat 4
                "MOVE"%string (fun _ => false)).
  assert (handle_line (mkGame (init_player <$> slots) 0 empty_grid) 0 4 "MOVE"
            (fun _ => false)
          = (mkGame (init_player <$> slots) 0 empty_grid,
             [EvSend 4 (Text msg_usage)], true)) as Hcode by reflexivity.
  rewrite Hcode in Hclaim.
  assert (trimmed "MOVE") as Htrim by reflexivity.
  assert (~ grammar_command "MOVE") as Hout.
  { intros [[_ Harg]|[H|H]]; [by apply Harg|discriminate H|discriminate H]. }
  specialize (Hclaim Htrim Hout). discriminate Hclaim.
Qed.

(** *** The counter and the flags *)

(** C2.  The code breaks the claim: QUIT decrements the counter whether
    or not the slot is still occupied (lines 241-244), so when a slot
    freed by an attack has its thread run a QUIT, the counter falls
    below the number of occupied flags.  The world below is reached by
    the run [late_quit]; its counter is 0 while slot 0 is occupied. *)
Theorem quit_after_death_breaks_count :
  exists w,
    boot demo_draws late_quit = Some w /\ reachable w /\
    player_count (game w) = 0 /\ occupied_count (game w) = 1 /\
    ~ count_consistent (game w).
Proof.
  eexists. split; [vm_compute; reflexivity|]. split.
  - apply (boot_reachable demo_draws late_quit). vm_compute. reflexivity.
  - by vm_compute.
Qed.

(** The two other leave paths test the flag first. *)
Lemma recv_failed_on_free_slot g i fails :
  active (slot g i) = false -> recv_failed g i fails = (g, []).
Proof. intros H. unfold recv_failed. by rewrite H. Qed.

Lemma thread_cleanup_on_free_slot g i sockfd :
  active (slot g i) = false -> thread_cleanup g i sockfd = (g, [EvClose sockfd]).
Proof. intros H. unfold thread_cleanup. by rewrite H. Qed.

(** The QUIT path decrements the counter on every slot. *)
Lemma quit_locked_count g i fails :
  well_formed g ->
  player_count (quit_locked g i fails).1 <= player_count g - 1.
Proof.
  intros Hwf. unfold quit_locked.
  assert (Hwf1 : well_formed (remove_player i g))
    by (eapply fades_well_formed; [apply fades_remove_player|done]).
  destruct (broadcast_spec fails _ Hwf1) as (_ & _ & _ & Hcnt & _).
  destruct (broadcast_state_locked fails (remove_player i g)) as [g' out].
  simpl in *. lia.
Qed.

(** C3.  The code breaks the claim on the QUIT path: after the run
    [duel] slot 1 is free and the counter is 1; a QUIT handled by the
    thread of slot 1 then brings the counter to 0, although the slot was
    not occupied.  (A failed [recv] and the final clean-up leave the
    globals alone on a free slot, see the two lemmas above.) *)
Theorem quit_on_free_slot_decrements :
  exists w,
    boot demo_draws duel = Some w /\ reachable w /\
    active (slot (game w) 1) = false /\
    player_count (game w) = 1 /\
    player_count (handle_line (game w) 1 5 "QUIT" no_failure).1.1 = 0 /\
    (handle_line (game w) 1 5 "QUIT" no_failure).1.1 <> game w.
Proof.
  eexists. split; [vm_compute; reflexivity|]. split.
  - apply (boot_reachable demo_draws duel). vm_compute. reflexivity.
  - by vm_compute.
Qed.

(** *** Join *)

Lemma free_slot_exists g :
  well_formed g -> count_consistent g ->
  player_count g < Z.of_nat MAX_PLAYERS -> is_Some (find_free_slot g).
Proof.
  intros Hwf Hcount Hroom.
  destruct (find_free_slot g) as [idx|] eqn:Hfind; [by eexists|].
  exfalso. pose proof (find_free_slot_none g Hfind) as Hall.
  unfold count_consistent, occupied_count in Hcount.
  destruct g as [ps n obs]. unfold well_formed in Hwf. simpl in *.
  destruct ps as [|p0 [|p1 [|p2 [|p3 [|? ?]]]]]; try done.
  pose proof (Hall 0%nat) as H0. pose proof (Hall 1%nat) as H1.
  pose proof (Hall 2%nat) as H2. pose proof (Hall 3%nat) as H3.
  unfold slot, MAX_PLAYERS in *. simpl in *.
  rewrite H0, H1, H2, H3 in Hcount by lia. simpl in Hcount. lia.
Qed.

Lemma joined_slot g idx fd r c :
  (idx < length (players g))%nat ->
  slot (joined g idx fd r c) idx
    = mkPlayer (symbol (slot g idx)) r c MAX_HP fd true.
Proof. intros Hidx. unfold joined. by rewrite slot_add_count, slot_upd_slot_eq. Qed.

(** C7, as amended.  With the counter at [MAX_PLAYERS] or above, the
    join sends 'Server full. Try again later.' to the new descriptor,
    closes it and leaves the globals unchanged.  With the counter below
    [MAX_PLAYERS] and a free slot (there is one whenever the counter
    equals the number of occupied flags), the join takes the free slot
    of lowest index and, once the draws come upon a cell that is neither
    an obstacle nor another occupied slot's, puts the slot there with
    health [MAX_HP] = 100 and the new descriptor, leaves the other slots
    alone, increments the counter by one and broadcasts once.  With the
    counter below [MAX_PLAYERS] and no free slot, it sends 'Server
    error: no slot available.', closes the descriptor and leaves the
    globals unchanged. *)
Theorem join_client (g : Game) (client_fd : Z) (draws : list Z)
    (fails : nat -> bool) :
  well_formed g -> Forall rand_ok draws ->
  (Z.of_nat MAX_PLAYERS <= player_count g ->
   accept_client g client_fd draws fails
     = Some (g, [EvSend client_fd (Text msg_server_full); EvClose client_fd],
             None)) /\
  (player_count g < Z.of_nat MAX_PLAYERS -> count_consistent g ->
   is_Some (find_free_slot g)) /\
  (player_count g < Z.of_nat MAX_PLAYERS ->
   forall idx, find_free_slot g = Some idx ->
     (idx < MAX_PLAYERS)%nat /\ active (slot g idx) = false /\
     (forall j, (j < idx)%nat -> active (slot g j) = true) /\
     ((exists r c, (r, c) ∈ named_cells draws /\
                   admissible g idx r c = true) ->
      exists r c,
        in_bounds r c /\ obstacle_at (obstacles g) r c <> 1 /\
        ~ cell_taken g idx r c /\
        accept_client g client_fd draws fails
          = Some (broadcast_state_locked fails (joined g idx client_fd r c),
                  Some idx) /\
        slot (joined g idx client_fd r c) idx
          = mkPlayer (symbol (slot g idx)) r c MAX_HP client_fd true /\
        (forall q, q <> idx -> slot (joined g idx client_fd r c) q = slot g q) /\
        player_count (joined g idx client_fd r c) = player_count g + 1 /\
        broadcasts
          (broadcast_state_locked fails (joined g idx client_fd r c)).2 = 1%nat)) /\
  (player_count g < Z.of_nat MAX_PLAYERS -> find_free_slot g = None ->
   accept_client g client_fd draws fails
     = Some (g, [EvSend client_fd (Text msg_no_slot); EvClose client_fd], None)).
Proof.
  intros Hwf Hdraws.
  pose proof (accept_client_cases g client_fd draws fails Hwf Hdraws) as Hcases.
  split; [|split; [|split]].
  - intros Hfull.
    destruct Hcases as [(_ & H)|[(Hlt & _)|(Hlt & _)]]; [done|lia|lia].
  - intros Hroom Hcount. by apply free_slot_exists.
  - intros Hroom idx Hfind.
    destruct (find_free_slot_spec g idx Hfind) as (Hidx & Hfree & Hmin).
    split; [done|]. split; [done|]. split; [done|].
    intros Hreach%reaches_admissible_named.
    destruct Hcases as [(Hge & _)|[(_ & Hnone & _)|(_ & idx' & Hfind' & Hres)]];
      [lia|congruence|].
    assert (idx' = idx) as -> by congruence.
    destruct Hres as [(Hno & _)|(_ & r & c & Hb & Hadm & Hacc)]; [congruence|].
    exists r, c. apply admissible_spec in Hadm as [Ho Hfreecell]; [|done].
    split; [done|]. split; [done|]. split; [done|]. split; [done|].
    split; [apply joined_slot; by rewrite Hwf|].
    split; [|split; [done|]].
    + intros q Hq. unfold joined. by rewrite slot_add_count, slot_upd_slot_ne.
    + by apply broadcast_once, joined_well_formed.
  - intros Hroom Hnone.
    destruct Hcases as [(Hge & _)|[(_ & _ & H)|(_ & idx & Hfind & _)]];
      [lia|done|congruence].
Qed.

(** The world reached by the run [full_house]: four occupied slots, the
    counter at 3, and a join that finds no free slot. *)
Lemma full_house_world :
  exists w, boot demo_draws full_house = Some w /\ reachable w /\
     player_count (game w) = 3 /\ occupied_count (game w) = 4 /\
     accept_client (game w) 9 [1; 2] no_failure
       = Some (game w, [EvSend 9 (Text msg_no_slot); EvClose 9], None).
Proof.
  eexists. split; [vm_compute; reflexivity|]. split.
  - apply (boot_reachable demo_draws full_house). vm_compute. reflexivity.
  - vm_compute. repeat split; reflexivity.
Qed.

(** C7 as stated does not hold.  The run [full_house] reaches a world
    with all four slots occupied and the counter at 3 (the counter was
    decremented twice for the same slot).  A join there sends 'Server
    error: no slot available.' and takes no slot: neither what the claim
    says for a counter below [MAX_PLAYERS], nor, reading
    [countOccupied()] as the number of occupied flags, the 'Server
    full' reply it says for four occupied slots. *)
Lemma join_counterexample :
  (exists w, boot demo_draws full_house = Some w /\ reachable w /\
     player_count (game w) = 3 /\ occupied_count (game w) = 4 /\
     accept_client (game w) 9 [1; 2] no_failure
       = Some (game w, [EvSend 9 (Text msg_no_slot); EvClose 9], None)) /\
  ~ join_as_stated player_count /\ ~ join_as_stated occupied_count.
Proof.
  destruct full_house_world as (w & Hboot & Hreach & Hcnt & Hocc & Hjoin).
  assert (Hwf : well_formed (game w)) by exact (proj1 (reachable_sound w Hreach)).
  assert (Hdraws : Forall rand_ok [1; 2])
    by (repeat constructor; unfold rand_ok, RAND_MAX; lia).
  split; [exists w; exact (conj Hboot (conj Hreach (conj Hcnt (conj Hocc Hjoin))))|].
  split.
  - intros Hclaim.
    destruct (Hclaim (game w) 9 [1; 2] no_failure Hwf ltac:(lia) Hdraws)
      as [_ Hroom].
    assert (Hlt : player_count (game w) < Z.of_nat MAX_PLAYERS)
      by (rewrite Hcnt; unfold MAX_PLAYERS; lia).
    destruct (Hroom Hlt _ Hjoin) as (idx & r & c & _ & _ & _ & Hres).
    injection Hres as _ Hnone. discriminate Hnone.
  - intros Hclaim.
    destruct (Hclaim (game w) 9 [1; 2] no_failure Hwf ltac:(lia) Hdraws)
      as [Hfull _].
    assert (Heq : occupied_count (game w) = Z.of_nat MAX_PLAYERS)
      by (rewrite Hocc; reflexivity).
    rewrite (Hfull Heq) in Hjoin.
    injection Hjoin as Hmsg. discriminate Hmsg.
Qed.
(** *** Rejection sampling *)

Lemma place_obstacles_terminates draws :
  forall obs k n,
    is_Some (place_obstacles obs k n draws)
    <-> n - k <= Z.of_nat (fresh_cells obs draws).
Proof.
  induction draws as [| d | d1 d2 rest IH] using pairs_ind; intros obs k n.
  - simpl. destruct (Z.ltb_spec k n); split; try lia; try (by intros [? ?]).
    by eexists.
  - simpl. destruct (Z.ltb_spec k n); split; try lia; try (by intros [? ?]).
    by eexists.
  - cbn [place_obstacles fresh_cells].
    destruct (Z.ltb_spec k n) as [Hlt|Hge].
    + destruct (obstacle_at obs _ _ =? 1).
      * rewrite IH. lia.
      * rewrite IH. lia.
    + split; [|by eexists]. intros _. lia.
Qed.

Lemma main_init_terminates d rest :
  is_Some (main_init (d :: rest))
  <-> 3 + Z.rem d 3 <= Z.of_nat (fresh_cells empty_grid rest).
Proof.
  trans (is_Some (place_obstacles empty_grid 0 (3 + Z.rem d 3) rest)).
  - unfold main_init. cbv zeta. destruct (place_obstacles _ _ _ _); simpl.
    + split; intros _; by eexists.
    + split; by intros [? ?].
  - rewrite place_obstacles_terminates. lia.
Qed.

Lemma place_obstacles_stuck draws :
  Forall (fun d => d = 0) draws ->
  forall obs k n, obstacle_at obs 0 0 = 1 -> k < n ->
  place_obstacles obs k n draws = None.
Proof.
  induction draws as [| d | d1 d2 rest IH] using pairs_ind;
    intros Hz obs k n Hobs Hlt; cbn [place_obstacles];
    rewrite (proj2 (Z.ltb_lt k n) Hlt); try done.
  apply Forall_cons in Hz as [-> Hz]. apply Forall_cons in Hz as [-> Hz].
  change (Z.rem 0 GRID_SIZE) with 0. rewrite Hobs. simpl.
  apply IH; [done|done|lia].
Qed.

Lemma first_draws_zero (n : nat) :
  Forall (fun d => d = 0) (first_draws (fun _ => 0) n).
Proof. unfold first_draws. apply Forall_fmap, Forall_forall. done. Qed.

Lemma main_init_stuck draws :
  Forall (fun d => d = 0) draws -> main_init draws = None.
Proof.
  intros Hz. destruct draws as [|d rest]; [done|].
  apply Forall_cons in Hz as [-> Hz].
  assert (place_obstacles empty_grid 0 (3 + Z.rem 0 3) rest = None) as Hplace.
  { destruct rest as [|d1 [|d2 rest]]; [done|done|].
    apply Forall_cons in Hz as [-> Hz]. apply Forall_cons in Hz as [-> Hz].
    cbn [place_obstacles].
    change (0 <? 3 + Z.rem 0 3) with true. cbv iota.
    change (obstacle_at empty_grid (Z.rem 0 GRID_SIZE) (Z.rem 0 GRID_SIZE) =? 1)
      with false. cbv iota.
    apply place_obstacles_stuck; [done|done|]. vm_compute. done. }
  unfold main_init. cbv zeta. by rewrite Hplace.
Qed.

Lemma spawn_position_stuck idx draws :
  Forall (fun d => d = 0) draws ->
  forall g, (idx < length (players g))%nat ->
  obstacle_at (obstacles g) 0 0 = 1 ->
  spawn_position idx g draws = None.
Proof.
  intros Hz g Hidx Hobs.
  destruct (spawn_position idx g draws) as [g'|] eqn:Hs; [|done].
  exfalso.
  assert (reaches_admissible g idx draws = true) as Hr.
  { apply spawn_position_terminates; [done|]. by rewrite Hs. }
  clear Hs g'. revert Hr.
  induction draws as [| d | d1 d2 rest IH] using pairs_ind; simpl; try done.
  apply Forall_cons in Hz as [-> Hz]. apply Forall_cons in Hz as [-> Hz].
  change (Z.rem 0 GRID_SIZE) with 0. unfold admissible at 1.
  rewrite Hobs. simpl. by apply IH.
Qed.

(** Counting cells *)

Lemma NoDup_cells : NoDup cells.
Proof. apply (bool_decide_eq_true_1 _). by vm_compute. Qed.

Lemma length_cells : length cells = 25%nat.
Proof. reflexivity. Qed.

Lemma elem_of_cells (r c : Z) : (r, c) ∈ cells <-> in_bounds r c.
Proof.
  unfold cells, in_bounds. rewrite list_elem_of_In, in_prod_iff.
  rewrite <- !list_elem_of_In, !elem_of_seqZ. unfold GRID_SIZE. lia.
Qed.

Lemma filter_length_split {A : Type} (f : A -> bool) (l : list A) :
  (length (List.filter f l) + length (List.filter (fun x => negb (f x)) l)
   = length l)%nat.
Proof.
  induction l as [|x l IH]; [done|]. simpl. destruct (f x); simpl; lia.
Qed.

Lemma filter_length_or {A : Type} (f h : A -> bool) (l : list A) :
  (length (List.filter (fun x => f x || h x) l)
   <= length (List.filter f l) + length (List.filter h l))%nat.
Proof.
  induction l as [|x l IH]; [done|]. simpl.
  destruct (f x), (h x); simpl; lia.
Qed.

Lemma filter_length_le {A : Type} (f : A -> bool) (l : list A) :
  (length (List.filter f l) <= length l)%nat.
Proof. induction l as [|x l IH]; [done|]. simpl. destruct (f x); simpl; lia. Qed.

Lemma NoDup_filter_list {A : Type} (f : A -> bool) (l : list A) :
  NoDup l -> NoDup (List.filter f l).
Proof. rewrite !NoDup_ListNoDup. apply List.NoDup_filter. Qed.

Lemma elem_of_filter_list {A : Type} (f : A -> bool) (l : list A) (x : A) :
  x ∈ List.filter f l <-> x ∈ l /\ f x = true.
Proof. by rewrite !list_elem_of_In, List.filter_In. Qed.

(** The cells held by other occupied slots are no more than those
    slots. *)
Lemma taken_cells_le g idx :
  (length (List.filter (fun rc => occupied_by_other g idx rc.1 rc.2) cells)
   <= length (others g idx))%nat.
Proof.
  rewrite <- (length_fmap (fun q => (row (slot g q), col (slot g q)))
                (others g idx)).
  apply submseteq_length, NoDup_submseteq.
  { apply NoDup_filter_list, NoDup_cells. }
  intros [r c] [_ Hocc]%elem_of_filter_list. simpl in Hocc.
  unfold occupied_by_other in Hocc. apply existsb_exists in Hocc
    as (q & Hq & Hocc).
  apply andb_prop in Hocc as [Hocc Hc]. apply andb_prop in Hocc as [Hocc Hr].
  apply Z.eqb_eq in Hr, Hc. subst r c.
  apply list_elem_of_fmap. exists q. split; [done|].
  apply elem_of_filter_list. split; [by apply list_elem_of_In|done].
Qed.

(** With at most five obstacles and at most three other occupied
    slots, at least 17 of the 25 cells pass the test of the placement
    loop. *)
Lemma admissible_cells_count g idx :
  (obstacle_count (obstacles g) <= 5)%nat ->
  (length (others g idx) <= 3)%nat ->
  (17 <= length (admissible_cells g idx))%nat.
Proof.
  intros Hobs Hoth.
  pose proof (filter_length_split (fun rc => admissible g idx rc.1 rc.2) cells)
    as Hsplit.
  rewrite length_cells in Hsplit. fold (admissible_cells g idx) in Hsplit.
  assert (length (List.filter
                    (fun rc => negb (admissible g idx rc.1 rc.2)) cells)
          <= 8)%nat; [|lia].
  rewrite (List.filter_ext _
             (fun rc => is_obstacle_cell (obstacles g) rc
                        || occupied_by_other g idx rc.1 rc.2)).
  2:{ intros [r c]. unfold admissible, is_obstacle_cell. simpl.
      by rewrite negb_andb, !negb_involutive. }
  etrans; [apply filter_length_or|].
  pose proof (taken_cells_le g idx). unfold obstacle_count in Hobs. lia.
Qed.

Lemma others_le g idx :
  (idx < MAX_PLAYERS)%nat -> (length (others g idx) <= 3)%nat.
Proof.
  intros Hidx. unfold others.
  pose proof (filter_length_split
                (fun q => active (slot g q) && negb (q =? idx)%nat) slots) as Hs.
  change (length slots) with 4%nat in Hs.
  assert (1 <= length (List.filter
                 (fun q => negb (active (slot g q) && negb (q =? idx)%nat))
                 slots))%nat; [|lia].
  assert (idx ∈ List.filter
            (fun q => negb (active (slot g q) && negb (q =? idx)%nat)) slots)
    as Hin.
  { apply elem_of_filter_list. split; [by apply elem_of_slots|].
    by rewrite Nat.eqb_refl, andb_false_r. }
  apply list_elem_of_lookup in Hin as [k Hk]. apply lookup_lt_Some in Hk. lia.
Qed.

Lemma admissible_cell_ends_loop g idx r c :
  (idx < length (players g))%nat ->
  (r, c) ∈ admissible_cells g idx ->
  in_bounds r c /\ admissible g idx r c = true /\
  spawn_position idx g [r; c] = Some (placed g idx r c).
Proof.
  intros Hidx [Hcell Hadm]%elem_of_filter_list. simpl in Hadm.
  apply elem_of_cells in Hcell as Hb. split; [done|]. split; [done|].
  assert (Z.rem r GRID_SIZE = r /\ Z.rem c GRID_SIZE = c) as [Hr Hc].
  { unfold in_bounds, GRID_SIZE in *. split; apply Z.rem_small; lia. }
  assert (is_Some (spawn_position idx g [r; c])) as [g' Hg'].
  { apply spawn_position_terminates; [done|]. simpl. by rewrite Hr, Hc, Hadm. }
  rewrite Hg'. f_equal. simpl in Hg'. rewrite placed_spec, Hr, Hc in Hg'.
  destruct (_ || _); [done|]. by injection Hg' as <-.
Qed.

(** The grid under [set_obstacle] *)

Lemma grid_ok_empty : grid_ok empty_grid.
Proof. split; [done|]. by repeat constructor. Qed.

Lemma grid_ok_set obs r c : grid_ok obs -> grid_ok (set_obstacle obs r c).
Proof.
  intros [Hlen Hrows]. unfold set_obstacle.
  destruct (obs !! Z.to_nat r) as [line|] eqn:Hline; simpl.
  - split; [by rewrite length_insert|].
    apply Forall_insert; [done|]. rewrite length_insert.
    by eapply Forall_lookup_1 in Hrows.
  - apply lookup_ge_None in Hline. by rewrite list_insert_ge.
Qed.

Lemma obstacle_at_set obs r c r' c' :
  grid_ok obs -> in_bounds r c -> in_bounds r' c' ->
  obstacle_at (set_obstacle obs r c) r' c' =
  if decide (r = r' /\ c = c') then 1 else obstacle_at obs r' c'.
Proof.
  intros [Hlen Hrows] [Hr Hc] [Hr' Hc']. unfold GRID_SIZE in *.
  unfold obstacle_at, set_obstacle.
  destruct (lookup_lt_is_Some_2 obs (Z.to_nat r)) as [line Hline]; [lia|].
  rewrite Hline. simpl.
  assert (length line = 5%nat) as Hll.
  { by eapply Forall_lookup_1 in Hrows. }
  destruct (decide (r = r')) as [<-|Hne].
  - rewrite list_lookup_insert_eq by lia. simpl.
    destruct (decide (c = c')) as [<-|Hnec].
    + rewrite list_lookup_insert_eq by lia. by rewrite decide_True.
    + rewrite list_lookup_insert_ne by lia. rewrite decide_False by tauto.
      by rewrite Hline.
  - rewrite list_lookup_insert_ne by lia. by rewrite decide_False by tauto.
Qed.

Lemma filter_length_flip {A : Type} `{EqDecision A} (f f' : A -> bool)
    (l : list A) (x : A) :
  NoDup l -> x ∈ l -> f x = false -> f' x = true ->
  (forall y, y ∈ l -> y <> x -> f' y = f y) ->
  length (List.filter f' l) = S (length (List.filter f l)).
Proof.
  intros Hnd Hx Hfx Hf'x Hsame.
  induction Hnd as [|y l Hy Hnd IH]; [by apply elem_of_nil in Hx|].
  simpl. destruct (decide (y = x)) as [->|Hne].
  - rewrite Hfx, Hf'x. simpl. f_equal. f_equal.
    apply List.filter_ext_in. intros z Hz%list_elem_of_In.
    apply Hsame; [by right|]. by intros ->.
  - apply elem_of_cons in Hx as [->|Hx]; [done|].
    rewrite (Hsame y) by (done || left).
    destruct (f y); simpl; rewrite IH; try done;
      intros z Hz; apply Hsame; by right.
Qed.

Lemma obstacle_count_set obs r c :
  grid_ok obs -> in_bounds r c -> obstacle_at obs r c <> 1 ->
  obstacle_count (set_obstacle obs r c) = S (obstacle_count obs).
Proof.
  intros Hok Hb Hfree. unfold obstacle_count.
  apply (filter_length_flip _ _ _ (r, c)).
  - apply NoDup_cells.
  - by apply elem_of_cells.
  - unfold is_obstacle_cell. simpl. by apply Z.eqb_neq.
  - unfold is_obstacle_cell. simpl.
    rewrite obstacle_at_set by done. by rewrite decide_True.
  - intros [r' c'] Hin%elem_of_cells Hne. unfold is_obstacle_cell. simpl.
    rewrite obstacle_at_set by done. rewrite decide_False; [done|].
    intros [-> ->]. done.
Qed.

Lemma place_obstacles_count draws :
  Forall rand_ok draws ->
  forall obs k n obs', grid_ok obs -> k <= n ->
  place_obstacles obs k n draws = Some obs' ->
  grid_ok obs' /\
  Z.of_nat (obstacle_count obs') = Z.of_nat (obstacle_count obs) + (n - k).
Proof.
  induction draws as [| d | d1 d2 rest IH] using pairs_ind;
    intros Hok obs k n obs' Hgrid Hle; cbn [place_obstacles];
    destruct (Z.ltb_spec k n) as [Hlt|Hge]; try done;
    try (intros [= <-]; split; [done|lia]).
  inversion Hok as [|? ? Hd1 Hok1]; subst.
  inversion Hok1 as [|? ? Hd2 Hok2]; subst.
  pose proof (rem_in_bounds d1 d2 Hd1 Hd2) as Hb.
  destruct (Z.eqb_spec (obstacle_at obs (Z.rem d1 GRID_SIZE)
                          (Z.rem d2 GRID_SIZE)) 1) as [Hhit|Hfree].
  - intros Hrec.
    destruct (IH Hok2 obs (k - 1 + 1) n obs' Hgrid ltac:(lia) Hrec) as [? ?].
    split; [done|lia].
  - intros Hrec.
    destruct (IH Hok2 _ (k + 1) n obs' (grid_ok_set _ _ _ Hgrid) ltac:(lia) Hrec)
      as [? Hcnt].
    split; [done|]. rewrite obstacle_count_set in Hcnt by done. lia.
Qed.

Lemma main_init_count d rest g :
  rand_ok d -> Forall rand_ok rest ->
  main_init (d :: rest) = Some g ->
  Z.of_nat (obstacle_count (obstacles g)) = 3 + Z.rem d 3 /\
  (3 <= obstacle_count (obstacles g) <= 5)%nat.
Proof.
  intros Hd Hrest. unfold main_init.
  destruct (place_obstacles _ _ _ _) as [obs|] eqn:Hplace; [|done].
  simpl. intros [= <-]. simpl.
  assert (0 <= Z.rem d 3 < 3) as Hrem
    by (apply Z.rem_bound_pos; unfold rand_ok in Hd; lia).
  destruct (place_obstacles_count rest Hrest empty_grid 0 (3 + Z.rem d 3) obs
              grid_ok_empty ltac:(lia) Hplace) as [_ Hcnt].
  change (obstacle_count empty_grid) with 0%nat in Hcnt. lia.
Qed.


(** *** Distinct cells *)

Lemma elem_of_obstacle_set obs r c :
  (r, c) ∈ obstacle_set obs <-> in_bounds r c /\ obstacle_at obs r c = 1.
Proof.
  unfold obstacle_set. rewrite elem_of_list_to_set, elem_of_filter_list.
  rewrite elem_of_cells. unfold is_obstacle_cell. simpl.
  by rewrite Z.eqb_eq.
Qed.

Lemma obstacle_set_empty : obstacle_set empty_grid = ∅.
Proof.
  unfold obstacle_set.
  assert (List.filter (is_obstacle_cell empty_grid) cells = []) as ->
    by (by vm_compute).
  done.
Qed.

Lemma obstacle_set_set obs r c :
  grid_ok obs -> in_bounds r c ->
  obstacle_set (set_obstacle obs r c) = obstacle_set obs ∪ {[(r, c)]}.
Proof.
  intros Hok Hb. apply set_eq. intros [r' c'].
  rewrite elem_of_union, elem_of_singleton, !elem_of_obstacle_set.
  split.
  - intros [Hb' Ho]. rewrite obstacle_at_set in Ho by done.
    case_decide as H; [right; by destruct H as [-> ->]|by left].
  - intros [[Hb' Ho]|[= -> ->]].
    + split; [done|]. rewrite obstacle_at_set by done. by case_decide.
    + split; [done|]. rewrite obstacle_at_set by done.
      by rewrite decide_True.
Qed.

Lemma difference_skip (x : Z * Z) (N O : gset (Z * Z)) :
  x ∈ O -> ({[x]} ∪ N) ∖ O = N ∖ O.
Proof.
  intros Hx. apply set_eq. intros y.
  rewrite !elem_of_difference, elem_of_union, elem_of_singleton.
  split; [|tauto]. intros [[->|Hy] Hn]; [done|by split].
Qed.

Lemma difference_take (x : Z * Z) (N O : gset (Z * Z)) :
  x ∉ O -> ({[x]} ∪ N) ∖ O = {[x]} ∪ (N ∖ (O ∪ {[x]})).
Proof.
  intros Hx. apply set_eq. intros y.
  rewrite !elem_of_difference, !elem_of_union, !elem_of_difference,
    !elem_of_union, !elem_of_singleton.
  destruct (decide (y = x)) as [->|Hne]; tauto.
Qed.

Lemma size_take (x : Z * Z) (N O : gset (Z * Z)) :
  size ({[x]} ∪ (N ∖ (O ∪ {[x]}))) = S (size (N ∖ (O ∪ {[x]}))).
Proof.
  rewrite size_union, size_singleton; [done|].
  apply disjoint_singleton_l.
  rewrite elem_of_difference, elem_of_union, elem_of_singleton. tauto.
Qed.

Lemma fresh_cells_distinct draws :
  Forall rand_ok draws ->
  forall obs, grid_ok obs ->
  fresh_cells obs draws
  = size (list_to_set (named_cells draws) ∖ obstacle_set obs).
Proof.
  induction draws as [| d | d1 d2 rest IH] using pairs_ind;
    intros Hok obs Hgrid; cbn [fresh_cells named_cells].
  - rewrite list_to_set_nil, difference_disjoint_L by apply disjoint_empty_l.
    by rewrite size_empty.
  - rewrite list_to_set_nil, difference_disjoint_L by apply disjoint_empty_l.
    by rewrite size_empty.
  - apply Forall_cons in Hok as [Hd1 Hok]. apply Forall_cons in Hok as [Hd2 Hok].
    pose proof (rem_in_bounds d1 d2 Hd1 Hd2) as Hb.
    set (r := Z.rem d1 GRID_SIZE) in *. set (c := Z.rem d2 GRID_SIZE) in *.
    rewrite list_to_set_cons.
    destruct (Z.eqb_spec (obstacle_at obs r c) 1) as [Hhit|Hfree].
    + rewrite IH by done. f_equal. symmetry. apply difference_skip.
      by apply elem_of_obstacle_set.
    + rewrite IH by (done || by apply grid_ok_set).
      rewrite obstacle_set_set by done.
      rewrite difference_take, size_take; [done|].
      rewrite elem_of_obstacle_set. tauto.
Qed.

(** Start-up returns exactly when the draws that follow the first name
    at least as many distinct cells as obstacles are wanted. *)
Lemma main_init_terminates_distinct d rest :
  Forall rand_ok rest ->
  is_Some (main_init (d :: rest))
  <-> 3 + Z.rem d 3 <= Z.of_nat (distinct_cells rest).
Proof.
  intros Hrest. rewrite main_init_terminates.
  rewrite fresh_cells_distinct by (done || apply grid_ok_empty).
  by rewrite obstacle_set_empty, difference_empty_L.
Qed.

(** *** Streams of draws *)

Lemma named_cells_stream rand m : forall a,
  named_cells (rand <$> seq a (2 * m)) = pair_cell rand a <$> seq 0 m.
Proof.
  induction m as [|m IH]; intros a; [done|].
  replace (2 * S m)%nat with (S (S (2 * m))) by lia.
  cbn [seq fmap list_fmap named_cells]. rewrite IH. f_equal.
  - unfold pair_cell. by rewrite Nat.mul_0_r, Nat.add_0_r, Nat.add_1_r.
  - rewrite <- fmap_S_seq, <- list_fmap_compose.
    apply list_fmap_ext. intros _ k _. unfold pair_cell, compose.
    f_equal; f_equal; f_equal; lia.
Qed.

Lemma stream_names rand a k m :
  (k < m)%nat -> pair_cell rand a k ∈ named_cells (rand <$> seq a (2 * m)).
Proof.
  intros Hk. rewrite named_cells_stream. apply list_elem_of_fmap.
  exists k. split; [done|]. apply elem_of_seq. lia.
Qed.

Lemma named_cells_more rand a m m' :
  (m <= m')%nat ->
  named_cells (rand <$> seq a (2 * m)) ⊆ named_cells (rand <$> seq a (2 * m')).
Proof.
  intros Hle x. rewrite !named_cells_stream, !list_elem_of_fmap.
  intros (k & -> & Hk%elem_of_seq). exists k. split; [done|].
  apply elem_of_seq. lia.
Qed.

Lemma Forall_first_draws rand a n :
  (forall n, rand_ok (rand n)) -> Forall rand_ok (rand <$> seq a n).
Proof. intros Hok. apply Forall_fmap, Forall_forall. intros k _. apply Hok. Qed.

(** A stream that names every cell of the grid brings the placement
    loop of a join to its end. *)
Lemma spawn_position_on_stream g idx rand :
  well_formed g -> (idx < MAX_PLAYERS)%nat ->
  (obstacle_count (obstacles g) <= 5)%nat ->
  (length (others g idx) <= 3)%nat ->
  (forall n, rand_ok (rand n)) -> names_every_cell rand 0 ->
  exists n r c,
    in_bounds r c /\ admissible g idx r c = true /\
    spawn_position idx g (first_draws rand n) = Some (placed g idx r c).
Proof.
  intros Hwf Hidx Hobs Hoth Hok Hsweep.
  assert (Hlt : (idx < length (players g))%nat) by (by rewrite Hwf).
  pose proof (admissible_cells_count g idx Hobs Hoth) as Hmany.
  destruct (admissible_cells g idx) as [|[r0 c0] rest] eqn:Hcells;
    [simpl in Hmany; lia|].
  destruct (admissible_cell_ends_loop g idx r0 c0 Hlt) as (Hb0 & Hadm0 & _).
  { rewrite Hcells. left. }
  destruct (Hsweep r0 c0 Hb0) as [k Hk].
  set (draws := first_draws rand (2 * S k)).
  assert (Hdraws : Forall rand_ok draws) by (by apply Forall_first_draws).
  assert (is_Some (spawn_position idx g draws)) as [g' Hg'].
  { apply spawn_position_terminates; [done|].
    apply reaches_admissible_named. exists r0, c0. split; [|done].
    rewrite <- Hk. apply stream_names. lia. }
  destruct (spawn_position_spec idx draws Hdraws g g' Hlt Hg')
    as (r & c & Hb & Hadm & ->).
  by exists (2 * S k)%nat, r, c.
Qed.

(** A stream that names every cell of the grid after its first value
    brings start-up to its end. *)
Lemma main_init_on_stream rand :
  (forall n, rand_ok (rand n)) -> names_every_cell rand 1 ->
  exists n g0,
    main_init (first_draws rand n) = Some g0 /\
    (3 <= obstacle_count (obstacles g0) <= 5)%nat.
Proof.
  intros Hok Hsweep.
  assert (Hrow : forall c, 0 <= c < GRID_SIZE ->
            exists k, pair_cell rand 1 k = (0, c)).
  { intros c Hc. apply Hsweep. split; [by unfold GRID_SIZE|done]. }
  destruct (Hrow 0) as [k0 H0]; [by unfold GRID_SIZE|].
  destruct (Hrow 1) as [k1 H1]; [by unfold GRID_SIZE|].
  destruct (Hrow 2) as [k2 H2]; [by unfold GRID_SIZE|].
  destruct (Hrow 3) as [k3 H3]; [by unfold GRID_SIZE|].
  destruct (Hrow 4) as [k4 H4]; [by unfold GRID_SIZE|].
  set (m := S (k0 + k1 + k2 + k3 + k4)).
  set (rest := rand <$> seq 1 (2 * m)).
  assert (Hrest : Forall rand_ok rest) by (by apply Forall_first_draws).
  assert (Hfive : (5 <= distinct_cells rest)%nat).
  { unfold distinct_cells.
    assert (Hsub : (list_to_set [(0, 0); (0, 1); (0, 2); (0, 3); (0, 4)]
                      : gset (Z * Z)) ⊆ list_to_set (named_cells rest)).
    { intros x. rewrite !elem_of_list_to_set.
      rewrite !elem_of_cons, elem_of_nil.
      intros [->|[->|[->|[->|[->|[]]]]]];
        [rewrite <- H0|rewrite <- H1|rewrite <- H2|rewrite <- H3|rewrite <- H4];
        apply stream_names; unfold m; lia. }
    apply subseteq_size in Hsub. rewrite size_list_to_set in Hsub; [done|].
    apply (bool_decide_eq_true_1 _). by vm_compute. }
  assert (Hd : rand_ok (rand 0%nat)) by apply Hok.
  assert (0 <= Z.rem (rand 0%nat) 3 < 3) as Hrem
    by (apply Z.rem_bound_pos; unfold rand_ok in Hd; lia).
  assert (is_Some (main_init (rand 0%nat :: rest))) as [g0 Hg0].
  { apply main_init_terminates_distinct; [done|]. lia. }
  exists (S (2 * m)), g0. split; [exact Hg0|].
  by destruct (main_init_count _ _ _ Hd Hrest Hg0).
Qed.

(** C9.  The rejection-sampling loops terminate.  The values of [rand]
    are an input here, so a loop terminates when it returns on a prefix
    of the stream of values.  For every stream that names every cell of
    the grid at some pair of draws, obstacle initialisation returns,
    with 3 to 5 obstacles on the grid, and spawn placement returns, with
    the slot on an admissible cell, in every state with at most 5
    obstacles and at most 3 other occupied slots: there, at least 17 of
    the 25 cells are neither an obstacle nor held by another occupied
    slot, and drawing any of them ends the loop at once.  In terms of
    the draws alone: obstacle initialisation returns on the draws [d ::
    rest] if and only if [rest] names at least [3 + d mod 3] distinct
    cells, and spawn placement returns on [draws] if and only if they
    come upon an admissible cell. *)
Theorem sampling_terminates_when_draws_allow (g : Game) (idx : nat)
    (d : Z) (rest draws : list Z) :
  well_formed g -> (idx < MAX_PLAYERS)%nat ->
  (obstacle_count (obstacles g) <= 5)%nat ->
  (length (others g idx) <= 3)%nat ->
  rand_ok d -> Forall rand_ok rest ->
  (forall rand : nat -> Z,
     (forall n, rand_ok (rand n)) -> names_every_cell rand 1 ->
     exists n g0, main_init (first_draws rand n) = Some g0 /\
                  (3 <= obstacle_count (obstacles g0) <= 5)%nat) /\
  (forall rand : nat -> Z,
     (forall n, rand_ok (rand n)) -> names_every_cell rand 0 ->
     exists n r c,
       in_bounds r c /\ admissible g idx r c = true /\
       spawn_position idx g (first_draws rand n) = Some (placed g idx r c)) /\
  (is_Some (main_init (d :: rest))
   <-> 3 + Z.rem d 3 <= Z.of_nat (distinct_cells rest)) /\
  (forall g0, main_init (d :: rest) = Some g0 ->
     Z.of_nat (obstacle_count (obstacles g0)) = 3 + Z.rem d 3 /\
     (3 <= obstacle_count (obstacles g0) <= 5)%nat) /\
  (is_Some (spawn_position idx g draws)
   <-> exists r c, (r, c) ∈ named_cells draws /\ admissible g idx r c = true) /\
  (17 <= length (admissible_cells g idx))%nat /\
  (forall r c, (r, c) ∈ admissible_cells g idx ->
     in_bounds r c /\ obstacle_at (obstacles g) r c <> 1 /\
     ~ cell_taken g idx r c /\
     spawn_position idx g [r; c] = Some (placed g idx r c)).
Proof.
  intros Hwf Hidx Hobs Hoth Hd Hrest.
  assert (Hlt : (idx < length (players g))%nat) by (by rewrite Hwf).
  split; [exact main_init_on_stream|].
  split; [intros rand; by apply spawn_position_on_stream|].
  split; [by apply main_init_terminates_distinct|].
  split; [intros g0; by apply main_init_count|].
  split; [by rewrite spawn_position_terminates, reaches_admissible_named|].
  split; [by apply admissible_cells_count|].
  intros r c Hin.
  destruct (admissible_cell_ends_loop g idx r c Hlt Hin) as (Hb & Hadm & Hs).
  apply admissible_spec in Hadm as [Ho Hfree]; done.
Qed.

(** Why the stream appears in the statement: a sequence of values that
    names one cell for ever, which a pseudo-random generator does not
    return, keeps both loops running.  With every value 0, obstacle
    initialisation places (0,0) and re-rolls it from then on, and the
    placement loop of a join re-rolls the obstacle (0,0), in the state
    [demo_game]. *)
Lemma constant_draws_never_return :
  ~ init_always_terminates /\ ~ spawn_always_terminates.
Proof.
  assert (Hrand : forall n : nat, rand_ok ((fun _ => 0) n))
    by (intros _; unfold rand_ok, RAND_MAX; lia).
  split.
  - intros Hclaim. destruct (Hclaim (fun _ => 0) Hrand) as [n [g Hg]].
    by rewrite main_init_stuck in Hg by apply first_draws_zero.
  - intros Hclaim.
    destruct (Hclaim (fun _ => 0) demo_game 0%nat Hrand) as [n [g' Hg']].
    + reflexivity.
    + unfold MAX_PLAYERS. lia.
    + vm_compute. lia.
    + vm_compute. lia.
    + rewrite spawn_position_stuck in Hg'; [done| |simpl; lia|done].
      apply first_draws_zero.
Qed.

(** *** The counter is kept by every step but a late leave *)

Lemma occupied_count_slots g :
  well_formed g ->
  occupied_count g
  = Z.of_nat (length (List.filter (fun q => active (slot g q)) slots)).
Proof.
  destruct g as [ps n obs]. unfold well_formed, occupied_count, slot. simpl.
  destruct ps as [|p0 [|p1 [|p2 [|p3 [|? ?]]]]]; try done. intros _. simpl.
  by destruct (active p0), (active p1), (active p2), (active p3).
Qed.

Lemma filter_length_minus {A : Type} (a d : A -> bool) (l : list A) :
  (forall x, x ∈ l -> d x = true -> a x = true) ->
  (length (List.filter (fun x => a x && negb (d x)) l)
   + length (List.filter d l) = length (List.filter a l))%nat.
Proof.
  induction l as [|x l IH]; intros Hsub; [done|]. simpl.
  specialize (IH (fun y Hy => Hsub y (list_elem_of_further _ _ _ Hy))).
  pose proof (Hsub x (list_elem_of_here _ _)) as Hx.
  destruct (d x) eqn:Hd, (a x) eqn:Ha; simpl; first [lia | by specialize (Hx eq_refl)].
Qed.

(** A change that clears the flags of the slots selected by [d], all of
    them occupied, and lowers the counter by their number. *)
Lemma count_consistent_clear g g' (d : nat -> bool) :
  well_formed g -> well_formed g' ->
  (forall q, q ∈ slots -> d q = true -> active (slot g q) = true) ->
  (forall q, q ∈ slots ->
     active (slot g' q) = active (slot g q) && negb (d q)) ->
  player_count g'
    = player_count g - Z.of_nat (length (List.filter d slots)) ->
  count_consistent g -> count_consistent g'.
Proof.
  intros Hwf Hwf' Hsub Hflags Hcnt Hc. unfold count_consistent in *.
  rewrite occupied_count_slots in * by done. rewrite Hcnt, Hc.
  rewrite (List.filter_ext_in (fun q => active (slot g' q))
             (fun q => active (slot g q) && negb (d q))).
  2:{ intros q Hq%list_elem_of_In. by apply Hflags. }
  pose proof (filter_length_minus (fun q => active (slot g q)) d slots Hsub).
  lia.
Qed.

Lemma broadcast_count_consistent fails g :
  well_formed g -> count_consistent g ->
  count_consistent (broadcast_state_locked fails g).1.
Proof.
  intros Hwf Hc.
  destruct (broadcast_spec fails g Hwf) as (_ & _ & Hslot & Hcnt & _).
  apply (count_consistent_clear g _ (fun q => send_fails fails q (slot g q)));
    try done.
  - by apply broadcast_well_formed.
  - intros q _. unfold send_fails. by destruct (active (slot g q)).
  - intros q _. rewrite Hslot. unfold send_fails.
    destruct (active (slot g q)) eqn:Ha, (0 <=? socket_fd (slot g q)), (fails q);
      simpl; by rewrite ?Ha.
Qed.

Lemma attack_locked_count_consistent g i sockfd fails :
  well_formed g -> count_consistent g ->
  count_consistent (attack_locked g i sockfd fails).1.
Proof.
  intros Hwf Hc. rewrite attack_locked_scan.
  destruct (attack_scan_spec g i slots NoDup_slots (slots_in_range g Hwf))
    as (Hlen & Hobs & Hslot & Hcnt & _).
  destruct (attack_scan g i slots) as [[g1 hit] closed]. cbn [fst snd] in *.
  assert (Hwf1 : well_formed g1) by (unfold well_formed in *; congruence).
  assert (Hc1 : count_consistent g1).
  { apply (count_consistent_clear g _
             (fun q => is_target g i q && dies (slot g q))); try done.
    - intros q _ [Ht _]%andb_prop. by apply is_target_spec in Ht as [? _].
    - intros q Hq. rewrite Hslot, decide_True by done.
      unfold struck. destruct (is_target g i q) eqn:Ht; simpl.
      + apply is_target_spec in Ht as [Ha _].
        destruct (dies (slot g q)); simpl; by rewrite ?Ha.
      + by rewrite andb_true_r.
    - rewrite Hcnt. by rewrite filter_filter_and. }
  destruct hit; simpl; [|done].
  pose proof (broadcast_count_consistent fails g1 Hwf1 Hc1).
  by destruct (broadcast_state_locked fails g1).
Qed.

Lemma occupied_count_upd g i f :
  well_formed g -> (i < MAX_PLAYERS)%nat ->
  occupied_count (upd_slot i f g)
  = occupied_count g - Z.b2z (active (slot g i))
    + Z.b2z (active (f (slot g i))).
Proof.
  destruct g as [ps n obs]. unfold well_formed, occupied_count, upd_slot, slot.
  simpl. destruct ps as [|p0 [|p1 [|p2 [|p3 [|? ?]]]]]; try done.
  intros _ Hi. unfold MAX_PLAYERS in Hi.
  destruct i as [|[|[|[|i]]]]; try lia; simpl;
    destruct (active p0), (active p1), (active p2), (active p3);
    simpl; destruct (active (f _)); simpl; lia.
Qed.

Lemma occupied_count_out_of_range g i f :
  well_formed g -> ~ (i < MAX_PLAYERS)%nat -> upd_slot i f g = g.
Proof.
  intros Hwf Hi. unfold upd_slot.
  rewrite list_insert_ge by (rewrite Hwf; lia). by destruct g.
Qed.

Lemma remove_player_count_consistent g i :
  well_formed g -> active (slot g i) = true ->
  count_consistent g -> count_consistent (remove_player i g).
Proof.
  intros Hwf Ha Hc.
  assert (Hi : (i < MAX_PLAYERS)%nat).
  { destruct (decide (i < MAX_PLAYERS)%nat) as [|Hge]; [done|].
    rewrite slot_out_of_range in Ha; [done|]. rewrite Hwf. lia. }
  rewrite remove_player_spec by (by rewrite Hwf).
  unfold count_consistent in *. change (occupied_count (add_count _ ?x))
    with (occupied_count x).
  rewrite occupied_count_upd by done. rewrite Ha. simpl. lia.
Qed.

Lemma placed_count_consistent g i r c :
  well_formed g -> count_consistent g -> count_consistent (placed g i r c).
Proof.
  intros Hwf Hc. destruct (decide (i < MAX_PLAYERS)%nat) as [Hi|Hi].
  - unfold count_consistent, placed in *.
    rewrite occupied_count_upd by done. simpl. lia.
  - unfold placed. by rewrite occupied_count_out_of_range.
Qed.

Lemma joined_count_consistent g idx fd r c :
  well_formed g -> (idx < MAX_PLAYERS)%nat -> active (slot g idx) = false ->
  count_consistent g -> count_consistent (joined g idx fd r c).
Proof.
  intros Hwf Hi Ha Hc. unfold count_consistent, joined in *.
  change (occupied_count (add_count _ ?x)) with (occupied_count x).
  rewrite occupied_count_upd by done. rewrite Ha. simpl. lia.
Qed.

Lemma move_locked_count_consistent g i sockfd newR newC fails :
  well_formed g -> count_consistent g ->
  count_consistent (move_locked g i sockfd newR newC fails).1.
Proof.
  intros Hwf Hc.
  destruct (move_locked_cases g i sockfd newR newC fails Hwf)
    as [(_ & ->)|[(_ & _ & ->)|[(_ & _ & _ & ->)|(_ & _ & _ & ->)]]]; try done.
  apply broadcast_count_consistent; [by apply well_formed_placed|].
  by apply placed_count_consistent.
Qed.

Lemma quit_locked_count_consistent g i fails :
  well_formed g -> active (slot g i) = true ->
  count_consistent g -> count_consistent (quit_locked g i fails).1.
Proof.
  intros Hwf Ha Hc. unfold quit_locked.
  pose proof (broadcast_count_consistent fails (remove_player i g)
                (fades_well_formed _ _ (fades_remove_player g i) Hwf)
                (remove_player_count_consistent g i Hwf Ha Hc)).
  by destruct (broadcast_state_locked fails (remove_player i g)).
Qed.

Lemma recv_failed_count_consistent g i fails :
  well_formed g -> count_consistent g ->
  count_consistent (recv_failed g i fails).1.
Proof.
  intros Hwf Hc. unfold recv_failed.
  destruct (active (slot g i)) eqn:Ha; [|done].
  by apply quit_locked_count_consistent.
Qed.

Lemma thread_cleanup_count_consistent g i sockfd :
  well_formed g -> count_consistent g ->
  count_consistent (thread_cleanup g i sockfd).1.
Proof.
  intros Hwf Hc. unfold thread_cleanup. simpl.
  destruct (active (slot g i)) eqn:Ha; [|done].
  assert (Hi : (i < MAX_PLAYERS)%nat).
  { destruct (decide (i < MAX_PLAYERS)%nat) as [|Hge]; [done|].
    rewrite slot_out_of_range in Ha; [done|]. rewrite Hwf. lia. }
  unfold count_consistent in *.
  change (occupied_count (add_count _ ?x)) with (occupied_count x).
  rewrite occupied_count_upd by done. rewrite Ha. simpl. lia.
Qed.

Lemma accept_client_count_consistent g client_fd draws fails g' out idx :
  well_formed g -> Forall rand_ok draws -> count_consistent g ->
  accept_client g client_fd draws fails = Some (g', out, idx) ->
  count_consistent g'.
Proof.
  intros Hwf Hdraws Hc Hacc.
  destruct (accept_client_cases g client_fd draws fails Hwf Hdraws)
    as [(_ & H)|[(_ & _ & H)|(_ & i & Hfind & [(_ & H)|(_ & r & c & _ & _ & H)])]];
    rewrite H in Hacc; try done; try (by injection Hacc as <- _ _).
  destruct (find_free_slot_spec g i Hfind) as (Hi & Hfree & _).
  pose proof (broadcast_count_consistent fails (joined g i client_fd r c)
                (joined_well_formed g i client_fd r c Hwf)
                (joined_count_consistent g i client_fd r c Hwf Hi Hfree Hc)).
  destruct (broadcast_state_locked fails (joined g i client_fd r c)).
  by injection Hacc as <- _ _.
Qed.

(** Every step keeps the counter equal to the number of occupied flags,
    except the two late leaves. *)
Lemma exec_count_consistent w a w' out :
  exec w a = Some (w', out) -> ~ late_leave w a ->
  well_formed (game w) -> count_consistent (game w) ->
  count_consistent (game w').
Proof.
  intros Hexec Hlate Hwf Hc. unfold exec in Hexec.
  destruct a as [fd draws fails| | |k|k received fails|k fails|k fails|k].
  - destruct (spawning w); [done|].
    destruct (_ && _) eqn:Hpre; [|done].
    apply andb_prop in Hpre as [_ Hdraws%rand_okb_spec].
    destruct (accept_client _ _ _ _) as [[[g' o] idx]|] eqn:Hacc; [|done].
    injection Hexec as <- _. simpl.
    by eapply accept_client_count_consistent.
  - destruct (spawning w); [|done]. by injection Hexec as <- _.
  - destruct (spawning w) as [idx|] eqn:Hsp; [|done].
    injection Hexec as <- _. simpl.
    destruct (active (slot (game w) idx)) eqn:Ha.
    + by apply remove_player_count_consistent.
    + exfalso. apply Hlate. by exists idx.
  - destruct (threads w !! k) as [[i fd []]|]; try done.
    by injection Hexec as <- _.
  - destruct (threads w !! k) as [[i fd []]|] eqn:Ht; try done.
    destruct (move_request _ _ _) as [[newR newC]|] eqn:Hreq.
    { by injection Hexec as <- _. }
    assert (count_consistent (handle_line (game w) i fd received fails).1.1)
      as Hl.
    { unfold handle_line. unfold move_request in Hreq.
      destruct (parse_command _) as [|direction| | |] eqn:Hparse; cbn [fst];
        try done.
      - by rewrite Hreq.
      - by apply attack_locked_count_consistent.
      - destruct (active (slot (game w) i)) eqn:Ha.
        + by apply quit_locked_count_consistent.
        + exfalso. apply Hlate. eexists. by repeat split. }
    destruct (handle_line _ _ _ _ _) as [[g' o] continue].
    by injection Hexec as <- _.
  - destruct (threads w !! k) as [[i fd []]|]; try done.
    pose proof (recv_failed_count_consistent (game w) i fails Hwf Hc) as Hf.
    destruct (recv_failed _ _ _) as [g' o]. by injection Hexec as <- _.
  - destruct (threads w !! k) as [[i fd []]|]; try done.
    pose proof (move_locked_count_consistent (game w) i fd newR newC fails
                  Hwf Hc) as Hm.
    destruct (move_locked _ _ _ _ _ _) as [g' o]. by injection Hexec as <- _.
  - destruct (threads w !! k) as [[i fd []]|]; try done.
    pose proof (thread_cleanup_count_consistent (game w) i fd Hwf Hc) as Hf.
    destruct (thread_cleanup _ _ _) as [g' o]. by injection Hexec as <- _.
Qed.

Lemma main_init_count_consistent draws g :
  main_init draws = Some g -> count_consistent g.
Proof.
  intros H. destruct (main_init_players _ _ H) as [Hp Hn].
  unfold count_consistent, occupied_count. by rewrite Hn, Hp.
Qed.

Lemma reachable_tidy_reachable w : reachable_tidy w -> reachable w.
Proof.
  induction 1 as [draws g Hd Hinit|w a w' out _ IH _ Hexec].
  - by eapply reach_init.
  - by eapply reach_step.
Qed.

(** Without a late leave the counter equals the number of occupied
    flags throughout. *)
Lemma reachable_tidy_count_consistent w :
  reachable_tidy w -> count_consistent (game w).
Proof.
  induction 1 as [draws g Hd Hinit|w a w' out Htidy IH Hlate Hexec].
  - by eapply main_init_count_consistent.
  - eapply exec_count_consistent; [done|done| |done].
    by apply reachable_sound, reachable_tidy_reachable.
Qed.

(** *** Ranges of the integers

    On every reachable world the health of each slot stays between 0
    and [MAX_HP], its coordinates stay on the grid, and the grid keeps
    the 3 to 5 obstacles of the start: the [int] arithmetic on them
    (lines 155-161, 210-215) stays far from overflow. *)

Lemma in_range_slots g g' :
  obstacles g' = obstacles g ->
  (forall q,
     (0 <= hp (slot g q) <= MAX_HP -> 0 <= hp (slot g' q) <= MAX_HP) /\
     (in_bounds (row (slot g q)) (col (slot g q)) ->
      in_bounds (row (slot g' q)) (col (slot g' q)))) ->
  in_range g -> in_range g'.
Proof.
  intros Hobs Hslots (Hs & Hgrid & Hcnt). split; [|by rewrite Hobs].
  intros q. destruct (Hs q) as [Hhp Hb], (Hslots q) as [Hh Hp]. auto.
Qed.

Lemma in_range_same g g' :
  obstacles g' = obstacles g ->
  (forall q, hp (slot g' q) = hp (slot g q) /\
             row (slot g' q) = row (slot g q) /\
             col (slot g' q) = col (slot g q)) ->
  in_range g -> in_range g'.
Proof.
  intros Hobs Hslots. apply in_range_slots; [done|]. intros q.
  destruct (Hslots q) as (-> & -> & ->). done.
Qed.

Lemma broadcast_in_range fails g :
  well_formed g -> in_range g -> in_range (broadcast_state_locked fails g).1.
Proof.
  intros Hwf. destruct (broadcast_spec fails g Hwf) as (_ & Hobs & _).
  apply in_range_same; [done|]. intros q.
  by destruct (broadcast_keeps fails g q Hwf) as (? & ? & ? & _).
Qed.

Lemma upd_slot_in_range g i f :
  (0 <= hp (f (slot g i)) <= MAX_HP) ->
  in_bounds (row (f (slot g i))) (col (f (slot g i))) ->
  in_range g -> in_range (upd_slot i f g).
Proof.
  intros Hhp Hb. apply in_range_slots; [done|]. intros q.
  rewrite slot_upd_slot. case_decide as H; [|done].
  by destruct H as [-> _].
Qed.

Lemma upd_slot_in_range_same g i f :
  (forall p, hp (f p) = hp p /\ row (f p) = row p /\ col (f p) = col p) ->
  in_range g -> in_range (upd_slot i f g).
Proof.
  intros Hf. apply in_range_same; [done|]. intros q.
  rewrite slot_upd_slot. case_decide as H; [|done].
  destruct H as [-> _]. apply Hf.
Qed.

Lemma remove_player_in_range g i : in_range g -> in_range (remove_player i g).
Proof.
  intros Hr. unfold remove_player.
  apply (in_range_same (upd_slot i (with_active false)
                          (upd_slot i (with_fd (-1)) g))); [done|done|].
  apply upd_slot_in_range_same; [done|]. by apply upd_slot_in_range_same.
Qed.

Lemma move_locked_in_range g i sockfd newR newC fails :
  well_formed g -> in_range g ->
  in_range (move_locked g i sockfd newR newC fails).1.
Proof.
  intros Hwf Hr.
  destruct (move_locked_cases g i sockfd newR newC fails Hwf)
    as [(_ & ->)|[(_ & _ & ->)|[(_ & _ & _ & ->)|(Hb & _ & _ & ->)]]]; try done.
  apply broadcast_in_range; [by apply well_formed_placed|].
  apply upd_slot_in_range; [|done|done]. apply Hr.
Qed.

Lemma struck_position (p : Player) :
  row (struck p) = row p /\ col (struck p) = col p.
Proof. unfold struck. by destruct (dies p). Qed.

Lemma attack_locked_in_range g i sockfd fails :
  well_formed g -> in_range g -> in_range (attack_locked g i sockfd fails).1.
Proof.
  intros Hwf Hr. rewrite attack_locked_scan.
  destruct (attack_scan_spec g i slots NoDup_slots (slots_in_range g Hwf))
    as (Hlen & Hobs & Hslot & _).
  destruct (attack_scan g i slots) as [[g1 hit] closed]. cbn [fst snd] in *.
  assert (Hwf1 : well_formed g1) by (unfold well_formed in *; congruence).
  assert (Hr1 : in_range g1).
  { revert Hr. apply in_range_slots; [done|]. intros q. rewrite Hslot.
    case_decide; [|done]. destruct (is_target g i q); [|done].
    destruct (struck_position (slot g q)) as [-> ->]. split; [|done].
    rewrite struck_hp. unfold MAX_HP, DAMAGE. lia. }
  destruct hit; simpl; [|done].
  pose proof (broadcast_in_range fails g1 Hwf1 Hr1).
  by destruct (broadcast_state_locked fails g1).
Qed.

Lemma quit_locked_in_range g i fails :
  well_formed g -> in_range g -> in_range (quit_locked g i fails).1.
Proof.
  intros Hwf Hr. unfold quit_locked.
  pose proof (broadcast_in_range fails (remove_player i g)
                (fades_well_formed _ _ (fades_remove_player g i) Hwf)
                (remove_player_in_range g i Hr)).
  by destruct (broadcast_state_locked fails (remove_player i g)).
Qed.

Lemma recv_failed_in_range g i fails :
  well_formed g -> in_range g -> in_range (recv_failed g i fails).1.
Proof.
  intros Hwf Hr. unfold recv_failed.
  destruct (active (slot g i)); [by apply quit_locked_in_range|done].
Qed.

Lemma thread_cleanup_in_range g i sockfd :
  in_range g -> in_range (thread_cleanup g i sockfd).1.
Proof.
  intros Hr. unfold thread_cleanup. simpl.
  destruct (active (slot g i)); [|done].
  apply (in_range_same (upd_slot i (with_active false) g)); [done|done|].
  by apply upd_slot_in_range_same.
Qed.

Lemma handle_line_in_range g i sockfd received fails :
  well_formed g -> in_range g ->
  in_range (handle_line g i sockfd received fails).1.1.
Proof.
  intros Hwf Hr. unfold handle_line.
  destruct (parse_command _) as [|direction| | |]; cbn [fst]; try done.
  - destruct (move_target _ _ _) as [[newR newC]|]; cbn [fst]; [|done].
    by apply move_locked_in_range.
  - by apply attack_locked_in_range.
  - by apply quit_locked_in_range.
Qed.

Lemma accept_client_in_range g client_fd draws fails g' out idx :
  well_formed g -> Forall rand_ok draws -> in_range g ->
  accept_client g client_fd draws fails = Some (g', out, idx) ->
  in_range g'.
Proof.
  intros Hwf Hdraws Hr Hacc.
  destruct (accept_client_cases g client_fd draws fails Hwf Hdraws)
    as [(_ & H)|[(_ & _ & H)|(_ & i & _ & [(_ & H)|(_ & r & c & Hb & _ & H)])]];
    rewrite H in Hacc; try done; try (by injection Hacc as <- _ _).
  assert (in_range (joined g i client_fd r c)) as Hj.
  { unfold joined.
    apply (in_range_same (upd_slot i (fun p => with_pos r c
                                                 (occupied_by client_fd p)) g));
      [done|done|].
    apply upd_slot_in_range; [by unfold MAX_HP|done|done]. }
  pose proof (broadcast_in_range fails _
                (joined_well_formed g i client_fd r c Hwf) Hj).
  destruct (broadcast_state_locked fails (joined g i client_fd r c)).
  by injection Hacc as <- _ _.
Qed.

Lemma main_init_in_range draws g :
  Forall rand_ok draws -> main_init draws = Some g -> in_range g.
Proof.
  intros Hdraws Hinit. destruct draws as [|d rest]; [done|].
  apply Forall_cons in Hdraws as [Hd Hrest].
  destruct (main_init_count d rest g Hd Hrest Hinit) as [_ Hcnt].
  destruct (main_init_players _ _ Hinit) as [Hp _].
  split; [|split; [|done]].
  - intros q. unfold slot. rewrite Hp.
    destruct q as [|[|[|[|q]]]]; vm_compute; repeat split; discriminate.
  - unfold main_init in Hinit. cbv zeta in Hinit.
    destruct (place_obstacles _ _ _ _) as [obs|] eqn:Hplace; [|done].
    injection Hinit as <-. simpl.
    assert (0 <= Z.rem d 3) by (apply Z.rem_nonneg; unfold rand_ok in Hd; lia).
    by destruct (place_obstacles_count rest Hrest empty_grid 0 (3 + Z.rem d 3)
                   obs grid_ok_empty ltac:(lia) Hplace).
Qed.

Lemma exec_in_range w a w' out :
  exec w a = Some (w', out) ->
  well_formed (game w) -> in_range (game w) -> in_range (game w').
Proof.
  intros Hexec Hwf Hr. unfold exec in Hexec.
  destruct a as [fd draws fails| | |k|k received fails|k fails|k fails|k].
  - destruct (spawning w); [done|].
    destruct (_ && _) eqn:Hpre; [|done].
    apply andb_prop in Hpre as [_ Hdraws%rand_okb_spec].
    destruct (accept_client _ _ _ _) as [[[g' o] idx]|] eqn:Hacc; [|done].
    injection Hexec as <- _. simpl. by eapply accept_client_in_range.
  - destruct (spawning w); [|done]. by injection Hexec as <- _.
  - destruct (spawning w) as [idx|]; [|done].
    injection Hexec as <- _. simpl. by apply remove_player_in_range.
  - destruct (threads w !! k) as [[i fd []]|]; try done.
    by injection Hexec as <- _.
  - destruct (threads w !! k) as [[i fd []]|]; try done.
    destruct (move_request _ _ _) as [[newR newC]|].
    { by injection Hexec as <- _. }
    pose proof (handle_line_in_range (game w) i fd received fails Hwf Hr) as Hl.
    destruct (handle_line _ _ _ _ _) as [[g' o] continue].
    by injection Hexec as <- _.
  - destruct (threads w !! k) as [[i fd []]|]; try done.
    pose proof (recv_failed_in_range (game w) i fails Hwf Hr) as Hf.
    destruct (recv_failed _ _ _) as [g' o]. by injection Hexec as <- _.
  - destruct (threads w !! k) as [[i fd []]|]; try done.
    pose proof (move_locked_in_range (game w) i fd newR newC fails Hwf Hr) as Hm.
    destruct (move_locked _ _ _ _ _ _) as [g' o]. by injection Hexec as <- _.
  - destruct (threads w !! k) as [[i fd []]|]; try done.
    pose proof (thread_cleanup_in_range (game w) i fd Hr) as Hf.
    destruct (thread_cleanup _ _ _) as [g' o]. by injection Hexec as <- _.
Qed.

Lemma reachable_in_range w : reachable w -> in_range (game w).
Proof.
  induction 1 as [draws g Hdraws Hinit|w a w' out Hreach IH Hstep].
  - apply (main_init_in_range draws); [by apply rand_okb_spec|done].
  - eapply exec_in_range; [done| |done]. by apply reachable_sound.
Qed.

(** In every reachable world the placement loop of a join has at least
    17 cells to stop on. *)
Lemma reachable_admissible_cells w idx :
  reachable w -> (idx < MAX_PLAYERS)%nat ->
  (17 <= length (admissible_cells (game w) idx))%nat.
Proof.
  intros Hr Hidx. destruct (reachable_in_range w Hr) as (_ & _ & Hcnt).
  apply admissible_cells_count; [lia|by apply others_le].
Qed.

(** *** Scenarios of the specification, run on the model *)

Example scenario_state_text :
  bytes_of (StateMsg (players arena) (obstacles arena))
  = String.concat nl
      ["Grid:"; "X . . . . "; ". X . . . "; ". . X . . "; ". . . A B ";
       ". . . . . "; "Players:"; "A: HP=100 at (3,3)"; "B: HP=100 at (3,4)";
       ""].
Proof. vm_compute. reflexivity. Qed.

Example scenario_move_up :
  (handle_line arena 0 4 "MOVE UP" no_failure).1.1
  = placed arena 0 2 3.
Proof. vm_compute. reflexivity. Qed.

Example scenario_move_out_of_bounds :
  handle_line arena 1 5 "MOVE RIGHT" no_failure
  = (arena, [EvSend 5 (Text msg_out_of_bounds)], true).
Proof. vm_compute. reflexivity. Qed.

Example scenario_move_into_player :
  handle_line arena 0 4 "move right" no_failure
  = (arena, [EvSend 4 (Text msg_occupied)], true).
Proof. vm_compute. reflexivity. Qed.

Example scenario_move_into_obstacle :
  handle_line (placed arena 0 2 3) 0 4 "Move Left" no_failure
  = (placed arena 0 2 3, [EvSend 4 (Text msg_obstacle)], true).
Proof. vm_compute. reflexivity. Qed.

Example scenario_attack_once :
  hp (slot (handle_line arena 0 4 "ATTACK" no_failure).1.1 1) = 80 /\
  active (slot (handle_line arena 0 4 "ATTACK" no_failure).1.1 1) = true.
Proof. vm_compute. split; reflexivity. Qed.

Example scenario_attack_five_times :
  hp (slot (game duel_world) 1) = 0 /\
  active (slot (game duel_world) 1) = false /\
  socket_fd (slot (game duel_world) 1) = -1 /\
  player_count (game duel_world) = 1.
Proof. vm_compute. repeat split; reflexivity. Qed.

Example scenario_attack_no_target :
  handle_line crowd 2 6 "attack" no_failure
  = (crowd, [EvSend 6 (Text msg_no_targets)], true).
Proof. vm_compute. reflexivity. Qed.

Example scenario_server_full :
  player_count crowd = 4 /\
  accept_client crowd 8 [1; 2] no_failure
  = Some (crowd, [EvSend 8 (Text msg_server_full); EvClose 8], None).
Proof. vm_compute. split; reflexivity. Qed.

Example scenario_connection_lost :
  active (slot (recv_failed arena 1 no_failure).1 1) = false /\
  player_count (recv_failed arena 1 no_failure).1 = 1 /\
  broadcasts (recv_failed arena 1 no_failure).2 = 1%nat.
Proof. vm_compute. repeat split; reflexivity. Qed.

(** *** Worked instances *)

Lemma demo_game_init : main_init demo_draws = Some demo_game.
Proof. reflexivity. Qed.

Lemma duel_world_boot : boot demo_draws duel = Some duel_world.
Proof. vm_compute. reflexivity. Qed.

Lemma arena_not_taken (r c : Z) :
  (r, c) <> (3, 3) -> (r, c) <> (3, 4) -> forall i, ~ cell_taken arena i r c.
Proof.
  intros H0 H1 i (q & _ & Ha & Hr & Hc).
  destruct q as [|[|[|[|q]]]]; vm_compute in Ha, Hr, Hc; try done;
    subst; congruence.
Qed.

(** The positions are sound in the world after the run [duel]. *)
Lemma reachable_positions_ok_witness :
  reachable duel_world /\
  (forall i j,
     active (slot (game duel_world) i) = true ->
     active (slot (game duel_world) j) = true ->
     row (slot (game duel_world) i) = row (slot (game duel_world) j) ->
     col (slot (game duel_world) i) = col (slot (game duel_world) j) -> i = j) /\
  (forall i, active (slot (game duel_world) i) = true ->
     0 <= row (slot (game duel_world) i) < GRID_SIZE /\
     0 <= col (slot (game duel_world) i) < GRID_SIZE /\
     obstacle_at (obstacles (game duel_world)) (row (slot (game duel_world) i))
       (col (slot (game duel_world) i)) <> 1).
Proof.
  split.
  - apply (boot_reachable demo_draws duel). vm_compute. reflexivity.
  - apply (reachable_positions_ok duel_world).
    apply (boot_reachable demo_draws duel). vm_compute. reflexivity.
Defined.

(** Slot 0 of [arena], on (3,3), moves up to (2,3). *)
Lemma move_command_witness :
  well_formed arena /\ (0 < MAX_PLAYERS)%nat /\
  parse_command (CStr.trim_line "move up") = Move (direction_name UP) /\
  handle_line arena 0 4 "move up" no_failure
    = (broadcast_state_locked no_failure (placed arena 0 2 3), true) /\
  broadcasts (handle_line arena 0 4 "move up" no_failure).1.2 = 1%nat.
Proof.
  split; [reflexivity|]. split; [unfold MAX_PLAYERS; lia|].
  split; [reflexivity|].
  destruct (move_command arena 0 4 "move up" no_failure UP)
    as (_ & _ & _ & Hmove).
  - reflexivity.
  - unfold MAX_PLAYERS. lia.
  - reflexivity.
  - destruct Hmove as (Hres & Hone & _).
    + vm_compute. repeat split; discriminate.
    + vm_compute. discriminate.
    + apply arena_not_taken; vm_compute; discriminate.
    + split; [exact Hres|exact Hone].
Defined.

(** Slot 0 of [arena] attacks: slot 1, next to it, is the one target
    and survives the hit. *)
Lemma attack_command_witness :
  well_formed arena /\
  parse_command (CStr.trim_line "ATTACK") = Attack /\
  exists g1 deliveries,
    (forall q, slot g1 q =
       if decide (q ∈ [1%nat]) then struck (slot arena q) else slot arena q) /\
    player_count g1 = player_count arena - 0 /\
    handle_line arena 0 4 "ATTACK" no_failure
      = ((broadcast_state_locked no_failure g1).1,
         EvBroadcast (players g1) :: deliveries, true).
Proof.
  split; [reflexivity|]. split; [reflexivity|].
  destruct (attack_command arena 0 4 "ATTACK" no_failure)
    as (_ & _ & Hhit).
  - reflexivity.
  - reflexivity.
  - destruct Hhit as (g1 & deliveries & Hslot & Hcnt & _ & _ & _ & Hres).
    + vm_compute. discriminate.
    + exists g1, deliveries. split; [exact Hslot|]. split; [exact Hcnt|].
      exact Hres.
Defined.

(** A broadcast on [arena] in which the send to slot 1 fails. *)
Lemma broadcast_failure_frees_slot_witness :
  well_formed arena /\
  (broadcast_state_locked (Nat.eqb 1) arena).1 = free_each [1%nat] arena /\
  player_count (broadcast_state_locked (Nat.eqb 1) arena).1
    = player_count arena - 1 /\
  broadcasts (broadcast_state_locked (Nat.eqb 1) arena).2 = 1%nat.
Proof.
  split; [reflexivity|].
  destruct (broadcast_failure_frees_slot (Nat.eqb 1) arena)
    as (Hfree & _ & Hcnt & _ & _ & _ & Hone).
  - reflexivity.
  - split; [exact Hfree|]. split; [exact Hcnt|exact Hone].
Defined.

(** An ATTACK of slot 0 in [arena], against the scan run in the order
    3, 1, 0, 2. *)
Lemma attack_scan_order_independent_witness :
  well_formed arena /\ [3; 1; 0; 2]%nat ≡ₚ slots /\
  parse_command (CStr.trim_line "ATTACK") = Attack /\
  (handle_line arena 0 4 "ATTACK" no_failure).1.1
  = (broadcast_state_locked no_failure
       (attack_scan arena 0 [3; 1; 0; 2]%nat).1.1).1.
Proof.
  assert (Hperm : [3; 1; 0; 2]%nat ≡ₚ slots).
  { apply NoDup_Permutation.
    - apply (bool_decide_eq_true_1 _). by vm_compute.
    - apply NoDup_slots.
    - intros x. unfold slots, MAX_PLAYERS. simpl.
      rewrite !elem_of_cons, !elem_of_nil. lia. }
  split; [reflexivity|]. split; [exact Hperm|]. split; [reflexivity|].
  destruct (attack_scan_order_independent arena 0 4 "ATTACK" no_failure
              [3; 1; 0; 2]%nat eq_refl eq_refl Hperm) as [Hsame _].
  rewrite Hsame. reflexivity.
Defined.

(** The line [hello] is unknown. *)
Lemma unknown_command_reply_witness :
  trimmed "hello" /\
  handle_line arena 0 4 "hello" no_failure
    = (arena, [EvSend 4 (Text msg_unknown)], true).
Proof.
  split; [reflexivity|].
  destruct (unknown_command_reply arena 0 4 "hello" no_failure) as [Hunknown _].
  - reflexivity.
  - apply Hunknown; vm_compute; discriminate.
Defined.

(** A first client joins [demo_game] with the draws 3, 3. *)
Lemma join_client_witness :
  well_formed demo_game /\ Forall rand_ok [3; 3] /\
  exists r c,
    in_bounds r c /\
    accept_client demo_game 4 [3; 3] no_failure
      = Some (broadcast_state_locked no_failure (joined demo_game 0 4 r c),
              Some 0%nat).
Proof.
  assert (Hdraws : Forall rand_ok [3; 3])
    by (repeat constructor; unfold rand_ok, RAND_MAX; lia).
  split; [reflexivity|]. split; [exact Hdraws|].
  destruct (join_client demo_game 4 [3; 3] no_failure) as (_ & _ & Hjoin & _).
  - reflexivity.
  - exact Hdraws.
  - destruct (Hjoin ltac:(vm_compute; reflexivity) 0%nat eq_refl)
      as (_ & _ & _ & Hplace).
    destruct Hplace as (r & c & Hb & _ & _ & Hacc & _).
    { exists 3, 3. split; [left|reflexivity]. }
    exists r, c. split; [exact Hb|exact Hacc].
Defined.

Lemma sweep_ok (n : nat) : rand_ok (sweep n).
Proof.
  unfold rand_ok, sweep, RAND_MAX.
  pose proof (Nat.mod_upper_bound (n / 2 / 5) 5 ltac:(lia)).
  pose proof (Nat.mod_upper_bound (n / 2) 5 ltac:(lia)).
  destruct (Nat.even n); lia.
Qed.

Lemma sweep_names_every_cell : names_every_cell sweep 0.
Proof.
  intros r c [Hr Hc]. unfold GRID_SIZE in *.
  exists (Z.to_nat (5 * r + c)).
  rewrite <- (Z2Nat.id r), <- (Z2Nat.id c) by lia.
  assert (Hrn : (Z.to_nat r < 5)%nat) by lia.
  assert (Hcn : (Z.to_nat c < 5)%nat) by lia.
  destruct (Z.to_nat r) as [|[|[|[|[|?]]]]]; try lia;
    destruct (Z.to_nat c) as [|[|[|[|[|?]]]]]; try lia; by vm_compute.
Qed.

(** Start-up on [demo_draws], and a placement in [demo_game] on the
    stream [sweep]. *)
Lemma sampling_terminates_when_draws_allow_witness :
  well_formed demo_game /\ (0 < MAX_PLAYERS)%nat /\
  (obstacle_count (obstacles demo_game) <= 5)%nat /\
  (length (others demo_game 0) <= 3)%nat /\
  rand_ok 0 /\ Forall rand_ok [0; 0; 1; 1; 2; 2] /\
  (forall n, rand_ok (sweep n)) /\ names_every_cell sweep 0 /\
  (17 <= length (admissible_cells demo_game 0))%nat /\
  (exists n r c,
     in_bounds r c /\ admissible demo_game 0 r c = true /\
     spawn_position 0 demo_game (first_draws sweep n)
     = Some (placed demo_game 0 r c)).
Proof.
  assert (H0 : rand_ok 0) by (unfold rand_ok, RAND_MAX; lia).
  assert (Hrest : Forall rand_ok [0; 0; 1; 1; 2; 2])
    by (repeat constructor; unfold rand_ok, RAND_MAX; lia).
  assert (Hobs : (obstacle_count (obstacles demo_game) <= 5)%nat)
    by (vm_compute; lia).
  assert (Hoth : (length (others demo_game 0) <= 3)%nat) by (vm_compute; lia).
  assert (Hidx : (0 < MAX_PLAYERS)%nat) by (unfold MAX_PLAYERS; lia).
  split; [reflexivity|]. split; [exact Hidx|]. split; [exact Hobs|].
  split; [exact Hoth|]. split; [exact H0|]. split; [exact Hrest|].
  split; [exact sweep_ok|]. split; [exact sweep_names_every_cell|].
  destruct (sampling_terminates_when_draws_allow demo_game 0 0
              [0; 0; 1; 1; 2; 2] [0; 0; 3; 3] eq_refl Hidx Hobs Hoth H0 Hrest)
    as (_ & Hstream & _ & _ & _ & Hcount & _).
  split; [exact Hcount|].
  exact (Hstream sweep sweep_ok sweep_names_every_cell).
Defined.


(** *** MOVE and the lock *)

Lemma stale_world_boot : boot demo_draws stale_move = Some stale_world.
Proof. vm_compute. reflexivity. Qed.

Lemma stale_move_exec :
  exec stale_world (MoveLocked 1 no_failure)
  = Some (after_stale_move, stale_move_calls).
Proof. vm_compute. reflexivity. Qed.

(** C5.  The code breaks the claim: the target of a MOVE is computed
    from the slot before the lock is taken (lines 152-161) and tested
    and committed after (lines 168-199), while the sibling ATTACK reads
    the position under the lock (lines 205-206).  In the world reached
    by the run [stale_move], slot 1 is occupied and stands on (0,4), so
    that a MOVE UP aims at (-1,4), off the grid, and is to be refused
    with the globals unchanged and no broadcast; the thread that holds
    the target (2,4), read when the slot stood on (3,4), puts the slot
    on (2,4), two rows away, and broadcasts. *)
Theorem move_target_read_before_lock :
  boot demo_draws stale_move = Some stale_world /\
  reachable stale_world /\
  threads stale_world !! 1%nat = Some (mkThread 1 5 (AtMoveLock 2 4)) /\
  active (slot (game stale_world) 1) = true /\
  (row (slot (game stale_world) 1), col (slot (game stale_world) 1)) = (0, 4) /\
  target_cell UP 0 4 = (-1, 4) /\ ~ in_bounds (-1) 4 /\
  exec stale_world (MoveLocked 1 no_failure)
    = Some (after_stale_move, stale_move_calls) /\
  (row (slot (game after_stale_move) 1), col (slot (game after_stale_move) 1))
    = (2, 4) /\
  game after_stale_move <> game stale_world /\
  broadcasts stale_move_calls = 1%nat /\
  handle_line (game stale_world) 1 5 "MOVE UP" no_failure
    = (game stale_world, [EvSend 5 (Text msg_out_of_bounds)], true).
Proof.
  split; [exact stale_world_boot|].
  split; [exact (boot_reachable _ _ _ stale_world_boot)|].
  split; [reflexivity|]. split; [reflexivity|]. split; [reflexivity|].
  split; [reflexivity|].
  split; [unfold in_bounds, GRID_SIZE; lia|].
  split; [exact stale_move_exec|]. split; [reflexivity|].
  split.
  { intros Heq. apply (f_equal (fun g => row (slot g 1))) in Heq.
    vm_compute in Heq. discriminate Heq. }
  split; [reflexivity|]. vm_compute. reflexivity.
Qed.
(** * Further properties of the code

    ** The command parser (lines 134-166, 202, 237) *)

(** *** Letter case *)

Section CaseMap.

Variable f : ascii -> ascii.
Hypothesis f_lower : forall c, CStr.tolower (f c) = CStr.tolower c.
Hypothesis f_upper : forall c, CStr.toupper (f c) = CStr.toupper c.
Hypothesis f_space : forall c, CStr.isspace (f c) = CStr.isspace c.
Hypothesis f_end : forall c, CStr.line_end (f c) = CStr.line_end c.

Lemma tl_str_map (s : string) :
  CStr.tl_str (CStr.map_str f s) = CStr.map_str f (CStr.tl_str s).
Proof. by destruct s. Qed.

Lemma strncasecmp_map (n : nat) (s t : string) :
  CStr.strncasecmp (CStr.map_str f s) t n = CStr.strncasecmp s t n.
Proof.
  revert s t. induction n as [|n IH]; intros s t; [by destruct s|].
  destruct s as [|a s]; simpl; [done|].
  by rewrite f_lower, IH.
Qed.

Lemma strcasecmp_map (s t : string) :
  CStr.strcasecmp (CStr.map_str f s) t = CStr.strcasecmp s t.
Proof.
  revert t. induction s as [|a s IH]; intros t; simpl; [done|].
  by rewrite f_lower, IH.
Qed.

Lemma advance_map (k : nat) (s : string) :
  CStr.advance k (CStr.map_str f s) = CStr.map_str f (CStr.advance k s).
Proof.
  revert s. induction k as [|k IH]; intros s; simpl; [done|].
  by rewrite tl_str_map, IH.
Qed.

Lemma skip_space_map (s : string) :
  CStr.skip_space (CStr.map_str f s) = CStr.map_str f (CStr.skip_space s).
Proof.
  induction s as [|a s IH]; simpl; [done|].
  rewrite f_space. by destruct (CStr.isspace a).
Qed.

Lemma scan_word_map (width : nat) (s : string) :
  CStr.scan_word width (CStr.map_str f s)
  = CStr.map_str f (CStr.scan_word width s).
Proof.
  revert s. induction width as [|width IH]; intros [|a s]; simpl; try done.
  rewrite f_space. destruct (CStr.isspace a); simpl; [done|]. by rewrite IH.
Qed.

Lemma sscanf_s15_map (s : string) :
  CStr.sscanf_s15 (CStr.map_str f s) = CStr.map_str f <$> CStr.sscanf_s15 s.
Proof.
  unfold CStr.sscanf_s15. rewrite skip_space_map, scan_word_map.
  by destruct (CStr.scan_word 15 (CStr.skip_space s)).
Qed.

Lemma toupper_map (s : string) :
  CStr.map_str CStr.toupper (CStr.map_str f s) = CStr.map_str CStr.toupper s.
Proof. induction s as [|a s IH]; simpl; [done|]. by rewrite f_upper, IH. Qed.

Lemma trim_line_map (s : string) :
  CStr.trim_line (CStr.map_str f s) = CStr.map_str f (CStr.trim_line s).
Proof.
  induction s as [|a s IH]; simpl; [done|].
  rewrite f_end. destruct (CStr.line_end a); simpl; [done|]. by rewrite IH.
Qed.

Lemma parse_command_map (s : string) :
  parse_command (CStr.map_str f s) = parse_command s.
Proof.
  unfold parse_command.
  rewrite strncasecmp_map, !strcasecmp_map, advance_map, sscanf_s15_map.
  destruct (CStr.sscanf_s15 (CStr.advance 4 s)); simpl; [|done].
  by rewrite toupper_map.
Qed.

Lemma handle_line_map g i sockfd received fails :
  handle_line g i sockfd (CStr.map_str f received) fails
  = handle_line g i sockfd received fails.
Proof. unfold handle_line. by rewrite trim_line_map, parse_command_map. Qed.

Lemma move_request_map g i received :
  move_request g i (CStr.map_str f received) = move_request g i received.
Proof. unfold move_request. by rewrite trim_line_map, parse_command_map. Qed.

End CaseMap.

Ltac by_cases_on_char c :=
  destruct c as [[] [] [] [] [] [] [] []]; vm_compute; reflexivity.

Lemma tolower_toupper c : CStr.tolower (CStr.toupper c) = CStr.tolower c.
Proof. by_cases_on_char c. Qed.
Lemma toupper_toupper c : CStr.toupper (CStr.toupper c) = CStr.toupper c.
Proof. by_cases_on_char c. Qed.
Lemma isspace_toupper c : CStr.isspace (CStr.toupper c) = CStr.isspace c.
Proof. by_cases_on_char c. Qed.
Lemma line_end_toupper c : CStr.line_end (CStr.toupper c) = CStr.line_end c.
Proof. by_cases_on_char c. Qed.
Lemma tolower_tolower c : CStr.tolower (CStr.tolower c) = CStr.tolower c.
Proof. by_cases_on_char c. Qed.
Lemma toupper_tolower c : CStr.toupper (CStr.tolower c) = CStr.toupper c.
Proof. by_cases_on_char c. Qed.
Lemma isspace_tolower c : CStr.isspace (CStr.tolower c) = CStr.isspace c.
Proof. by_cases_on_char c. Qed.
Lemma line_end_tolower c : CStr.line_end (CStr.tolower c) = CStr.line_end c.
Proof. by_cases_on_char c. Qed.

(** X1.  Commands are read without regard to letter case: a received
    text put in upper case, or in lower case, is handled exactly as the
    text itself, keyword and direction alike (lines 141, 151, 202, 237),
    in the command loop and in a scheduled turn of a handler thread. *)
Theorem commands_ignore_case (w : World) (k : nat) (g : Game) (i : nat)
    (sockfd : Z) (received : string) (fails : nat -> bool) :
  handle_line g i sockfd (CStr.map_str CStr.toupper received) fails
    = handle_line g i sockfd received fails /\
  handle_line g i sockfd (CStr.map_str CStr.tolower received) fails
    = handle_line g i sockfd received fails /\
  exec w (Recv k (CStr.map_str CStr.toupper received) fails)
    = exec w (Recv k received fails) /\
  exec w (Recv k (CStr.map_str CStr.tolower received) fails)
    = exec w (Recv k received fails).
Proof.
  pose proof (handle_line_map CStr.toupper tolower_toupper
                toupper_toupper isspace_toupper line_end_toupper) as Hup.
  pose proof (handle_line_map CStr.tolower tolower_tolower
                toupper_tolower isspace_tolower line_end_tolower) as Hlo.
  pose proof (move_request_map CStr.toupper tolower_toupper
                toupper_toupper isspace_toupper line_end_toupper) as Hrup.
  pose proof (move_request_map CStr.tolower tolower_tolower
                toupper_tolower isspace_tolower line_end_tolower) as Hrlo.
  repeat split; [apply Hup|apply Hlo| |]; unfold exec;
    destruct (threads w !! k) as [[j fd []]|]; try done.
  - by rewrite Hrup, Hup.
  - by rewrite Hrlo, Hlo.
Qed.

(** *** What is read of a packet *)

Lemma trim_line_app_end (s t : string) (c : ascii) :
  CStr.line_end c = true ->
  CStr.trim_line (s ++ String c t) = CStr.trim_line s.
Proof.
  intros Hc. induction s as [|a s IH]; simpl; [by rewrite Hc|].
  destruct (CStr.line_end a); [done|]. by rewrite IH.
Qed.

Lemma trim_line_idemp (s : string) :
  CStr.trim_line (CStr.trim_line s) = CStr.trim_line s.
Proof.
  induction s as [|a s IH]; simpl; [done|].
  destruct (CStr.line_end a) eqn:Ha; simpl; [done|]. by rewrite Ha, IH.
Qed.

(** X2.  Of the bytes one [recv] returns, only those before the first
    line feed, carriage return or NUL are acted on (lines 135-138): what
    follows, a second command included, is dropped, and the turn of the
    handler thread is the one it takes on the first line alone. *)
Theorem rest_of_packet_is_dropped (w : World) (k : nat) (first rest : string)
    (fails : nat -> bool) :
  let LF := ascii_of_nat 10 in
  let CR := ascii_of_nat 13 in
  exec w (Recv k (first ++ String LF rest) fails) = exec w (Recv k first fails) /\
  exec w (Recv k (first ++ String CR rest) fails) = exec w (Recv k first fails) /\
  exec w (Recv k (first ++ String Ascii.zero rest) fails)
    = exec w (Recv k first fails) /\
  exec w (Recv k (CStr.trim_line first) fails) = exec w (Recv k first fails).
Proof.
  intros LF CR.
  assert (Hsame : forall s,
    CStr.trim_line s = CStr.trim_line first ->
    exec w (Recv k s fails) = exec w (Recv k first fails)).
  { intros s Hs. unfold exec, move_request, handle_line. by rewrite Hs. }
  repeat split; apply Hsame.
  - by apply trim_line_app_end.
  - by apply trim_line_app_end.
  - by apply trim_line_app_end.
  - apply trim_line_idemp.
Qed.

(** *** The shape of a MOVE line *)

Lemma length_map_str (f : ascii -> ascii) (s : string) :
  String.length (CStr.map_str f s) = String.length s.
Proof. induction s as [|a s IH]; simpl; [done|]. by rewrite IH. Qed.

Lemma scan_word_spec (width : nat) (s : string) :
  (String.length (CStr.scan_word width s) <= width)%nat /\
  all_chars not_space (CStr.scan_word width s) = true.
Proof.
  revert s. induction width as [|width IH]; intros [|a s]; simpl;
    try (split; [lia|done]).
  destruct (CStr.isspace a) eqn:Ha; simpl; [split; [lia|done]|].
  destruct (IH s) as [Hlen Hall]. unfold not_space at 1. rewrite Ha. simpl.
  split; [lia|done].
Qed.

Lemma not_space_toupper (s : string) :
  all_chars not_space (upper s) = all_chars not_space s.
Proof.
  unfold upper. induction s as [|a s IH]; simpl; [done|].
  unfold not_space at 1 3. by rewrite isspace_toupper, IH.
Qed.

(** X3.  The direction word of a MOVE is never empty, has at most 15
    characters, so that it fits [direction[16]] with its NUL (line 144),
    holds no white space, and is in upper case when it is compared
    (line 151). *)
Theorem direction_word_fits (line d : string) :
  parse_command line = Move d ->
  (1 <= String.length d <= 15)%nat /\
  all_chars not_space d = true /\
  upper d = d.
Proof.
  unfold parse_command.
  destruct (CStr.strncasecmp line "MOVE" 4 =? 0); [|by repeat case_match].
  unfold CStr.sscanf_s15.
  destruct (scan_word_spec 15 (CStr.skip_space (CStr.advance 4 line)))
    as [Hlen Hall].
  destruct (CStr.scan_word 15 _) as [|a word] eqn:Hw; [done|].
  intros Hd.
  assert (d = upper (String a word)) as -> by (by injection Hd as <-).
  rewrite not_space_toupper. unfold upper.
  rewrite !length_map_str, toupper_map by apply toupper_toupper.
  cbn [String.length]. repeat split; [lia|done|done].
Qed.

(** The line [move up]. *)
Lemma direction_word_fits_witness :
  parse_command "move up" = Move "UP" /\
  (1 <= String.length "UP" <= 15)%nat /\
  all_chars not_space "UP" = true /\ upper "UP" = "UP".
Proof.
  split; [reflexivity|].
  apply (direction_word_fits "move up" "UP"). reflexivity.
Defined.

(** X4.  On a line without NUL the [if]/[else if] chain of lines
    141-253 sorts the texts exactly: ATTACK and QUIT are the lines that
    spell the keyword and nothing else, letter case aside; the MOVE
    branch takes every line whose first four characters spell MOVE,
    whatever follows; all the rest is unknown. *)
Theorem parse_command_classifies (line : string) :
  nul_free line ->
  (parse_command line = Attack <-> same_text line "ATTACK") /\
  (parse_command line = Quit <-> same_text line "QUIT") /\
  (parse_command line = Unknown <->
     ~ starts_with_move line /\ ~ same_text line "ATTACK" /\
     ~ same_text line "QUIT") /\
  (parse_command line = MoveNoDirection <->
     starts_with_move line /\ CStr.sscanf_s15 (CStr.advance 4 line) = None) /\
  (forall d, parse_command line = Move d <->
     starts_with_move line /\
     exists word, CStr.sscanf_s15 (CStr.advance 4 line) = Some word /\
                  d = upper word).
Proof.
  intros Hl.
  pose proof (move_test line Hl) as Hmove.
  assert (Ha : nul_free "ATTACK") by (simpl; by repeat split).
  assert (Hq : nul_free "QUIT") by (simpl; by repeat split).
  pose proof (keyword_test line "ATTACK" Hl Ha) as Hattack.
  pose proof (keyword_test line "QUIT" Hl Hq) as Hquit.
  assert (Hexcl : starts_with_move line ->
                  ~ same_text line "ATTACK" /\ ~ same_text line "QUIT").
  { unfold starts_with_move, same_text, lower.
    destruct line as [|a [|b [|c [|d rest]]]]; simpl; try done.
    intros [= -> -> -> ->]. split; intros [= ? ? ? ?]; done. }
  assert (Hexcl2 : same_text line "ATTACK" -> ~ same_text line "QUIT").
  { unfold same_text, lower. intros -> . done. }
  unfold parse_command.
  destruct (CStr.strncasecmp line "MOVE" 4 =? 0).
  - destruct Hmove as [Hm _]. specialize (Hm eq_refl).
    destruct (Hexcl Hm) as [Hna Hnq].
    destruct (CStr.sscanf_s15 (CStr.advance 4 line)) as [word|] eqn:Hw.
    + repeat split; try done; try tauto.
      all: try (by intros [? ?]).
      all: try (by intros [= <-]; exists word).
      all: try (by intros (word' & [= <-] & ->)).
      all: try (by intros (_ & word' & [= <-] & ->)).
      all: try (exists word; split; [done|]; unfold upper; congruence).
    + repeat split; try done; try tauto.
      all: try (by intros (word' & ? & _)).
      all: try (by intros (_ & word' & ? & _)).
  - assert (Hnm : ~ starts_with_move line).
    { intros H. by apply Hmove in H. }
    destruct (CStr.strcasecmp line "ATTACK" =? 0).
    + destruct Hattack as [Hat _]. specialize (Hat eq_refl).
      repeat split; try done; try tauto.
    + assert (Hna : ~ same_text line "ATTACK").
      { intros H. by apply Hattack in H. }
      destruct (CStr.strcasecmp line "QUIT" =? 0).
      * destruct Hquit as [Hqt _]. specialize (Hqt eq_refl).
        repeat split; try done; try tauto.
      * assert (Hnq : ~ same_text line "QUIT").
        { intros H. by apply Hquit in H. }
        repeat split; try done; try tauto.
Qed.

(** The line [Attack] is an ATTACK. *)
Lemma parse_command_classifies_witness :
  nul_free "Attack" /\ parse_command "Attack" = Attack.
Proof.
  assert (Hl : nul_free "Attack") by (simpl; repeat split; discriminate).
  split; [exact Hl|].
  destruct (parse_command_classifies "Attack" Hl) as [Hattack _].
  apply Hattack. reflexivity.
Defined.










(** ** What the steps do to the slots and the grid *)

Lemma evolves_refl g : evolves g g.
Proof. by repeat split. Qed.

Lemma evolves_trans g1 g2 g3 : evolves g1 g2 -> evolves g2 g3 -> evolves g1 g3.
Proof.
  intros (Ho1 & Hl1 & Hs1) (Ho2 & Hl2 & Hs2).
  split; [congruence|]. split; [congruence|].
  intros q. eapply rtc_trans; [apply Hs1|apply Hs2].
Qed.

Lemma evolves_well_formed g g' : evolves g g' -> well_formed g -> well_formed g'.
Proof. intros (_ & Hl & _). unfold well_formed. congruence. Qed.

Lemma evolves_add_count g d : evolves g (add_count d g).
Proof. by repeat split. Qed.

Lemma evolves_upd_slot g i f :
  slot_change (slot g i) (f (slot g i)) -> evolves g (upd_slot i f g).
Proof.
  intros Hf. split; [done|]. split; [apply length_upd_slot|].
  intros q. rewrite slot_upd_slot. case_decide as H; [|done].
  destruct H as [-> _]. by apply rtc_once.
Qed.

Lemma evolves_remove_player g p : evolves g (remove_player p g).
Proof.
  split; [done|]. split.
  { unfold remove_player. simpl. by rewrite !length_insert. }
  intros q. unfold remove_player.
  rewrite slot_add_count, slot_upd_slot, length_upd_slot.
  case_decide as H.
  - destruct H as [-> Hp]. rewrite slot_upd_slot_eq by done.
    apply rtc_once, change_removed.
  - rewrite slot_upd_slot. by case_decide.
Qed.

Lemma evolves_broadcast fails g :
  well_formed g -> evolves g (broadcast_state_locked fails g).1.
Proof.
  intros Hwf. destruct (broadcast_spec fails g Hwf) as (Hl & Ho & Hs & _).
  split; [done|]. split; [done|]. intros q. rewrite Hs.
  destruct (send_fails fails q (slot g q)); [|done].
  apply rtc_once, change_removed.
Qed.

Lemma evolves_placed g i r c : in_bounds r c -> evolves g (placed g i r c).
Proof. intros Hb. by apply evolves_upd_slot, change_moved. Qed.

Lemma evolves_move_locked g i sockfd newR newC fails :
  well_formed g -> evolves g (move_locked g i sockfd newR newC fails).1.
Proof.
  intros Hwf.
  destruct (move_locked_cases g i sockfd newR newC fails Hwf)
    as [(_ & ->)|[(_ & _ & ->)|[(_ & _ & _ & ->)|(Hb & _ & _ & ->)]]];
    try apply evolves_refl.
  eapply evolves_trans; [by apply evolves_placed|].
  by apply evolves_broadcast, well_formed_placed.
Qed.

Lemma evolves_attack_locked g i sockfd fails :
  well_formed g -> evolves g (attack_locked g i sockfd fails).1.
Proof.
  intros Hwf. rewrite attack_locked_scan.
  destruct (attack_scan_spec g i slots NoDup_slots (slots_in_range g Hwf))
    as (Hlen & Hobs & Hslot & _).
  destruct (attack_scan g i slots) as [[g1 hit] closed]. cbn [fst snd] in *.
  assert (Hwf1 : well_formed g1) by (unfold well_formed in *; congruence).
  assert (H1 : evolves g g1).
  { split; [done|]. split; [done|]. intros q. rewrite Hslot.
    case_decide; [|done]. destruct (is_target g i q) eqn:Ht; [|done].
    apply is_target_spec in Ht as [Ha _]. by apply rtc_once, change_hit. }
  destruct hit; simpl; [|done].
  pose proof (evolves_broadcast fails g1 Hwf1) as H2.
  destruct (broadcast_state_locked fails g1). by eapply evolves_trans.
Qed.

Lemma evolves_quit_locked g i fails :
  well_formed g -> evolves g (quit_locked g i fails).1.
Proof.
  intros Hwf. unfold quit_locked.
  pose proof (evolves_remove_player g i) as H1.
  pose proof (evolves_broadcast fails (remove_player i g)
                (evolves_well_formed _ _ H1 Hwf)) as H2.
  destruct (broadcast_state_locked fails (remove_player i g)).
  by eapply evolves_trans.
Qed.

Lemma evolves_recv_failed g i fails :
  well_formed g -> evolves g (recv_failed g i fails).1.
Proof.
  intros Hwf. unfold recv_failed.
  destruct (active (slot g i)); [by apply evolves_quit_locked|].
  apply evolves_refl.
Qed.

Lemma evolves_thread_cleanup g i sockfd :
  evolves g (thread_cleanup g i sockfd).1.
Proof.
  unfold thread_cleanup. simpl.
  destruct (active (slot g i)); [|apply evolves_refl].
  eapply evolves_trans; [|apply evolves_add_count].
  apply evolves_upd_slot, change_cleared.
Qed.

Lemma evolves_handle_line g i sockfd received fails :
  well_formed g -> evolves g (handle_line g i sockfd received fails).1.1.
Proof.
  intros Hwf. unfold handle_line.
  destruct (parse_command _) as [|direction| | |]; cbn [fst];
    try apply evolves_refl.
  - destruct (move_target _ _ _) as [[newR newC]|]; cbn [fst];
      [|apply evolves_refl].
    by apply evolves_move_locked.
  - by apply evolves_attack_locked.
  - by apply evolves_quit_locked.
Qed.

Lemma evolves_joined g idx fd r c :
  active (slot g idx) = false -> 0 <= fd -> in_bounds r c ->
  evolves g (joined g idx fd r c).
Proof.
  intros Ha Hfd Hb. unfold joined.
  eapply evolves_trans; [|apply evolves_add_count].
  by apply evolves_upd_slot, change_taken.
Qed.

Lemma evolves_accept_client g client_fd draws fails g' out idx :
  well_formed g -> Forall rand_ok draws -> 0 <= client_fd ->
  accept_client g client_fd draws fails = Some (g', out, idx) ->
  evolves g g'.
Proof.
  intros Hwf Hdraws Hfd Hacc.
  destruct (accept_client_cases g client_fd draws fails Hwf Hdraws)
    as [(_ & H)|[(_ & _ & H)|(_ & i & Hi & [(_ & H)|(_ & r & c & Hb & _ & H)])]];
    rewrite H in Hacc; try done;
    try (injection Hacc as <- _ _; apply evolves_refl).
  destruct (find_free_slot_spec g i Hi) as (_ & Hfree & _).
  pose proof (evolves_joined g i client_fd r c Hfree Hfd Hb) as H1.
  pose proof (evolves_broadcast fails _
                (joined_well_formed g i client_fd r c Hwf)) as H2.
  destruct (broadcast_state_locked fails (joined g i client_fd r c)).
  injection Hacc as <- _ _. by eapply evolves_trans.
Qed.

(** Every step of the server changes the slots in these ways only, and
    leaves the grid alone. *)
Lemma exec_evolves w a w' out :
  well_formed (game w) -> exec w a = Some (w', out) ->
  evolves (game w) (game w').
Proof.
  intros Hwf Hexec. unfold exec in Hexec.
  destruct a as [fd draws fails| | |k|k received fails|k fails|k fails|k].
  - destruct (spawning w); [done|].
    destruct (_ && _) eqn:Hpre; [|done].
    apply andb_prop in Hpre as [Hfd%Z.leb_le Hdraws%rand_okb_spec].
    destruct (accept_client _ _ _ _) as [[[g' o] idx]|] eqn:Hacc; [|done].
    injection Hexec as <- _. simpl. by eapply evolves_accept_client.
  - destruct (spawning w); [|done]. injection Hexec as <- _.
    apply evolves_refl.
  - destruct (spawning w) as [idx|]; [|done].
    injection Hexec as <- _. simpl. apply evolves_remove_player.
  - destruct (threads w !! k) as [[i fd []]|]; try done.
    injection Hexec as <- _. apply evolves_refl.
  - destruct (threads w !! k) as [[i fd []]|]; try done.
    destruct (move_request _ _ _) as [[newR newC]|].
    { injection Hexec as <- _. apply evolves_refl. }
    pose proof (evolves_handle_line (game w) i fd received fails Hwf) as Hl.
    destruct (handle_line _ _ _ _ _) as [[g' o] continue].
    by injection Hexec as <- _.
  - destruct (threads w !! k) as [[i fd []]|]; try done.
    pose proof (evolves_recv_failed (game w) i fails Hwf) as Hf.
    destruct (recv_failed _ _ _) as [g' o]. by injection Hexec as <- _.
  - destruct (threads w !! k) as [[i fd []]|]; try done.
    pose proof (evolves_move_locked (game w) i fd newR newC fails Hwf) as Hm.
    destruct (move_locked _ _ _ _ _ _) as [g' o]. by injection Hexec as <- _.
  - destruct (threads w !! k) as [[i fd []]|]; try done.
    pose proof (evolves_thread_cleanup (game w) i fd) as Hf.
    destruct (thread_cleanup _ _ _) as [g' o]. by injection Hexec as <- _.
Qed.

Lemma run_evolves schedule : forall w w',
  well_formed (game w) -> run w schedule = Some w' ->
  evolves (game w) (game w').
Proof.
  induction schedule as [|a rest IH]; intros w w' Hwf Hrun; simpl in Hrun.
  { injection Hrun as <-. apply evolves_refl. }
  destruct (exec w a) as [[w1 out]|] eqn:Hexec; [|done].
  pose proof (exec_evolves w a w1 out Hwf Hexec) as H1.
  eapply evolves_trans; [done|].
  apply IH; [|done]. by eapply evolves_well_formed.
Qed.

(** A property of slots that each change keeps holds of every slot after
    [evolves]. *)
Lemma evolves_slots (P : Player -> Prop) g g' :
  (forall p p', slot_change p p' -> P p -> P p') ->
  evolves g g' -> (forall q, P (slot g q)) -> forall q, P (slot g' q).
Proof.
  intros Hkeep (_ & _ & Hs) HP q. specialize (HP q).
  induction (Hs q) as [|p1 p2 p3 H12 _ IH]; [done|].
  apply IH. by eapply Hkeep.
Qed.

Lemma init_slot draws g q : main_init draws = Some g -> slot g q = init_player q.
Proof.
  intros H. destruct (main_init_players _ _ H) as [Hp _].
  unfold slot. rewrite Hp. by destruct q as [|[|[|[|q]]]].
Qed.

(** A property of slots that holds of the slots [main] initialises and
    that each change keeps holds of every slot of a reachable world. *)
Lemma reachable_slots (P : Player -> Prop) w :
  (forall i, P (init_player i)) ->
  (forall p p', slot_change p p' -> P p -> P p') ->
  reachable w -> forall q, P (slot (game w) q).
Proof.
  intros Hinit Hkeep.
  induction 1 as [draws g Hdraws Hg|w a w' out Hreach IH Hstep]; intros q.
  - simpl. by rewrite (init_slot draws g q Hg).
  - apply (evolves_slots P (game w) (game w') Hkeep); [|done].
    apply (exec_evolves w a w' out); [|done].
    by apply reachable_sound.
Qed.

Lemma slot_change_symbol p p' : slot_change p p' -> symbol p' = symbol p.
Proof.
  destruct 1 as [p r c _|p|p|p _|p fd r c _ _ _]; try done.
  unfold struck. by destruct (dies p).
Qed.

(** X6.  The letters and the grid are fixed at start-up (lines 291-309)
    and no step writes to them again: in the world reached by any
    schedule, slot [i] still carries the letter ['A' + i], the grid is
    the one the placement loop left, and no further step changes it. *)
Theorem letters_and_grid_are_fixed (draws : list Z) (schedule : list action)
    (w : World) :
  boot draws schedule = Some w ->
  (forall i, (i < MAX_PLAYERS)%nat ->
     symbol (slot (game w) i) = ascii_of_nat (65 + i)) /\
  (exists g0, main_init draws = Some g0 /\
              obstacles (game w) = obstacles g0) /\
  (forall a w' out, exec w a = Some (w', out) ->
     obstacles (game w') = obstacles (game w)).
Proof.
  intros Hboot. pose proof (boot_reachable draws schedule w Hboot) as Hreach.
  split; [|split].
  - intros i _. revert i.
    unfold boot in Hboot. destruct (forallb rand_okb draws); [|done].
    destruct (main_init draws) as [g0|] eqn:Hg0; [|done].
    assert (Hwf0 : well_formed (mkWorld g0 [] None).(game)).
    { destruct (main_init_players _ _ Hg0) as [Hp _].
      unfold well_formed. simpl. by rewrite Hp. }
    destruct (run_evolves schedule _ _ Hwf0 Hboot) as (_ & _ & Hs).
    intros i. specialize (Hs i). simpl in Hs.
    rewrite (init_slot draws g0 i Hg0) in Hs.
    assert (Hsym : forall p p', rtc slot_change p p' -> symbol p' = symbol p).
    { induction 1 as [|p1 p2 p3 H12 _ IH]; [done|].
      by rewrite IH, (slot_change_symbol _ _ H12). }
    by rewrite (Hsym _ _ Hs).
  - unfold boot in Hboot. destruct (forallb rand_okb draws); [|done].
    destruct (main_init draws) as [g0|] eqn:Hg0; [|done].
    exists g0. split; [done|].
    assert (Hwf0 : well_formed (mkWorld g0 [] None).(game)).
    { destruct (main_init_players _ _ Hg0) as [Hp _].
      unfold well_formed. simpl. by rewrite Hp. }
    by destruct (run_evolves schedule _ _ Hwf0 Hboot) as (Ho & _).
  - intros a w' out Hexec.
    apply (exec_evolves w a w' out); [|done]. by apply reachable_sound.
Qed.

(** The run [duel]: slot 1 still carries the letter B. *)
Lemma letters_and_grid_are_fixed_witness :
  boot demo_draws duel = Some duel_world /\
  symbol (slot (game duel_world) 1) = "B"%char.
Proof.
  split; [exact duel_world_boot|].
  destruct (letters_and_grid_are_fixed demo_draws duel duel_world)
    as [Hsym _]; [exact duel_world_boot|].
  apply (Hsym 1%nat). unfold MAX_PLAYERS. lia.
Defined.

(** *** Descriptors and health *)

(** X7.  In every reachable world an occupied slot holds a descriptor
    that [accept] returned, never the -1 of a free slot: the test of
    line 85 never skips an occupied slot, and a broadcast attempts one
    [send] of the state text to each occupied slot. *)
Theorem occupied_slot_has_descriptor (w : World) (fails : nat -> bool) :
  reachable w ->
  let g := game w in
  (forall i, active (slot g i) = true -> 0 <= socket_fd (slot g i)) /\
  (forall i, (i < MAX_PLAYERS)%nat -> active (slot g i) = true ->
     EvSend (socket_fd (slot g i)) (StateMsg (players g) (obstacles g))
       ∈ (broadcast_state_locked fails g).2).
Proof.
  intros Hreach g.
  assert (Hfd : forall i, active (slot g i) = true -> 0 <= socket_fd (slot g i)).
  { apply (reachable_slots
             (fun p => active p = true -> 0 <= socket_fd p) w); [done| |done].
    intros p p' Hch Hp.
    destruct Hch as [p r c _|p|p|p Ha|p fd r c _ Hfd _]; simpl; try done.
    - unfold struck. destruct (dies p); simpl; [done|]. exact Hp. }
  split; [exact Hfd|]. intros i Hi Ha.
  destruct (broadcast_spec fails g (proj1 (reachable_sound w Hreach)))
    as (_ & _ & _ & _ & ->).
  apply list_elem_of_further, list_elem_of_In, in_concat.
  exists (delivery fails (StateMsg (players g) (obstacles g)) i (slot g i)).
  split.
  - apply in_map_iff. exists i. split; [done|].
    by apply list_elem_of_In, elem_of_slots.
  - unfold delivery. rewrite Ha. simpl.
    destruct (Z.leb_spec 0 (socket_fd (slot g i))) as [_|Hneg].
    + by left.
    + specialize (Hfd i Ha). lia.
Qed.

(** The world after the run [duel]: slot 0 is occupied. *)
Lemma occupied_slot_has_descriptor_witness :
  reachable duel_world /\ 0 <= socket_fd (slot (game duel_world) 0).
Proof.
  assert (Hr : reachable duel_world)
    by exact (boot_reachable _ _ _ duel_world_boot).
  split; [exact Hr|].
  destruct (occupied_slot_has_descriptor duel_world no_failure Hr) as [Hfd _].
  apply Hfd. reflexivity.
Defined.

Lemma slot_change_health p p' :
  slot_change p p' ->
  (hp p mod DAMAGE = 0 /\ 0 <= hp p <= MAX_HP /\ (active p = true -> 0 < hp p)) ->
  hp p' mod DAMAGE = 0 /\ 0 <= hp p' <= MAX_HP /\ (active p' = true -> 0 < hp p').
Proof.
  unfold DAMAGE, MAX_HP.
  intros Hch (Hmod & Hrange & Hpos).
  destruct Hch as [p r c _|p|p|p Ha|p fd r c _ _ _]; simpl; try done.
  - unfold struck, dies, DAMAGE. specialize (Hpos Ha).
    destruct (Z.leb_spec (hp p - 20) 0) as [Hle|Hgt]; simpl.
    + done.
    + split; [|lia]. rewrite <- Hmod. symmetry.
      rewrite <- (Z_mod_plus_full (hp p - 20) 1 20). f_equal. lia.
Qed.

(** X8.  In every reachable world the health of each slot is a multiple
    of [DAMAGE] between 0 and [MAX_HP], and that of an occupied slot is
    at least [DAMAGE]: a slot is freed by the hit that brings it to zero
    (lines 215-222), the fifth on a slot at full health. *)
Theorem health_is_a_multiple_of_damage (w : World) (q : nat) :
  reachable w ->
  let p := slot (game w) q in
  hp p mod DAMAGE = 0 /\ 0 <= hp p <= MAX_HP /\
  (active p = true -> DAMAGE <= hp p) /\
  (active p = true -> (dies p = true <-> hp p = DAMAGE)).
Proof.
  intros Hreach p.
  assert (H : hp p mod DAMAGE = 0 /\ 0 <= hp p <= MAX_HP /\
              (active p = true -> 0 < hp p)).
  { apply (reachable_slots
             (fun p => hp p mod DAMAGE = 0 /\ 0 <= hp p <= MAX_HP /\
                       (active p = true -> 0 < hp p)) w); [|exact slot_change_health|done].
    intros i. by vm_compute. }
  destruct H as (Hmod & Hrange & Hpos). unfold dies, DAMAGE in *.
  assert (Hge : active p = true -> 20 <= hp p).
  { intros Ha. specialize (Hpos Ha).
    pose proof (Z.div_mod (hp p) 20 ltac:(lia)) as Hdiv.
    rewrite Hmod in Hdiv. lia. }
  split; [done|]. split; [lia|]. split; [exact Hge|].
  intros Ha. specialize (Hge Ha). rewrite Z.leb_le. lia.
Qed.

(** The world after the run [duel]: slot 1 was hit five times. *)
Lemma health_is_a_multiple_of_damage_witness :
  reachable duel_world /\
  hp (slot (game duel_world) 1) mod DAMAGE = 0 /\
  0 <= hp (slot (game duel_world) 1) <= MAX_HP.
Proof.
  assert (Hr : reachable duel_world)
    by exact (boot_reachable _ _ _ duel_world_boot).
  split; [exact Hr|].
  destruct (health_is_a_multiple_of_damage duel_world 1 Hr)
    as (Hmod & Hrange & _).
  split; [exact Hmod|exact Hrange].
Defined.

(** ** The counter and the refusal of a join *)

Lemma count_lag_clear g g' (d : nat -> bool) :
  well_formed g -> well_formed g' ->
  (forall q, q ∈ slots -> d q = true -> active (slot g q) = true) ->
  (forall q, q ∈ slots ->
     active (slot g' q) = active (slot g q) && negb (d q)) ->
  player_count g'
    = player_count g - Z.of_nat (length (List.filter d slots)) ->
  count_lag g' = count_lag g.
Proof.
  intros Hwf Hwf' Hsub Hflags Hcnt. unfold count_lag.
  rewrite !occupied_count_slots by done. rewrite Hcnt.
  rewrite (List.filter_ext_in (fun q => active (slot g' q))
             (fun q => active (slot g q) && negb (d q))).
  2:{ intros q Hq%list_elem_of_In. by apply Hflags. }
  pose proof (filter_length_minus (fun q => active (slot g q)) d slots Hsub).
  lia.
Qed.

Lemma count_lag_broadcast fails g :
  well_formed g -> count_lag (broadcast_state_locked fails g).1 = count_lag g.
Proof.
  intros Hwf.
  destruct (broadcast_spec fails g Hwf) as (_ & _ & Hslot & Hcnt & _).
  apply (count_lag_clear g _ (fun q => send_fails fails q (slot g q)));
    try done.
  - by apply broadcast_well_formed.
  - intros q _. unfold send_fails. by destruct (active (slot g q)).
  - intros q _. rewrite Hslot. unfold send_fails.
    destruct (active (slot g q)) eqn:Ha, (0 <=? socket_fd (slot g q)), (fails q);
      simpl; by rewrite ?Ha.
Qed.

Lemma count_lag_attack_locked g i sockfd fails :
  well_formed g -> count_lag (attack_locked g i sockfd fails).1 = count_lag g.
Proof.
  intros Hwf. rewrite attack_locked_scan.
  destruct (attack_scan_spec g i slots NoDup_slots (slots_in_range g Hwf))
    as (Hlen & Hobs & Hslot & Hcnt & _).
  destruct (attack_scan g i slots) as [[g1 hit] closed]. cbn [fst snd] in *.
  assert (Hwf1 : well_formed g1) by (unfold well_formed in *; congruence).
  assert (Hc1 : count_lag g1 = count_lag g).
  { apply (count_lag_clear g _
             (fun q => is_target g i q && dies (slot g q))); try done.
    - intros q _ [Ht _]%andb_prop. by apply is_target_spec in Ht as [? _].
    - intros q Hq. rewrite Hslot, decide_True by done.
      unfold struck. destruct (is_target g i q) eqn:Ht; simpl.
      + apply is_target_spec in Ht as [Ha _].
        destruct (dies (slot g q)); simpl; by rewrite ?Ha.
      + by rewrite andb_true_r.
    - rewrite Hcnt. by rewrite filter_filter_and. }
  destruct hit; simpl; [|done].
  pose proof (count_lag_broadcast fails g1 Hwf1) as Hb.
  destruct (broadcast_state_locked fails g1) as [g2 out]. cbn [fst] in *.
  by rewrite Hb.
Qed.

Lemma count_lag_upd g i f :
  well_formed g ->
  count_lag (upd_slot i f g)
  = count_lag g
    + if decide (i < MAX_PLAYERS)%nat
      then Z.b2z (active (f (slot g i))) - Z.b2z (active (slot g i)) else 0.
Proof.
  intros Hwf. unfold count_lag. case_decide as Hi.
  - rewrite occupied_count_upd by done. simpl. lia.
  - rewrite occupied_count_out_of_range by done. lia.
Qed.

(** A removal leaves the lag as it is when the slot was occupied, and
    adds one to it when the slot was free. *)
Lemma count_lag_remove_player g i :
  well_formed g ->
  count_lag (remove_player i g)
  = count_lag g + if active (slot g i) then 0 else 1.
Proof.
  intros Hwf. destruct (decide (i < MAX_PLAYERS)%nat) as [Hi|Hi].
  - rewrite remove_player_spec by (by rewrite Hwf).
    unfold count_lag at 1. simpl.
    change (occupied_count (add_count _ ?x)) with (occupied_count x).
    pose proof (count_lag_upd g i freed Hwf) as Hu. unfold count_lag in *.
    rewrite decide_True in Hu by done. simpl in Hu.
    destruct (active (slot g i)); simpl in *; lia.
  - unfold remove_player.
    rewrite !occupied_count_out_of_range; try done.
    + rewrite slot_out_of_range by (rewrite Hwf; lia).
      unfold count_lag. simpl.
      change (occupied_count (add_count _ ?x)) with (occupied_count x). lia.
    + by apply well_formed_upd_slot.
Qed.

Lemma count_lag_placed g i r c :
  well_formed g -> count_lag (placed g i r c) = count_lag g.
Proof.
  intros Hwf. unfold placed. rewrite count_lag_upd by done.
  case_decide; simpl; lia.
Qed.

Lemma count_lag_move_locked g i sockfd newR newC fails :
  well_formed g ->
  count_lag (move_locked g i sockfd newR newC fails).1 = count_lag g.
Proof.
  intros Hwf.
  destruct (move_locked_cases g i sockfd newR newC fails Hwf)
    as [(_ & ->)|[(_ & _ & ->)|[(_ & _ & _ & ->)|(_ & _ & _ & ->)]]]; try done.
  rewrite count_lag_broadcast by (by apply well_formed_placed).
  by apply count_lag_placed.
Qed.

Lemma count_lag_quit_locked g i fails :
  well_formed g ->
  count_lag (quit_locked g i fails).1
  = count_lag g + if active (slot g i) then 0 else 1.
Proof.
  intros Hwf. unfold quit_locked.
  pose proof (count_lag_broadcast fails (remove_player i g)
                (fades_well_formed _ _ (fades_remove_player g i) Hwf)) as Hb.
  destruct (broadcast_state_locked fails (remove_player i g)). simpl in *.
  by rewrite Hb, count_lag_remove_player.
Qed.

Lemma count_lag_thread_cleanup g i sockfd :
  well_formed g -> count_lag (thread_cleanup g i sockfd).1 = count_lag g.
Proof.
  intros Hwf. unfold thread_cleanup. simpl.
  destruct (active (slot g i)) eqn:Ha; [|done].
  unfold count_lag at 1.
  change (occupied_count (add_count _ ?x)) with (occupied_count x).
  pose proof (count_lag_upd g i (with_active false) Hwf) as Hu.
  unfold count_lag in *. rewrite Ha in Hu. simpl in *.
  case_decide as Hi; [lia|].
  rewrite slot_out_of_range in Ha; [done|]. rewrite Hwf. lia.
Qed.

Lemma count_lag_joined g idx fd r c :
  well_formed g -> (idx < MAX_PLAYERS)%nat -> active (slot g idx) = false ->
  count_lag (joined g idx fd r c) = count_lag g.
Proof.
  intros Hwf Hi Ha. unfold joined, count_lag at 1.
  change (occupied_count (add_count _ ?x)) with (occupied_count x).
  pose proof (count_lag_upd g idx
                (fun p => with_pos r c (occupied_by fd p)) Hwf) as Hu.
  unfold count_lag in *. rewrite decide_True, Ha in Hu by done.
  simpl in *. lia.
Qed.

(** A late leave adds one to the lag; every other step keeps it. *)
Lemma exec_count_lag_exact w a w' out :
  well_formed (game w) -> exec w a = Some (w', out) ->
  (late_leave w a -> count_lag (game w') = count_lag (game w) + 1) /\
  (~ late_leave w a -> count_lag (game w') = count_lag (game w)).
Proof.
  intros Hwf Hexec. unfold exec in Hexec.
  destruct a as [fd draws fails| | |k|k received fails|k fails|k fails|k].
  - split; [done|]. intros _.
    destruct (spawning w); [done|].
    destruct (_ && _) eqn:Hpre; [|done].
    apply andb_prop in Hpre as [_ Hdraws%rand_okb_spec].
    destruct (accept_client _ _ _ _) as [[[g' o] idx]|] eqn:Hacc; [|done].
    injection Hexec as <- _. simpl.
    destruct (accept_client_cases (game w) fd draws fails Hwf Hdraws)
      as [(_ & H)|[(_ & _ & H)|(_ & i & Hi & [(_ & H)|(_ & r & c & _ & _ & H)])]];
      rewrite H in Hacc; try done; try (by injection Hacc as <- _ _).
    destruct (find_free_slot_spec (game w) i Hi) as (Hlt & Hfree & _).
    pose proof (count_lag_broadcast fails _
                  (joined_well_formed (game w) i fd r c Hwf)) as Hb.
    destruct (broadcast_state_locked fails (joined (game w) i fd r c)).
    injection Hacc as <- _ _. simpl in Hb.
    by rewrite Hb, count_lag_joined.
  - split; [done|]. intros _.
    destruct (spawning w); [|done]. by injection Hexec as <- _.
  - destruct (spawning w) as [idx|] eqn:Hsp; [|done].
    injection Hexec as <- _. simpl. rewrite count_lag_remove_player by done.
    destruct (active (slot (game w) idx)) eqn:Ha.
    + split; [|lia]. intros (idx' & Heq & Ha'). congruence.
    + split; [done|]. intros Hn. destruct Hn. by exists idx.
  - split; [done|]. intros _.
    destruct (threads w !! k) as [[i fd []]|]; try done.
    by injection Hexec as <- _.
  - destruct (threads w !! k) as [[i fd []]|] eqn:Ht; try done.
    unfold move_request in Hexec.
    assert (Hlate : late_leave w (Recv k received fails) <->
                    parse_command (CStr.trim_line received) = Quit /\
                    active (slot (game w) i) = false).
    { simpl. split.
      - intros (t & Ht' & _ & Hq & Ha). rewrite Ht in Ht'.
        by injection Ht' as <-.
      - intros [Hq Ha]. eexists. by repeat split. }
    rewrite Hlate. clear Hlate.
    unfold handle_line in Hexec.
    destruct (parse_command _) as [|direction| | |] eqn:Hparse.
    + injection Hexec as <- _. split; [by intros [? _]|done].
    + split; [by intros [? _]|]. intros _.
      destruct (move_target _ _ _) as [[newR newC]|]; by injection Hexec as <- _.
    + split; [by intros [? _]|]. intros _.
      pose proof (count_lag_attack_locked (game w) i fd fails Hwf) as Hl.
      destruct (attack_locked _ _ _ _) as [g' o]. by injection Hexec as <- _.
    + pose proof (count_lag_quit_locked (game w) i fails Hwf) as Hl.
      destruct (quit_locked _ _ _) as [g' o]. injection Hexec as <- _.
      simpl in *. rewrite Hl.
      destruct (active (slot (game w) i)).
      * split; [by intros [_ ?]|lia].
      * split; [done|]. intros Hn. by destruct Hn.
    + injection Hexec as <- _. split; [by intros [? _]|done].
  - split; [done|]. intros _.
    destruct (threads w !! k) as [[i fd []]|]; try done.
    assert (count_lag (recv_failed (game w) i fails).1 = count_lag (game w))
      as Hf.
    { unfold recv_failed. destruct (active (slot (game w) i)) eqn:Ha; [|done].
      pose proof (count_lag_quit_locked (game w) i fails Hwf) as Hq.
      rewrite Ha in Hq. unfold quit_locked in Hq.
      destruct (broadcast_state_locked _ _). simpl in *. lia. }
    destruct (recv_failed _ _ _) as [g' o]. by injection Hexec as <- _.
  - split; [done|]. intros _.
    destruct (threads w !! k) as [[i fd []]|]; try done.
    pose proof (count_lag_move_locked (game w) i fd newR newC fails Hwf) as Hm.
    destruct (move_locked _ _ _ _ _ _) as [g' o]. by injection Hexec as <- _.
  - split; [done|]. intros _.
    destruct (threads w !! k) as [[i fd []]|]; try done.
    pose proof (count_lag_thread_cleanup (game w) i fd Hwf) as Hf.
    destruct (thread_cleanup _ _ _) as [g' o]. by injection Hexec as <- _.
Qed.

(** No step lowers the lag. *)
Lemma exec_count_lag w a w' out :
  well_formed (game w) -> exec w a = Some (w', out) ->
  count_lag (game w) <= count_lag (game w').
Proof.
  intros Hwf Hexec.
  destruct (exec_count_lag_exact w a w' out Hwf Hexec) as [Hlate Htidy].
  assert (Hdec : late_leave w a \/ ~ late_leave w a).
  { destruct a as [| | |k|k received fails|k fails|k fails|k]; simpl; try tauto.
    - destruct (spawning w) as [idx|]; [|right; by intros (? & ? & _)].
      destruct (active (slot (game w) idx)) eqn:Ha.
      + right. intros (idx' & Heq & Ha'). congruence.
      + left. by exists idx.
    - destruct (threads w !! k) as [t|]; [|right; by intros (? & ? & _)].
      destruct (at_pc t) eqn:Hpc; try (right; intros (? & [= <-] & ? & _); congruence).
      destruct (parse_command (CStr.trim_line received)) eqn:Hp;
        try (right; intros (? & _ & _ & ? & _); congruence).
      destruct (active (slot (game w) (player_index t))) eqn:Ha.
      + right. intros (? & [= <-] & _ & _ & ?). congruence.
      + left. by exists t. }
  destruct Hdec as [H|H]; [rewrite (Hlate H)|rewrite (Htidy H)]; lia.
Qed.

Lemma occupied_count_range g :
  well_formed g -> 0 <= occupied_count g <= Z.of_nat MAX_PLAYERS.
Proof.
  intros Hwf. unfold occupied_count.
  pose proof (filter_length_le active (players g)) as Hle.
  rewrite Hwf in Hle. lia.
Qed.

Lemma all_occupied g :
  well_formed g -> occupied_count g = Z.of_nat MAX_PLAYERS ->
  forall i, (i < MAX_PLAYERS)%nat -> active (slot g i) = true.
Proof.
  destruct g as [ps n obs]. unfold well_formed, occupied_count, slot. simpl.
  destruct ps as [|p0 [|p1 [|p2 [|p3 [|? ?]]]]]; try done. intros _. simpl.
  unfold MAX_PLAYERS.
  destruct (active p0) eqn:H0, (active p1) eqn:H1, (active p2) eqn:H2,
    (active p3) eqn:H3; simpl; try lia.
  intros _ [|[|[|[|i]]]] Hi; simpl; done || lia.
Qed.

(** X9.  The counter never exceeds the number of occupied flags, which
    is at most [MAX_PLAYERS]: no step raises the counter without
    setting a flag.  Hence the test of line 351 turns a client away
    with [Server full] only when all four slots are occupied. *)
Theorem server_full_means_full (w : World) :
  reachable w ->
  let g := game w in
  player_count g <= occupied_count g <= Z.of_nat MAX_PLAYERS /\
  forall client_fd draws fails,
    accept_client g client_fd draws fails
      = Some (g, [EvSend client_fd (Text msg_server_full); EvClose client_fd],
              None) ->
    forall i, (i < MAX_PLAYERS)%nat -> active (slot g i) = true.
Proof.
  intros Hreach g.
  assert (Hlag : 0 <= count_lag g).
  { subst g. induction Hreach as [draws g Hdraws Hg|w a w' out Hreach IH Hstep].
    - pose proof (main_init_count_consistent draws g Hg) as Hc.
      unfold count_lag. simpl. rewrite Hc. lia.
    - pose proof (exec_count_lag w a w' out
                    (proj1 (reachable_sound w Hreach)) Hstep). lia. }
  pose proof (proj1 (reachable_sound w Hreach)) as Hwf. fold g in Hwf.
  pose proof (occupied_count_range g Hwf) as Hocc.
  unfold count_lag in Hlag. split; [lia|].
  intros fd draws fails Hacc. apply all_occupied; [done|].
  unfold accept_client in Hacc.
  destruct (Z.geb_spec (player_count g) (Z.of_nat MAX_PLAYERS)) as [Hge|Hlt];
    [lia|].
  exfalso. destruct (find_free_slot g) as [idx|].
  - destruct (spawn_position idx _ draws) as [g2|]; [|done].
    simpl in Hacc. by injection Hacc.
  - injection Hacc as Hmsg. revert Hmsg. by vm_compute.
Qed.

(** The world after the run [duel]. *)
Lemma server_full_means_full_witness :
  reachable duel_world /\
  player_count (game duel_world) <= occupied_count (game duel_world).
Proof.
  assert (Hr : reachable duel_world)
    by exact (boot_reachable _ _ _ duel_world_boot).
  split; [exact Hr|].
  destruct (server_full_means_full duel_world Hr) as [[Hle _] _]. exact Hle.
Defined.

(** X10.  What the counter loses: a QUIT handled for a slot that is
    already free, and the clean-up after a failed [pthread_create] for
    a slot that is already free, each leave the counter one further
    below the number of occupied flags (lines 244 and 399); every
    other step, joins and removals by a failed [send] included, keeps
    the difference as it is. *)
Theorem counter_lags_by_late_leaves (w w' : World) (a : action)
    (out : list event) :
  well_formed (game w) -> exec w a = Some (w', out) ->
  (late_leave w a ->
   occupied_count (game w') - player_count (game w')
   = occupied_count (game w) - player_count (game w) + 1) /\
  (~ late_leave w a ->
   occupied_count (game w') - player_count (game w')
   = occupied_count (game w) - player_count (game w)).
Proof.
  intros Hwf Hexec.
  destruct (exec_count_lag_exact w a w' out Hwf Hexec) as [Hlate Htidy].
  unfold count_lag in *. split; [exact Hlate|exact Htidy].
Qed.

Lemma late_quit_exec :
  exec duel_world (Recv 1 "QUIT" no_failure)
  = Some (after_late_quit, late_quit_calls).
Proof. vm_compute. reflexivity. Qed.

(** The late QUIT of the run [late_quit]. *)
Lemma counter_lags_by_late_leaves_witness :
  well_formed (game duel_world) /\
  exec duel_world (Recv 1 "QUIT" no_failure)
    = Some (after_late_quit, late_quit_calls) /\
  late_leave duel_world (Recv 1 "QUIT" no_failure) /\
  occupied_count (game after_late_quit) - player_count (game after_late_quit)
  = occupied_count (game duel_world) - player_count (game duel_world) + 1.
Proof.
  assert (Hwf : well_formed (game duel_world)) by reflexivity.
  assert (Hlate : late_leave duel_world (Recv 1 "QUIT" no_failure)).
  { exists (mkThread 1 5 AtRecv). repeat split; reflexivity. }
  split; [exact Hwf|]. split; [exact late_quit_exec|]. split; [exact Hlate|].
  destruct (counter_lags_by_late_leaves duel_world after_late_quit
              (Recv 1 "QUIT" no_failure) late_quit_calls Hwf late_quit_exec)
    as [Hone _].
  exact (Hone Hlate).
Defined.

(** ** The handler threads *)

(** X11.  Every handler thread, and the slot [main] is about to start
    one for, has an index below [MAX_PLAYERS] in every reachable world:
    the reads and writes of [players[player_index]] in
    [client_handler], and of [players[idx]] after a failed
    [pthread_create], stay inside the array. *)
Theorem handler_indices_in_range (w : World) :
  reachable w ->
  Forall (fun t => (player_index t < MAX_PLAYERS)%nat) (threads w) /\
  (forall idx, spawning w = Some idx -> (idx < MAX_PLAYERS)%nat).
Proof.
  induction 1 as [draws g Hdraws Hg|w a w' out Hreach [IHt IHs] Hstep].
  { split; [constructor|done]. }
  pose proof (proj1 (reachable_sound w Hreach)) as Hwf.
  assert (Hins : forall k t, (player_index t < MAX_PLAYERS)%nat ->
            Forall (fun t => (player_index t < MAX_PLAYERS)%nat)
              (<[k := t]> (threads w))).
  { intros k t Ht. apply Forall_insert; done. }
  assert (Hlook : forall k i fd p, threads w !! k = Some (mkThread i fd p) ->
            (i < MAX_PLAYERS)%nat).
  { intros k i fd p Hk.
    by apply (proj1 (Forall_lookup _ _) IHt k _ Hk). }
  unfold exec in Hstep.
  destruct a as [fd draws fails| | |k|k received fails|k fails|k fails|k].
  - destruct (spawning w); [done|].
    destruct (_ && _) eqn:Hpre; [|done].
    apply andb_prop in Hpre as [_ Hdraws%rand_okb_spec].
    destruct (accept_client _ _ _ _) as [[[g' o] idx]|] eqn:Hacc; [|done].
    injection Hstep as <- _. simpl. split; [done|].
    intros i ->.
    destruct (accept_client_cases (game w) fd draws fails Hwf Hdraws)
      as [(_ & H)|[(_ & _ & H)|(_ & j & Hj & [(_ & H)|(_ & r & c & _ & _ & H)])]];
      rewrite H in Hacc; try done.
    destruct (broadcast_state_locked _ _). injection Hacc as _ _ <-.
    by destruct (find_free_slot_spec (game w) j Hj) as (? & _).
  - destruct (spawning w) as [idx|] eqn:Hsp; [|done].
    injection Hstep as <- _. simpl. split; [|done].
    apply Forall_app. split; [done|].
    apply Forall_cons. split; [simpl; by apply IHs|constructor].
  - destruct (spawning w) as [idx|]; [|done]. by injection Hstep as <- _.
  - destruct (threads w !! k) as [[i fd []]|] eqn:Hk; try done.
    injection Hstep as <- _. simpl. split; [|done]. apply Hins. simpl.
    by eapply Hlook.
  - destruct (threads w !! k) as [[i fd []]|] eqn:Hk; try done.
    destruct (move_request _ _ _) as [[newR newC]|].
    { injection Hstep as <- _. simpl. split; [|done]. apply Hins. simpl.
      by eapply Hlook. }
    destruct (handle_line _ _ _ _ _) as [[g' o] continue].
    injection Hstep as <- _. simpl. split; [|done]. apply Hins. simpl.
    by eapply Hlook.
  - destruct (threads w !! k) as [[i fd []]|] eqn:Hk; try done.
    destruct (recv_failed _ _ _) as [g' o].
    injection Hstep as <- _. simpl. split; [|done]. apply Hins. simpl.
    by eapply Hlook.
  - destruct (threads w !! k) as [[i fd []]|] eqn:Hk; try done.
    destruct (move_locked _ _ _ _ _ _) as [g' o].
    injection Hstep as <- _. simpl. split; [|done]. apply Hins. simpl.
    by eapply Hlook.
  - destruct (threads w !! k) as [[i fd []]|] eqn:Hk; try done.
    destruct (thread_cleanup _ _ _) as [g' o].
    injection Hstep as <- _. simpl. split; [|done].
    by apply Forall_delete.
Qed.

(** The world after the run [duel], with its two threads. *)
Lemma handler_indices_in_range_witness :
  reachable duel_world /\
  Forall (fun t => (player_index t < MAX_PLAYERS)%nat) (threads duel_world).
Proof.
  assert (Hr : reachable duel_world)
    by exact (boot_reachable _ _ _ duel_world_boot).
  split; [exact Hr|].
  destruct (handler_indices_in_range duel_world Hr) as [Hthreads _].
  exact Hthreads.
Defined.

(** ** How commands compose *)

Lemma broadcast_no_failure g :
  well_formed g -> (broadcast_state_locked no_failure g).1 = g.
Proof.
  intros Hwf.
  destruct (broadcast_spec no_failure g Hwf) as (Hl & Ho & Hs & Hc & _).
  apply game_ext; try done.
  - intros q _. rewrite Hs. unfold send_fails, no_failure.
    by rewrite andb_false_r.
  - rewrite Hc. unfold send_fails, no_failure.
    rewrite (List.filter_ext _ (fun _ => false)).
    + by rewrite filter_false, Z.sub_0_r.
    + intros q. by rewrite andb_false_r.
Qed.

Lemma target_cell_opposite (d : direction) (r c : Z) :
  target_cell (opposite d) (target_cell d r c).1 (target_cell d r c).2 = (r, c).
Proof. destruct d; simpl; f_equal; lia. Qed.

Lemma handle_line_direction g i sockfd line fails d :
  parse_command (CStr.trim_line line) = Move (direction_name d) ->
  handle_line g i sockfd line fails
  = (move_locked g i sockfd
       (target_cell d (row (slot g i)) (col (slot g i))).1
       (target_cell d (row (slot g i)) (col (slot g i))).2 fails, true).
Proof.
  intros Hparse. unfold handle_line. rewrite Hparse, move_target_direction.
  by destruct (target_cell d _ _).
Qed.

(** X12.  A MOVE that went through is undone by the MOVE in the
    opposite direction: when no [send] fails and no other command comes
    between the two, the globals are again what they were (lines
    152-199). *)
Theorem move_there_and_back (g : Game) (i : nat) (sockfd : Z)
    (line back : string) (d : direction) :
  sound g -> (i < MAX_PLAYERS)%nat -> active (slot g i) = true ->
  parse_command (CStr.trim_line line) = Move (direction_name d) ->
  parse_command (CStr.trim_line back) = Move (direction_name (opposite d)) ->
  let g1 := (handle_line g i sockfd line no_failure).1.1 in
  g1 <> g ->
  (handle_line g1 i sockfd back no_failure).1.1 = g.
Proof.
  intros [Hwf [Hcells Huniq]] Hi Ha Hline Hback g1 Hmoved.
  subst g1. rewrite (handle_line_direction _ _ _ _ _ _ Hline) in *.
  cbn [fst] in *.
  destruct (target_cell d (row (slot g i)) (col (slot g i))) as [r c] eqn:Ht.
  cbn [fst snd] in *.
  destruct (move_locked_cases g i sockfd r c no_failure Hwf)
    as [(_ & H)|[(_ & _ & H)|[(_ & _ & _ & H)|(Hb & Hobs & Hfree & H)]]];
    rewrite H in *; try done.
  rewrite broadcast_no_failure in * by (by apply well_formed_placed).
  rewrite (handle_line_direction _ _ _ _ _ _ Hback). cbn [fst].
  assert (Hlen : (i < length (players g))%nat) by (by rewrite Hwf).
  assert (Hslot : slot (placed g i r c) i = with_pos r c (slot g i)).
  { unfold placed. by rewrite slot_upd_slot_eq. }
  rewrite Hslot. simpl row. simpl col.
  pose proof (target_cell_opposite d (row (slot g i)) (col (slot g i))) as Hopp.
  rewrite Ht in Hopp. simpl in Hopp. rewrite Hopp. cbn [fst snd].
  destruct (Hcells i Ha) as [Hin Hno].
  destruct (move_locked_cases (placed g i r c) i sockfd (row (slot g i))
              (col (slot g i)) no_failure (well_formed_placed g i r c Hwf))
    as [(Hout & _)|[(_ & Hob & _)|[(_ & _ & Htaken & _)|(_ & _ & _ & ->)]]].
  - done.
  - done.
  - exfalso. destruct Htaken as (q & Hq & Hqa & Hqr & Hqc).
    unfold placed in *. rewrite slot_upd_slot_ne in * by done.
    apply Hq. by apply Huniq.
  - rewrite broadcast_no_failure
      by (by apply well_formed_placed, well_formed_placed).
    rewrite placed_placed. unfold placed.
    apply upd_slot_same; [done|]. by destruct (slot g i).
Qed.

Lemma arena_sound : sound arena.
Proof.
  assert (H : exists w, boot demo_draws (take 6 duel) = Some w /\ game w = arena).
  { vm_compute. eexists. split; reflexivity. }
  destruct H as (w & Hboot & <-).
  by apply reachable_sound, (boot_reachable demo_draws (take 6 duel)).
Qed.

(** Slot 0 of [arena] moves up from (3,3) and down again. *)
Lemma move_there_and_back_witness :
  sound arena /\ active (slot arena 0) = true /\
  (handle_line arena 0 4 "MOVE UP" no_failure).1.1 <> arena /\
  (handle_line (handle_line arena 0 4 "MOVE UP" no_failure).1.1 0 4
     "MOVE DOWN" no_failure).1.1 = arena.
Proof.
  pose proof arena_sound as Hsound.
  assert (Hmoved : (handle_line arena 0 4 "MOVE UP" no_failure).1.1 <> arena).
  { vm_compute. intros H. discriminate H. }
  split; [exact Hsound|]. split; [reflexivity|]. split; [exact Hmoved|].
  apply (move_there_and_back arena 0 4 "MOVE UP" "MOVE DOWN" UP).
  - exact Hsound.
  - unfold MAX_PLAYERS. lia.
  - reflexivity.
  - reflexivity.
  - reflexivity.
  - exact Hmoved.
Defined.

(** ** The state text (lines 47-78) *)

Lemma length_append (s t : string) :
  String.length (s +:+ t) = (String.length s + String.length t)%nat.
Proof. induction s as [|a s IH]; simpl; [done|]. by rewrite IH. Qed.

Lemma length_concat (l : list string) :
  String.length (String.concat "" l)
  = foldr (fun s n => (String.length s + n)%nat) 0%nat l.
Proof.
  induction l as [|s l IH]; [done|].
  change (String.concat "" (s :: l))
    with (match l with
          | [] => s
          | _ :: _ => s +:+ "" +:+ String.concat "" l
          end).
  destruct l as [|t l]; [simpl; lia|].
  rewrite !length_append, IH. simpl. lia.
Qed.

Lemma pretty_N_go_length (k : nat) : forall (x : N) (s : string),
  (x < 10 ^ N.of_nat k)%N ->
  (String.length (pretty_N_go x s) <= k + String.length s)%nat.
Proof.
  induction k as [|k IH]; intros x s Hx.
  - assert (x = 0%N) as -> by (simpl in Hx; lia).
    rewrite pretty_N_go_0. lia.
  - destruct (decide (x = 0%N)) as [->|Hne].
    { rewrite pretty_N_go_0. lia. }
    rewrite pretty_N_go_step by lia.
    etrans; [apply IH|simpl; lia].
    rewrite Nat2N.inj_succ, N.pow_succ_r' in Hx.
    apply N.Div0.div_lt_upper_bound. lia.
Qed.

Lemma pretty_int_length (z : Z) :
  int_range z -> (1 <= String.length (pretty z) <= 11)%nat.
Proof.
  unfold int_range. intros Hz.
  destruct z as [|p|p]; unfold pretty, pretty_Z; [simpl; lia| |].
  - unfold pretty, pretty_positive, pretty, pretty_N.
    rewrite decide_False by done.
    pose proof (pretty_N_go_length 10 (N.pos p) "" ltac:(simpl; lia)) as Hlen.
    simpl in Hlen. split; [|lia].
    rewrite pretty_N_go_step by lia. 
    assert (H : forall x s, (1 <= String.length s)%nat ->
                (1 <= String.length (pretty_N_go x s))%nat).
    { intros x. induction (N.lt_wf_0 x) as [x _ IH]. intros s Hs.
      destruct (decide (x = 0%N)) as [->|Hne]; [by rewrite pretty_N_go_0|].
      rewrite pretty_N_go_step by lia. apply IH; [|simpl; lia].
      apply N.div_lt; lia. }
    apply H. simpl. lia.
  - unfold pretty, pretty_positive, pretty, pretty_N.
    rewrite decide_False by done. rewrite length_append.
    pose proof (pretty_N_go_length 10 (N.pos p) "" ltac:(simpl; lia)) as Hlen.
    simpl in *. lia.
Qed.

Lemma length_player_line (p : Player) :
  ints_in_range p -> (String.length (player_line p) <= 47)%nat.
Proof.
  intros (Hhp & Hrow & Hcol). unfold player_line.
  cbn [String.length]. rewrite length_concat. cbn [foldr].
  pose proof (pretty_int_length _ Hhp).
  pose proof (pretty_int_length _ Hrow).
  pose proof (pretty_int_length _ Hcol).
  change (String.length ": HP=") with 5%nat.
  change (String.length " at (") with 5%nat.
  change (String.length ",") with 1%nat.
  change (String.length ")") with 1%nat.
  change (String.length nl) with 1%nat. lia.
Qed.

Lemma length_grid_row_text ps grid r :
  String.length (grid_row_text ps grid r) = 11%nat.
Proof. reflexivity. Qed.

Lemma length_player_lines (ps : list Player) :
  Forall ints_in_range ps ->
  (foldr (fun s n => (String.length s + n)%nat) 0%nat
     (map player_line (List.filter active ps)) <= 47 * length ps)%nat.
Proof.
  induction 1 as [|p ps Hp _ IH]; [simpl; lia|].
  cbn [List.filter length]. pose proof (length_player_line p Hp).
  destruct (active p); cbn [map foldr]; lia.
Qed.

(** X13.  The state text always fits its buffer: for up to
    [MAX_PLAYERS] slots holding 32-bit [int]s it has at most 258
    characters, 70 for the grid and the two headings and at most 47 for
    the line of each occupied slot, so the [snprintf] calls of lines
    50-76 never reach the end of [state_msg[512]] and nothing is cut
    off. *)
Theorem state_text_fits_buffer (ps : list Player) (grid : list (list Z)) :
  (length ps <= MAX_PLAYERS)%nat -> Forall ints_in_range ps ->
  (70 <= String.length (bytes_of (StateMsg ps grid)) <= 258)%nat /\
  (String.length (bytes_of (StateMsg ps grid)) < 512)%nat.
Proof.
  intros Hlen Hints. unfold MAX_PLAYERS in Hlen.
  assert (Hsize : String.length (state_text ps grid)
                  = (70 + foldr (fun s n => (String.length s + n)%nat) 0%nat
                       (map player_line (List.filter active ps)))%nat).
  { unfold state_text. rewrite length_concat.
    change (seqZ 0 GRID_SIZE) with [0; 1; 2; 3; 4].
    cbn [map app foldr]. rewrite !length_grid_row_text.
    change (String.length ("Grid:" +:+ nl)) with 6%nat.
    change (String.length ("Players:" +:+ nl)) with 9%nat. lia. }
  pose proof (length_player_lines ps Hints). simpl bytes_of.
  rewrite Hsize. lia.
Qed.

(** The roster of [arena]. *)
Lemma state_text_fits_buffer_witness :
  (length (players arena) <= MAX_PLAYERS)%nat /\
  Forall ints_in_range (players arena) /\
  (String.length (bytes_of (StateMsg (players arena) (obstacles arena))) < 512)%nat.
Proof.
  assert (Hlen : (length (players arena) <= MAX_PLAYERS)%nat)
    by (apply Nat.leb_le; reflexivity).
  assert (Hints : Forall ints_in_range (players arena)).
  { repeat constructor; unfold int_range; simpl; lia. }
  split; [exact Hlen|]. split; [exact Hints|].
  destruct (state_text_fits_buffer (players arena) (obstacles arena) Hlen Hints)
    as [_ Hfit].
  exact Hfit.
Defined.

Lemma reachable_symbol w :
  reachable w -> forall i, symbol (slot (game w) i) = ascii_of_nat (65 + i).
Proof.
  induction 1 as [draws g Hdraws Hg|w a w' out Hreach IH Hstep]; intros i.
  - simpl. by rewrite (init_slot draws g i Hg).
  - rewrite <- IH.
    destruct (exec_evolves w a w' out (proj1 (reachable_sound w Hreach)) Hstep)
      as (_ & _ & Hs).
    induction (Hs i) as [|p1 p2 p3 H12 _ IH']; [done|].
    by rewrite IH', (slot_change_symbol _ _ H12).
Qed.

Lemma elem_of_players g pl :
  In pl (players g) ->
  exists i, (i < length (players g))%nat /\ slot g i = pl.
Proof.
  intros Hin%list_elem_of_In. apply list_elem_of_lookup in Hin as [i Hi].
  exists i. split; [by eapply lookup_lt_Some|].
  unfold slot. by rewrite Hi.
Qed.

(** X14.  The grid part of the state text shows a reachable state as it
    is (lines 53-63): the cell of an occupied slot carries that slot's
    letter, every obstacle shows as [X], since no occupied slot stands
    on one, and every other cell of the grid as a dot. *)
Theorem grid_shows_the_state (w : World) (r c : Z) :
  reachable w ->
  let g := game w in
  let shown := cell_char (players g) (obstacles g) r c in
  (forall i, (i < MAX_PLAYERS)%nat -> active (slot g i) = true ->
     row (slot g i) = r -> col (slot g i) = c ->
     shown = ascii_of_nat (65 + i)) /\
  (obstacle_at (obstacles g) r c = 1 -> shown = "X"%char) /\
  ((forall i, (i < MAX_PLAYERS)%nat -> active (slot g i) = true ->
      row (slot g i) = r -> col (slot g i) <> c) ->
   obstacle_at (obstacles g) r c <> 1 -> shown = "."%char).
Proof.
  intros Hreach g shown.
  destruct (reachable_sound w Hreach) as [Hwf [Hcells Huniq]].
  fold g in Hwf, Hcells, Huniq.
  pose proof (reachable_symbol w Hreach) as Hsym. fold g in Hsym.
  subst shown. unfold cell_char.
  destruct (find _ (players g)) as [pl|] eqn:Hfind.
  - apply find_some in Hfind as [Hin Hpl].
    apply elem_of_players in Hin as (j & Hj & <-).
    apply andb_prop in Hpl as [[Ha Hr%Z.eqb_eq]%andb_prop Hc%Z.eqb_eq].
    rewrite Hwf in Hj. split; [|split].
    + intros i Hi Hai Hri Hci.
      assert (i = j) as -> by (apply Huniq; congruence). apply Hsym.
    + intros Hobs. destruct (Hcells j Ha) as [_ Hfree]. congruence.
    + intros Hnone _. by destruct (Hnone j Hj Ha Hr).
  - split; [|split].
    + intros i Hi Hai Hri Hci. exfalso.
      pose proof (find_none _ _ Hfind (slot g i)) as Hno. simpl in Hno.
      rewrite Hai, Hri, Hci, !Z.eqb_refl in Hno.
      enough (false = true) by done. symmetry. apply Hno.
      apply list_elem_of_In, list_elem_of_lookup. exists i.
      apply slot_lookup. by rewrite Hwf.
    + intros ->. done.
    + intros _ Hobs. by destruct (Z.eqb_spec (obstacle_at (obstacles g) r c) 1).
Qed.

(** The world after the run [duel]: slot 0 stands on (3,3). *)
Lemma grid_shows_the_state_witness :
  reachable duel_world /\
  cell_char (players (game duel_world)) (obstacles (game duel_world)) 3 3
  = "A"%char.
Proof.
  assert (Hr : reachable duel_world)
    by exact (boot_reachable _ _ _ duel_world_boot).
  split; [exact Hr|].
  destruct (grid_shows_the_state duel_world 3 3 Hr) as [Hletter _].
  apply (Hletter 0%nat); [unfold MAX_PLAYERS; lia|reflexivity..].
Defined.

(** ** Leaving: what is closed, and when *)

Lemma delete_insert_same {A : Type} (l : list A) (k : nat) (x : A) :
  delete k (<[k := x]> l) = delete k l.
Proof.
  revert k. induction l as [|y l IH]; intros [|k]; simpl; try done.
  by rewrite IH.
Qed.

Lemma remove_player_inactive g i : active (slot (remove_player i g) i) = false.
Proof.
  unfold remove_player. rewrite slot_add_count, slot_upd_slot.
  case_decide as H; [done|]. rewrite length_upd_slot in H.
  rewrite slot_upd_slot. case_decide as H'; [tauto|].
  apply slot_out_of_range.
  destruct (decide (i < length (players g))%nat); [tauto|lia].
Qed.

Lemma broadcast_inactive fails g i :
  well_formed g -> active (slot g i) = false ->
  active (slot (broadcast_state_locked fails g).1 i) = false.
Proof.
  intros Hwf Ha. destruct (broadcast_spec fails g Hwf) as (_ & _ & Hs & _).
  rewrite Hs. by destruct (send_fails _ _ _).
Qed.

(** The two steps of a thread that leaves after a removal made by
    itself: the removal with its broadcast, then the final clean-up. *)
Lemma leave_then_cleanup w k i fd (a : action) g1 sent :
  well_formed (game w) ->
  threads w !! k = Some (mkThread i fd AtRecv) ->
  socket_fd (slot (game w) i) = fd ->
  broadcast_state_locked
    (match a with
     | Recv _ _ fails | RecvFailed _ fails => fails
     | _ => no_failure
     end) (remove_player i (game w)) = (g1, sent) ->
  exec w a = Some (mkWorld g1 (<[k := mkThread i fd AtCleanup]> (threads w))
                     (spawning w), EvClose fd :: sent) ->
  run_calls w [a; Cleanup k]
  = Some (mkWorld g1 (delete k (threads w)) (spawning w),
          EvClose fd :: sent ++ [EvClose fd]).
Proof.
  intros Hwf Hk Hfd Hb Hexec. unfold run_calls. rewrite Hexec.
  assert (Ha1 : active (slot g1 i) = false).
  { pose proof (broadcast_inactive
        (match a with
         | Recv _ _ fails | RecvFailed _ fails => fails
         | _ => no_failure
         end) (remove_player i (game w)) i
        (fades_well_formed _ _ (fades_remove_player (game w) i) Hwf)
        (remove_player_inactive (game w) i)) as H.
    by rewrite Hb in H. }
  unfold exec. cbn [threads game spawning].
  rewrite list_lookup_insert_eq by (by eapply lookup_lt_Some).
  rewrite thread_cleanup_on_free_slot by done.
  by rewrite delete_insert_same, app_nil_r.
Qed.

(** X15.  A handler that leaves by QUIT closes its descriptor twice:
    once inside the critical section of QUIT, through the slot (line
    241), and once more after the loop, through its own copy (line
    264).  In between, the slot is freed and the others are sent the
    state once. *)
Theorem quit_closes_descriptor_twice (w : World) (k i : nat) (fd : Z)
    (line : string) (fails : nat -> bool) :
  well_formed (game w) ->
  threads w !! k = Some (mkThread i fd AtRecv) ->
  socket_fd (slot (game w) i) = fd ->
  parse_command (CStr.trim_line line) = Quit ->
  let after := broadcast_state_locked fails (remove_player i (game w)) in
  run_calls w [Recv k line fails; Cleanup k]
  = Some (mkWorld after.1 (delete k (threads w)) (spawning w),
          EvClose fd :: after.2 ++ [EvClose fd]) /\
  active (slot after.1 i) = false /\
  broadcasts after.2 = 1%nat.
Proof.
  intros Hwf Hk Hfd Hparse after.
  assert (Hwf1 : well_formed (remove_player i (game w)))
    by exact (fades_well_formed _ _ (fades_remove_player (game w) i) Hwf).
  split; [|split].
  - apply (leave_then_cleanup w k i fd (Recv k line fails)); try done.
    { apply surjective_pairing. }
    unfold exec, move_request, handle_line, quit_locked.
    rewrite Hk, Hparse, Hfd. subst after.
    by destruct (broadcast_state_locked _ _).
  - apply broadcast_inactive; [done|]. apply remove_player_inactive.
  - by apply broadcast_once.
Qed.

(** The thread of slot 0 in [duel_world] leaves by QUIT. *)
Lemma quit_closes_descriptor_twice_witness :
  well_formed (game duel_world) /\
  threads duel_world !! 0%nat = Some (mkThread 0 4 AtRecv) /\
  exists w' sent,
    run_calls duel_world [Recv 0 "QUIT" no_failure; Cleanup 0]
    = Some (w', EvClose 4 :: sent ++ [EvClose 4]).
Proof.
  split; [reflexivity|]. split; [reflexivity|].
  destruct (quit_closes_descriptor_twice duel_world 0 0 4 "QUIT" no_failure)
    as [Hrun _]; [reflexivity..|].
  eexists _, _. exact Hrun.
Defined.

(** X16.  A handler whose [recv] fails leaves in one of two ways (lines
    118-133 and 257-264).  If its slot is still occupied, the slot is
    freed and the state sent once, and the descriptor is closed twice,
    through the slot and through the thread's copy.  If the slot was
    freed before, by a hit or a failed [send], the globals are left
    alone, nothing is sent, and the thread's copy of the descriptor is
    closed. *)
Theorem lost_connection_leaves (w : World) (k i : nat) (fd : Z)
    (fails : nat -> bool) :
  well_formed (game w) ->
  threads w !! k = Some (mkThread i fd AtRecv) ->
  let after := broadcast_state_locked fails (remove_player i (game w)) in
  (active (slot (game w) i) = true -> socket_fd (slot (game w) i) = fd ->
   run_calls w [RecvFailed k fails; Cleanup k]
   = Some (mkWorld after.1 (delete k (threads w)) (spawning w),
           EvClose fd :: after.2 ++ [EvClose fd])) /\
  (active (slot (game w) i) = false ->
   run_calls w [RecvFailed k fails; Cleanup k]
   = Some (mkWorld (game w) (delete k (threads w)) (spawning w),
           [EvClose fd])).
Proof.
  intros Hwf Hk after. split.
  - intros Ha Hfd.
    apply (leave_then_cleanup w k i fd (RecvFailed k fails)); try done.
    { apply surjective_pairing. }
    unfold exec, recv_failed. rewrite Hk, Ha, Hfd. subst after.
    by destruct (broadcast_state_locked _ _).
  - intros Ha. unfold run_calls, exec at 1.
    rewrite Hk, recv_failed_on_free_slot by done.
    unfold exec. cbn [threads game spawning].
    rewrite list_lookup_insert_eq by (by eapply lookup_lt_Some).
    rewrite thread_cleanup_on_free_slot by done.
    by rewrite delete_insert_same.
Qed.

(** The thread of slot 1 in [duel_world], freed by the fifth hit. *)
Lemma lost_connection_leaves_witness :
  well_formed (game duel_world) /\
  threads duel_world !! 1%nat = Some (mkThread 1 5 AtRecv) /\
  active (slot (game duel_world) 1) = false /\
  run_calls duel_world [RecvFailed 1 no_failure; Cleanup 1]
  = Some (mkWorld (game duel_world) (delete 1%nat (threads duel_world))
            (spawning duel_world), [EvClose 5]).
Proof.
  split; [reflexivity|]. split; [reflexivity|]. split; [reflexivity|].
  destruct (lost_connection_leaves duel_world 1 1 5 no_failure)
    as [_ Hfree]; [reflexivity..|].
  apply Hfree. reflexivity.
Defined.

(** ** Joins that go wrong *)

Lemma find_free_slot_lowest g i :
  (i < MAX_PLAYERS)%nat -> active (slot g i) = false ->
  (forall j, (j < i)%nat -> active (slot g j) = true) ->
  find_free_slot g = Some i.
Proof.
  intros Hi Ha Hbelow. destruct (find_free_slot g) as [x|] eqn:Hfind.
  - destruct (find_free_slot_spec g x Hfind) as (Hx & Hax & Hminx).
    destruct (Nat.lt_trichotomy x i) as [Hlt|[->|Hgt]]; [|done|].
    + specialize (Hbelow x Hlt). congruence.
    + specialize (Hminx i Hgt). congruence.
  - pose proof (find_free_slot_none g Hfind i Hi). congruence.
Qed.

(** The placement loop stops on the first pair of draws when the cell
    they name is admissible. *)
Lemma accept_client_first_draw g idx client_fd d1 d2 rest fails :
  well_formed g -> player_count g < Z.of_nat MAX_PLAYERS ->
  find_free_slot g = Some idx ->
  admissible g idx (Z.rem d1 GRID_SIZE) (Z.rem d2 GRID_SIZE) = true ->
  accept_client g client_fd (d1 :: d2 :: rest) fails
  = Some (broadcast_state_locked fails
            (joined g idx client_fd (Z.rem d1 GRID_SIZE) (Z.rem d2 GRID_SIZE)),
          Some idx).
Proof.
  intros Hwf Hroom Hfind Hadm. unfold accept_client.
  destruct (Z.geb_spec (player_count g) (Z.of_nat MAX_PLAYERS)); [lia|].
  rewrite Hfind.
  destruct (find_free_slot_spec g idx Hfind) as (Hidx & Hfree & _).
  assert (Hlt : (idx < length (players g))%nat) by (by rewrite Hwf).
  rewrite !upd_slot_twice by (rewrite ?length_upd_slot; done).
  set (g1 := upd_slot idx _ g).
  assert (Hlt1 : (idx < length (players g1))%nat)
    by (unfold g1; by rewrite length_upd_slot).
  set (r := Z.rem d1 GRID_SIZE) in *. set (c := Z.rem d2 GRID_SIZE) in *.
  assert (Hspawn : spawn_position idx g1 (d1 :: d2 :: rest)
                   = Some (placed g1 idx r c)).
  { cbn [spawn_position]. fold r c. rewrite placed_spec.
    assert (Hs : slot (placed g1 idx r c) idx = with_pos r c (slot g1 idx)).
    { unfold placed. by rewrite slot_upd_slot_eq. }
    rewrite Hs. cbn [row col with_pos].
    unfold placed at 2. rewrite occupied_by_other_upd.
    unfold g1 at 2. rewrite occupied_by_other_upd.
    change (obstacles (placed g1 idx r c)) with (obstacles g).
    unfold admissible in Hadm.
    apply andb_prop in Hadm as [Hobs%negb_true_iff Hocc%negb_true_iff].
    by rewrite Hobs, Hocc. }
  rewrite Hspawn. simpl. do 3 f_equal.
  unfold joined, placed, g1. f_equal. by rewrite upd_slot_twice.
Qed.

(** X17.  The final clean-up of a handler tests the slot, not the
    connection (line 258).  When a thread has left by QUIT and a new
    client is given its slot before the thread reaches its clean-up,
    the clean-up clears the flag of the new client: the join was
    announced, the counter has been incremented and decremented again,
    but the slot is free, with the new descriptor still in it, while
    [main] goes on to start a handler for it. *)
Theorem cleanup_evicts_the_next_client (w : World) (k i : nat)
    (fd client_fd : Z) (line : string) (d1 d2 : Z) :
  well_formed (game w) -> spawning w = None ->
  threads w !! k = Some (mkThread i fd AtRecv) ->
  parse_command (CStr.trim_line line) = Quit ->
  (i < MAX_PLAYERS)%nat ->
  (forall j, (j < i)%nat -> active (slot (game w) j) = true) ->
  player_count (game w) <= Z.of_nat MAX_PLAYERS ->
  0 <= client_fd -> rand_ok d1 -> rand_ok d2 ->
  admissible (game w) i (Z.rem d1 GRID_SIZE) (Z.rem d2 GRID_SIZE) = true ->
  exists w' out,
    run_calls w [Recv k line no_failure;
                 Accept client_fd [d1; d2] no_failure;
                 Cleanup k] = Some (w', out) /\
    spawning w' = Some i /\
    slot (game w') i
      = mkPlayer (symbol (slot (game w) i)) (Z.rem d1 GRID_SIZE)
          (Z.rem d2 GRID_SIZE) MAX_HP client_fd false /\
    (forall q, q <> i -> slot (game w') q = slot (game w) q) /\
    player_count (game w') = player_count (game w) - 1 /\
    broadcasts out = 2%nat /\
    last out = Some (EvClose fd).
Proof.
  intros Hwf Hsp Hk Hparse Hi Hbelow Hcount Hfd Hd1 Hd2 Hadm.
  set (g := game w) in *.
  set (r := Z.rem d1 GRID_SIZE) in *. set (c := Z.rem d2 GRID_SIZE) in *.
  assert (Hlen : (i < length (players g))%nat) by (by rewrite Hwf).
  (* the QUIT *)
  set (g1 := remove_player i g).
  assert (Hwf1 : well_formed g1)
    by exact (fades_well_formed _ _ (fades_remove_player g i) Hwf).
  set (w1 := mkWorld g1 (<[k := mkThread i fd AtCleanup]> (threads w)) None).
  set (out1 := EvClose (socket_fd (slot g i))
               :: (broadcast_state_locked no_failure g1).2).
  assert (Hstep1 : exec w (Recv k line no_failure) = Some (w1, out1)).
  { unfold exec, move_request, handle_line, quit_locked.
    rewrite Hk, Hparse, Hsp. fold g g1.
    pose proof (broadcast_no_failure g1 Hwf1) as Hb. unfold w1, out1.
    destruct (broadcast_state_locked no_failure g1) as [g1' sent].
    simpl in Hb. by subst g1'. }
  (* the join *)
  assert (Hslot1 : forall q, slot g1 q = if decide (q = i) then freed (slot g i)
                                          else slot g q).
  { intros q. unfold g1. rewrite remove_player_spec by done.
    rewrite slot_add_count, slot_upd_slot.
    case_decide as H; case_decide as H'; try done; tauto. }
  assert (Hfree1 : find_free_slot g1 = Some i).
  { apply find_free_slot_lowest; [done|apply remove_player_inactive|].
    intros j Hj. rewrite Hslot1, decide_False by lia. by apply Hbelow. }
  assert (Hadm1 : admissible g1 i r c = true).
  { unfold g1. rewrite remove_player_spec by done.
    unfold admissible in *.
    change (obstacles (add_count (-1) (upd_slot i freed g))) with (obstacles g).
    change (occupied_by_other (add_count (-1) (upd_slot i freed g)) i r c)
      with (occupied_by_other (upd_slot i freed g) i r c).
    by rewrite occupied_by_other_upd. }
  set (g2 := joined g1 i client_fd r c).
  assert (Hwf2 : well_formed g2) by (by apply joined_well_formed).
  set (w2 := mkWorld g2 (threads w1) (Some i)).
  set (out2 := (broadcast_state_locked no_failure g2).2).
  assert (Hstep2 : exec w1 (Accept client_fd [d1; d2] no_failure)
                   = Some (w2, out2)).
  { unfold exec. cbn [spawning w1 game].
    assert (Hpre : (0 <=? client_fd) && forallb rand_okb [d1; d2] = true).
    { unfold rand_ok in *. simpl. unfold rand_okb.
      repeat (apply andb_true_intro; split); try done; lia. }
    rewrite Hpre.
    rewrite (accept_client_first_draw g1 i client_fd d1 d2 [] no_failure);
      try done.
    - fold r c g2.
      pose proof (broadcast_no_failure g2 Hwf2) as Hb. unfold w2, out2.
      destruct (broadcast_state_locked no_failure g2) as [g2' sent].
      simpl in Hb. by subst g2'.
    - unfold g1, remove_player. simpl. lia. }
  (* the clean-up of the thread that left *)
  assert (Hslot2 : slot g2 i = mkPlayer (symbol (slot g i)) r c MAX_HP client_fd true).
  { unfold g2. rewrite joined_slot by (by rewrite Hwf1).
    by rewrite Hslot1, decide_True. }
  set (g3 := add_count (-1) (upd_slot i (with_active false) g2)).
  set (w3 := mkWorld g3 (delete k (threads w)) (Some i)).
  assert (Hstep3 : exec w2 (Cleanup k) = Some (w3, [EvClose fd])).
  { unfold exec. cbn [threads w2 w1 game spawning].
    rewrite list_lookup_insert_eq by (by eapply lookup_lt_Some).
    unfold thread_cleanup. rewrite Hslot2. cbn [active].
    by rewrite delete_insert_same. }
  exists w3, (out1 ++ out2 ++ [EvClose fd]).
  split.
  { unfold run_calls. by rewrite Hstep1, Hstep2, Hstep3. }
  split; [done|]. split.
  { unfold w3, g3. cbn [game]. rewrite slot_add_count, slot_upd_slot_eq.
    - by rewrite Hslot2.
    - by rewrite Hwf2. }
  split.
  { intros q Hq. unfold w3, g3, g2, joined. cbn [game].
    rewrite slot_add_count, slot_upd_slot_ne, slot_add_count,
      slot_upd_slot_ne by done.
    by rewrite Hslot1, decide_False. }
  split.
  { unfold w3, g3, g2, joined, g1, remove_player. simpl. lia. }
  split.
  { unfold out1, out2, broadcasts.
    rewrite !List.filter_app, !length_app. cbn [List.filter is_broadcast].
    pose proof (broadcast_once no_failure g1 Hwf1) as H1.
    pose proof (broadcast_once no_failure g2 Hwf2) as H2.
    unfold broadcasts in H1, H2. rewrite H1, H2. simpl. lia. }
  rewrite !app_assoc. apply last_snoc.
Qed.

(** The thread of slot 0 in [duel_world] quits, a client with
    descriptor 6 is placed on (4,4) in its slot, and the thread runs its
    clean-up. *)
Lemma cleanup_evicts_the_next_client_witness :
  well_formed (game duel_world) /\
  admissible (game duel_world) 0 (Z.rem 4 GRID_SIZE) (Z.rem 4 GRID_SIZE) = true /\
  exists w' out,
    run_calls duel_world [Recv 0 "QUIT" no_failure;
                          Accept 6 [4; 4] no_failure;
                          Cleanup 0] = Some (w', out) /\
    spawning w' = Some 0%nat /\
    active (slot (game w') 0) = false.
Proof.
  split; [reflexivity|]. split; [reflexivity|].
  destruct (cleanup_evicts_the_next_client duel_world 0 0 4 6 "QUIT" 4 4)
    as (w' & out & Hrun & Hsp & Hslot & _).
  - reflexivity.
  - reflexivity.
  - reflexivity.
  - reflexivity.
  - unfold MAX_PLAYERS. lia.
  - intros j Hj. lia.
  - apply Z.leb_le. reflexivity.
  - lia.
  - unfold rand_ok, RAND_MAX. lia.
  - unfold rand_ok, RAND_MAX. lia.
  - reflexivity.
  - exists w', out. split; [exact Hrun|]. split; [exact Hsp|].
    rewrite Hslot. reflexivity.
Defined.

(** X18.  When [pthread_create] fails after a join that no failed
    [send] disturbed, lines 395-400 take the join back: the flag of the
    new slot is cleared, its descriptor closed and forgotten, the
    counter is what it was, and every other slot is untouched.  The
    join had been announced by a broadcast; its withdrawal is not. *)
Theorem failed_spawn_undoes_join (w w1 : World) (client_fd : Z)
    (draws : list Z) (out1 : list event) (idx : nat) :
  well_formed (game w) ->
  exec w (Accept client_fd draws no_failure) = Some (w1, out1) ->
  spawning w1 = Some idx ->
  exists w2,
    exec w1 SpawnFailed = Some (w2, [EvClose client_fd]) /\
    spawning w2 = None /\ threads w2 = threads w /\
    player_count (game w2) = player_count (game w) /\
    (forall q, active (slot (game w2) q) = active (slot (game w) q)) /\
    (forall q, q <> idx -> slot (game w2) q = slot (game w) q) /\
    socket_fd (slot (game w2) idx) = -1 /\
    broadcasts out1 = 1%nat.
Proof.
  intros Hwf Hexec Hsp. unfold exec in Hexec.
  destruct (spawning w); [done|].
  destruct (_ && _) eqn:Hpre; [|done].
  apply andb_prop in Hpre as [_ Hdraws%rand_okb_spec].
  destruct (accept_client _ _ _ _) as [[[g' o] idx']|] eqn:Hacc; [|done].
  injection Hexec as <- <-. simpl in Hsp. subst idx'.
  destruct (accept_client_cases (game w) client_fd draws no_failure Hwf Hdraws)
    as [(_ & H)|[(_ & _ & H)|(_ & i & Hi & [(_ & H)|(_ & r & c & _ & _ & H)])]];
    rewrite H in Hacc; try done.
  set (g := game w) in *. set (g1 := joined g i client_fd r c) in *.
  assert (Hwf1 : well_formed g1) by (by apply joined_well_formed).
  pose proof (broadcast_no_failure g1 Hwf1) as Hb.
  pose proof (broadcast_once no_failure g1 Hwf1) as Hone.
  destruct (broadcast_state_locked no_failure g1) as [g1' sent].
  simpl in Hb, Hone. subst g1'. injection Hacc as <- <- <-.
  destruct (find_free_slot_spec g i Hi) as (Hlt & Hfree & _).
  assert (Hlen : (i < length (players g))%nat) by (by rewrite Hwf).
  assert (Hslot1 : slot g1 i
                   = mkPlayer (symbol (slot g i)) r c MAX_HP client_fd true)
    by (by apply joined_slot).
  exists (mkWorld (remove_player i g1) (threads w) None).
  split.
  { unfold exec, spawn_failed. cbn [spawning game]. by rewrite Hslot1. }
  assert (Hslot2 : forall q, slot (remove_player i g1) q
                             = if decide (q = i) then freed (slot g1 i)
                               else slot g q).
  { intros q. rewrite remove_player_spec by (by rewrite Hwf1).
    rewrite slot_add_count, slot_upd_slot.
    case_decide as Hq; case_decide as Hq'; try done; try tauto.
    - rewrite Hwf1 in Hq. tauto.
    - unfold g1, joined. by rewrite slot_add_count, slot_upd_slot_ne. }
  cbn [spawning threads game].
  split; [done|]. split; [done|]. split.
  { unfold remove_player, g1, joined. simpl. lia. }
  split.
  { intros q. rewrite Hslot2. case_decide as Hq; [|done].
    subst q. by rewrite Hslot1, Hfree. }
  split.
  { intros q Hq. by rewrite Hslot2, decide_False. }
  split; [|done].
  by rewrite Hslot2, decide_True, Hslot1.
Qed.

Lemma first_join_exec :
  exec (mkWorld demo_game [] None) (Accept 4 [3; 3] no_failure)
  = Some (first_join, first_join_calls).
Proof. vm_compute. reflexivity. Qed.

(** A client joins [demo_game] and no thread can be created for it. *)
Lemma failed_spawn_undoes_join_witness :
  well_formed demo_game /\
  exec (mkWorld demo_game [] None) (Accept 4 [3; 3] no_failure)
    = Some (first_join, first_join_calls) /\
  spawning first_join = Some 0%nat /\
  exists w2,
    exec first_join SpawnFailed = Some (w2, [EvClose 4]) /\
    player_count (game w2) = 0.
Proof.
  split; [reflexivity|]. split; [exact first_join_exec|].
  split; [reflexivity|].
  destruct (failed_spawn_undoes_join (mkWorld demo_game [] None) first_join 4
              [3; 3] first_join_calls 0 eq_refl first_join_exec eq_refl)
    as (w2 & Hfail & _ & _ & Hcount & _).
  exists w2. split; [exact Hfail|exact Hcount].
Defined.

(** ** Where the draws put obstacles and players *)

Lemma place_obstacles_cells draws :
  Forall rand_ok draws ->
  forall obs k n obs', grid_ok obs ->
  (forall r c, in_bounds r c -> obstacle_at obs r c = 0 \/ obstacle_at obs r c = 1) ->
  place_obstacles obs k n draws = Some obs' ->
  (forall r c, in_bounds r c ->
     obstacle_at obs' r c = 0 \/ obstacle_at obs' r c = 1) /\
  (forall r c, in_bounds r c -> obstacle_at obs' r c = 1 ->
     obstacle_at obs r c = 1 \/ (r, c) ∈ named_cells draws).
Proof.
  induction draws as [| d | d1 d2 rest IH] using pairs_ind;
    intros Hok obs k n obs' Hgrid Hbits; cbn [place_obstacles named_cells];
    destruct (Z.ltb_spec k n) as [Hlt|Hge]; try done;
    try (intros [= <-]; split; [done|by left]).
  apply Forall_cons in Hok as [Hd1 Hok]. apply Forall_cons in Hok as [Hd2 Hok].
  pose proof (rem_in_bounds d1 d2 Hd1 Hd2) as Hb.
  set (r0 := Z.rem d1 GRID_SIZE) in *. set (c0 := Z.rem d2 GRID_SIZE) in *.
  destruct (Z.eqb_spec (obstacle_at obs r0 c0) 1) as [Hhit|Hfree].
  - intros Hrec.
    destruct (IH Hok obs (k - 1 + 1) n obs' Hgrid Hbits Hrec) as [Hb' Hin].
    split; [done|]. intros r c Hrc Hone.
    destruct (Hin r c Hrc Hone) as [?|?]; [by left|right; by right].
  - intros Hrec.
    assert (Hbits1 : forall r c, in_bounds r c ->
              obstacle_at (set_obstacle obs r0 c0) r c = 0 \/
              obstacle_at (set_obstacle obs r0 c0) r c = 1).
    { intros r c Hrc. rewrite obstacle_at_set by done.
      case_decide; [by right|by apply Hbits]. }
    destruct (IH Hok _ (k + 1) n obs' (grid_ok_set _ _ _ Hgrid) Hbits1 Hrec)
      as [Hb' Hin].
    split; [done|]. intros r c Hrc Hone.
    destruct (Hin r c Hrc Hone) as [Hset|?]; [|right; by right].
    rewrite obstacle_at_set in Hset by done.
    case_decide as Heq; [|by left].
    destruct Heq as [-> ->]. right. by left.
Qed.

(** X19.  The grid [main] leaves (lines 299-309) has [GRID_SIZE] rows
    of [GRID_SIZE] entries, each 0 or 1, and a 1 only on cells that the
    draws named. *)
Theorem obstacles_are_drawn_cells (d : Z) (rest : list Z) (g : Game) :
  rand_ok d -> Forall rand_ok rest ->
  main_init (d :: rest) = Some g ->
  grid_ok (obstacles g) /\
  (forall r c, in_bounds r c ->
     obstacle_at (obstacles g) r c = 0 \/ obstacle_at (obstacles g) r c = 1) /\
  (forall r c, in_bounds r c -> obstacle_at (obstacles g) r c = 1 ->
     (r, c) ∈ named_cells rest).
Proof.
  intros Hd Hrest Hinit. unfold main_init in Hinit.
  destruct (place_obstacles _ _ _ _) as [obs|] eqn:Hplace; [|done].
  simpl in Hinit. injection Hinit as <-. simpl.
  assert (0 <= Z.rem d 3 < 3) as Hrem
    by (apply Z.rem_bound_pos; unfold rand_ok in Hd; lia).
  destruct (place_obstacles_count rest Hrest empty_grid 0 (3 + Z.rem d 3) obs
              grid_ok_empty ltac:(lia) Hplace) as [Hgrid _].
  assert (Hempty : forall r c, in_bounds r c -> obstacle_at empty_grid r c = 0).
  { intros r c [Hr Hc]. unfold GRID_SIZE in *.
    assert (r = 0 \/ r = 1 \/ r = 2 \/ r = 3 \/ r = 4) as Hr' by lia.
    assert (c = 0 \/ c = 1 \/ c = 2 \/ c = 3 \/ c = 4) as Hc' by lia.
    destruct Hr' as [->|[->|[->|[->| ->]]]];
      destruct Hc' as [->|[->|[->|[->| ->]]]]; reflexivity. }
  destruct (place_obstacles_cells rest Hrest empty_grid 0 (3 + Z.rem d 3) obs
              grid_ok_empty) as [Hbits Hin]; [|done|].
  { intros r c Hrc. left. by apply Hempty. }
  split; [done|]. split; [done|].
  intros r c Hrc Hone. destruct (Hin r c Hrc Hone) as [He|?]; [|done].
  rewrite Hempty in He by done. done.
Qed.

(** Start-up on [demo_draws]. *)
Lemma obstacles_are_drawn_cells_witness :
  rand_ok 0 /\ Forall rand_ok [0; 0; 1; 1; 2; 2] /\
  main_init demo_draws = Some demo_game /\
  grid_ok (obstacles demo_game).
Proof.
  assert (H0 : rand_ok 0) by (unfold rand_ok, RAND_MAX; lia).
  assert (Hrest : Forall rand_ok [0; 0; 1; 1; 2; 2])
    by (repeat constructor; unfold RAND_MAX; lia).
  split; [exact H0|]. split; [exact Hrest|]. split; [reflexivity|].
  destruct (obstacles_are_drawn_cells 0 [0; 0; 1; 1; 2; 2] demo_game H0 Hrest
              eq_refl) as [Hgrid _].
  exact Hgrid.
Defined.

Lemma find_same {A : Type} (f h : A -> bool) (l : list A) :
  (forall x, f x = h x) -> find f l = find h l.
Proof.
  intros Hfh. induction l as [|x l IH]; simpl; [done|].
  by rewrite Hfh, IH.
Qed.

Lemma spawn_position_first idx draws :
  forall g, (idx < length (players g))%nat ->
  spawn_position idx g draws
  = (fun rc => placed g idx rc.1 rc.2) <$> first_admissible g idx draws.
Proof.
  unfold first_admissible.
  induction draws as [| d | d1 d2 rest IH] using pairs_ind; intros g Hidx;
    try done.
  cbn [spawn_position named_cells find]. rewrite placed_spec.
  set (r := Z.rem d1 GRID_SIZE). set (c := Z.rem d2 GRID_SIZE).
  assert (Hs : slot (placed g idx r c) idx = with_pos r c (slot g idx)).
  { unfold placed. by rewrite slot_upd_slot_eq. }
  rewrite Hs. cbn [row col with_pos fst snd].
  unfold placed at 2. rewrite occupied_by_other_upd.
  change (obstacles (placed g idx r c)) with (obstacles g).
  unfold admissible at 1.
  destruct (obstacle_at (obstacles g) r c =? 1); simpl.
  - rewrite IH by (by rewrite length_placed).
    rewrite (find_same (fun rc => admissible (placed g idx r c) idx rc.1 rc.2)
               (fun rc => admissible g idx rc.1 rc.2)).
    + destruct (find _ _) as [[r' c']|]; simpl; [|done].
      by rewrite placed_placed.
    + intros [r' c']. unfold placed. by rewrite admissible_upd.
  - destruct (occupied_by_other g idx r c); simpl; [|done].
    rewrite IH by (by rewrite length_placed).
    rewrite (find_same (fun rc => admissible (placed g idx r c) idx rc.1 rc.2)
               (fun rc => admissible g idx rc.1 rc.2)).
    + destruct (find _ _) as [[r' c']|]; simpl; [|done].
      by rewrite placed_placed.
    + intros [r' c']. unfold placed. by rewrite admissible_upd.
Qed.

(** X20.  A join puts the new player on the first cell drawn that is
    neither an obstacle nor held by another occupied slot (lines
    380-384): with the counter below [MAX_PLAYERS] and a free slot, the
    result of an accepted connection is the join on that cell, and the
    loop does not return when the draws name no such cell. *)
Theorem join_takes_first_admissible_cell (g : Game) (client_fd : Z)
    (draws : list Z) (fails : nat -> bool) (idx : nat) :
  well_formed g -> player_count g < Z.of_nat MAX_PLAYERS ->
  find_free_slot g = Some idx ->
  accept_client g client_fd draws fails
  = (fun rc => (broadcast_state_locked fails (joined g idx client_fd rc.1 rc.2),
                Some idx))
    <$> first_admissible g idx draws.
Proof.
  intros Hwf Hroom Hfind. unfold accept_client.
  destruct (Z.geb_spec (player_count g) (Z.of_nat MAX_PLAYERS)); [lia|].
  rewrite Hfind.
  destruct (find_free_slot_spec g idx Hfind) as (Hidx & Hfree & _).
  assert (Hlt : (idx < length (players g))%nat) by (by rewrite Hwf).
  rewrite !upd_slot_twice by (rewrite ?length_upd_slot; done).
  set (g1 := upd_slot idx _ g).
  assert (Hlt1 : (idx < length (players g1))%nat)
    by (unfold g1; by rewrite length_upd_slot).
  rewrite spawn_position_first by done. unfold first_admissible.
  rewrite (find_same (fun rc => admissible g1 idx rc.1 rc.2)
             (fun rc => admissible g idx rc.1 rc.2)).
  2:{ intros [r c]. unfold g1. by rewrite admissible_upd. }
  destruct (find _ _) as [[r c]|]; simpl; [|done].
  do 3 f_equal. unfold joined, placed, g1. f_equal. by rewrite upd_slot_twice.
Qed.

(** A client joins [arena]; the draws name (3,3), which is taken, then
    (1,1), an obstacle, then (4,2). *)
Lemma join_takes_first_admissible_cell_witness :
  well_formed arena /\ find_free_slot arena = Some 2%nat /\
  accept_client arena 6 [3; 3; 1; 1; 4; 2] no_failure
  = Some (broadcast_state_locked no_failure (joined arena 2 6 4 2), Some 2%nat).
Proof.
  split; [reflexivity|]. split; [reflexivity|].
  rewrite (join_takes_first_admissible_cell arena 6 [3; 3; 1; 1; 4; 2]
             no_failure 2).
  - reflexivity.
  - reflexivity.
  - apply Z.ltb_lt. reflexivity.
  - reflexivity.
Defined.

(** ** The turns of a handler thread *)

(** X21.  The target of a MOVE is computed from the slot before the
    lock is taken (lines 152-153) and tested after (lines 168-199).
    When no other thread gets the lock in between, the two steps give
    what the MOVE handled in one piece gives, and the thread is back at
    its [recv]. *)
Theorem move_in_two_steps (w : World) (k i : nat) (fd : Z) (line : string)
    (fails0 fails : nat -> bool) :
  threads w !! k = Some (mkThread i fd AtRecv) ->
  is_Some (move_request (game w) i line) ->
  run_calls w [Recv k line fails0; MoveLocked k fails]
  = Some (mkWorld (handle_line (game w) i fd line fails).1.1 (threads w)
            (spawning w),
          (handle_line (game w) i fd line fails).1.2) /\
  (handle_line (game w) i fd line fails).2 = true.
Proof.
  intros Hk [[newR newC] Hreq].
  rewrite (handle_line_move _ _ _ _ fails _ _ Hreq). cbn [fst snd].
  split; [|done]. unfold run_calls, exec at 1. rewrite Hk, Hreq.
  unfold exec. cbn [threads game spawning].
  rewrite list_lookup_insert_eq by (by eapply lookup_lt_Some).
  destruct (move_locked (game w) i fd newR newC fails) as [g' out].
  rewrite list_insert_insert_eq, list_insert_id by done.
  by rewrite app_nil_r.
Qed.

(** The thread of slot 0 in [duel_world] moves up. *)
Lemma move_in_two_steps_witness :
  threads duel_world !! 0%nat = Some (mkThread 0 4 AtRecv) /\
  move_request (game duel_world) 0 "MOVE UP" = Some (2, 3) /\
  run_calls duel_world [Recv 0 "MOVE UP" no_failure; MoveLocked 0 no_failure]
  = Some (mkWorld (handle_line (game duel_world) 0 4 "MOVE UP" no_failure).1.1
            (threads duel_world) (spawning duel_world),
          (handle_line (game duel_world) 0 4 "MOVE UP" no_failure).1.2).
Proof.
  split; [reflexivity|]. split; [reflexivity|].
  destruct (move_in_two_steps duel_world 0 0 4 "MOVE UP" no_failure no_failure)
    as [Hrun _].
  - reflexivity.
  - exists (2, 3). reflexivity.
  - exact Hrun.
Defined.

Lemma first_spawned_boot :
  boot demo_draws [Accept 4 [3; 3] no_failure; Spawned] = Some first_spawned.
Proof. vm_compute. reflexivity. Qed.

(** X22.  A handler thread starts by reading the descriptor its slot
    holds at that moment (line 107) and sends the welcome text to it,
    naming the letter ['A' + player_index]; the globals are not
    touched (lines 106-112). *)
Theorem welcome_names_the_letter (w : World) (k i : nat) (fd : Z) :
  reachable w ->
  threads w !! k = Some (mkThread i fd AtStart) ->
  let sock := socket_fd (slot (game w) i) in
  exec w (Start k)
  = Some (mkWorld (game w) (<[k := mkThread i sock AtRecv]> (threads w))
            (spawning w),
          [EvSend sock (Text (msg_welcome (ascii_of_nat (65 + i))))]).
Proof.
  intros Hreach Hk sock. unfold exec. rewrite Hk.
  by rewrite (reachable_symbol w Hreach i).
Qed.

(** The first client's thread starts. *)
Lemma welcome_names_the_letter_witness :
  reachable first_spawned /\
  threads first_spawned !! 0%nat = Some (mkThread 0 (-1) AtStart) /\
  exists w',
    exec first_spawned (Start 0)
    = Some (w', [EvSend 4 (Text (msg_welcome "A"))]).
Proof.
  assert (Hr : reachable first_spawned)
    by exact (boot_reachable _ _ _ first_spawned_boot).
  split; [exact Hr|]. split; [reflexivity|].
  eexists. exact (welcome_names_the_letter first_spawned 0 0 (-1) Hr eq_refl).
Defined.

(** ** The port argument *)

Lemma pretty_N_char_digit (n : N) :
  (n < 10)%N ->
  is_digit (pretty_N_char n) = true /\
  CStr.code (pretty_N_char n) - 48 = Z.of_N n.
Proof.
  intros Hn. rewrite <- (N2Nat.id n).
  assert (Hlt : (N.to_nat n < 10)%nat) by lia.
  destruct (N.to_nat n) as [|[|[|[|[|[|[|[|[|[|k]]]]]]]]]];
    first [lia | by vm_compute].
Qed.

(** Reading what [pretty_N_go] wrote: the digits of [x], then the rest. *)
Lemma digits_value_pretty (x : N) :
  exists m, forall acc s,
    digits_value acc (pretty_N_go x s) = digits_value (acc * m + Z.of_N x) s.
Proof.
  induction (N.lt_wf_0 x) as [x _ IH].
  destruct (decide (x = 0%N)) as [->|Hne].
  { exists 1. intros acc s. rewrite pretty_N_go_0. f_equal. lia. }
  destruct (IH (x `div` 10)%N) as [m Hm]; [apply N.div_lt; lia|].
  exists (m * 10). intros acc s.
  rewrite pretty_N_go_step, Hm by lia. cbn [digits_value].
  destruct (pretty_N_char_digit (x `mod` 10)%N) as [-> ->];
    [apply N.mod_lt; lia|].
  f_equal. pose proof (N.div_mod x 10 ltac:(lia)) as Hx.
  apply (f_equal Z.of_N) in Hx. rewrite N2Z.inj_add, N2Z.inj_mul in Hx.
  simpl Z.of_N in Hx. lia.
Qed.

Lemma pretty_N_go_head (x : N) (s : string) :
  (0 < x)%N ->
  exists c t, pretty_N_go x s = String c t /\ is_digit c = true.
Proof.
  revert s. induction (N.lt_wf_0 x) as [x _ IH]. intros s Hx.
  rewrite pretty_N_go_step by done.
  destruct (decide (x `div` 10 = 0)%N) as [Hz|Hnz].
  - rewrite Hz, pretty_N_go_0. eexists _, _. split; [done|].
    apply pretty_N_char_digit, N.mod_lt. lia.
  - apply IH; [apply N.div_lt; lia|by apply N.neq_0_lt_0].
Qed.

Lemma digit_is_plain (c : ascii) :
  is_digit c = true ->
  CStr.isspace c = false /\ (CStr.code c =? 45) = false /\
  (CStr.code c =? 43) = false.
Proof.
  unfold is_digit, CStr.isspace.
  intros [H1%Z.leb_le H2%Z.leb_le]%andb_prop.
  repeat split.
  - apply orb_false_intro; [lia|]. apply andb_false_intro2. lia.
  - lia.
  - lia.
Qed.

Lemma atoi_digits (p : positive) :
  atoi (pretty_N_go (N.pos p) "") = Z.pos p.
Proof.
  destruct (pretty_N_go_head (N.pos p) "" ltac:(lia)) as (c & t & Heq & Hc).
  destruct (digit_is_plain c Hc) as (Hsp & Hminus & Hplus).
  unfold atoi. rewrite Heq. cbn [CStr.skip_space]. rewrite Hsp, Hminus, Hplus.
  rewrite <- Heq. destruct (digits_value_pretty (N.pos p)) as [m Hm].
  rewrite Hm. simpl. lia.
Qed.

Lemma atoi_pretty (z : Z) : atoi (pretty z) = z.
Proof.
  destruct z as [|p|p]; [done| |].
  - unfold pretty, pretty_Z, pretty, pretty_positive, pretty, pretty_N.
    rewrite decide_False by done. apply atoi_digits.
  - unfold pretty, pretty_Z, pretty, pretty_positive, pretty, pretty_N.
    rewrite decide_False by done.
    change ("-" +:+ pretty_N_go (N.pos p) "")
      with (String "-" (pretty_N_go (N.pos p) "")).
    unfold atoi. cbn [CStr.skip_space].
    change (CStr.isspace "-") with false. cbn iota.
    change (CStr.code "-" =? 45) with true. cbn iota.
    destruct (digits_value_pretty (N.pos p)) as [m Hm].
    rewrite Hm. simpl. lia.
Qed.

(** X23.  [main] reads its port with [atoi] and tests only that it is
    positive (lines 276-280), then hands it to [htons] (line 327).  The
    decimal spelling of an [int] is read back as that number; a port
    from 1 to 65535 is bound as given, zero and negative numbers are
    refused, and a larger number passes the test and is bound modulo
    65536. *)
Theorem port_argument_round_trip (prog : string) (z : Z) :
  int_range z ->
  atoi (pretty z) = z /\
  main_arguments [prog; pretty z]
    = (if z <=? 0 then InvalidPort else Listening (z mod 65536)) /\
  (1 <= z <= 65535 -> main_arguments [prog; pretty z] = Listening z).
Proof.
  intros _. pose proof (atoi_pretty z) as Hz.
  split; [exact Hz|]. unfold main_arguments. rewrite Hz.
  split; [done|]. intros Hport.
  destruct (Z.leb_spec z 0); [lia|]. f_equal. apply Z.mod_small. lia.
Qed.

(** The port 8080. *)
Lemma port_argument_round_trip_witness :
  int_range 8080 /\ main_arguments ["server"; "8080"] = Listening 8080.
Proof.
  assert (Hr : int_range 8080) by (unfold int_range; lia).
  split; [exact Hr|].
  destruct (port_argument_round_trip "server" 8080 Hr) as (_ & _ & Hport).
  apply Hport. lia.
Defined.
